(** * A shallow embedding of the ECS engine core

    The development follows the C++ sources of the engine:
    - [engine/core/MathUtil.h]          ([Point2D], [Rect], [Line]);
    - [engine/core/pack.h]              (the type packs that number the component types);
    - [engine/core/ComponentStorage.h]  (the slot arena behind every component type);
    - [engine/managers/EntityManager.h] (entity identity and the component tables);
    - [engine/systems/*.h]              (gravity, movement, collision and score systems).

    C++ [float] is IEEE binary32; it is modelled with the parametric
    specification of floating-point numbers of the standard library,
    instantiated at precision 24 and maximal exponent 128.  [size_t] is a
    64-bit unsigned integer, modelled in [N].  A failed [assert] and an
    out-of-range [operator[]] on a vector are both contract violations; the
    operations live in the [option] monad and return [None] there. *)

From Stdlib Require Import ZArith NArith Floats.SpecFloat.
From stdpp Require Import base option list strings gmap.

Set Default Proof Using "Type".
Open Scope N_scope.

(** ** IEEE binary32 arithmetic (C++ [float]) *)

Module F32.

Definition float : Type := spec_float.

Definition prec : Z := 24.
Definition emax : Z := 128.

Definition add  : float → float → float := SFadd prec emax.
Definition sub  : float → float → float := SFsub prec emax.
Definition mul  : float → float → float := SFmul prec emax.
Definition div  : float → float → float := SFdiv prec emax.
Definition neg  : float → float := SFopp.
Definition abs  : float → float := SFabs.

(** Comparison operators of C++: each of them is false on NaN. *)
Definition ltb (a b : float) : bool := SFltb a b.
Definition leb (a b : float) : bool := SFleb a b.
Definition gtb (a b : float) : bool := SFltb b a.
Definition geb (a b : float) : bool := SFleb b a.

(** Conversion of a C++ [int] to [float] (round to nearest even). *)
Definition of_int (z : Z) : float := binary_normalize prec emax z 0 false.

(** The decimal literal [n/d] written with an [f] suffix: the binary32
    number nearest to the quotient, which is also what the IEEE division
    of the two exactly representable integers returns. *)
Definition lit (n d : Z) : float := div (of_int n) (of_int d).

Definition zero : float := S754_zero false.

(** [std::min(a, b)] is [(b < a) ? b : a]; [std::max(a, b)] is
    [(a < b) ? b : a]. *)
Definition min (a b : float) : float := if ltb b a then b else a.
Definition max (a b : float) : float := if ltb a b then b else a.

Definition eqb (a b : float) : bool := SFeqb a b.

Definition is_nan (a : float) : bool :=
  match a with S754_nan => true | _ => false end.

End F32.

Declare Scope f32_scope.
Delimit Scope f32_scope with f32.
Infix "+" := F32.add : f32_scope.
Infix "-" := F32.sub : f32_scope.
Infix "*" := F32.mul : f32_scope.
Infix "/" := F32.div : f32_scope.
Notation "- x" := (F32.neg x) : f32_scope.
Infix "<?" := F32.ltb : f32_scope.
Infix ">?" := F32.gtb : f32_scope.
Infix ">=?" := F32.geb : f32_scope.

(** ** Geometry primitives ([MathUtil.h]) *)

Record Point2D := mkPoint2D { px : F32.float; py : F32.float }.

(** [Point2D::operator+(const Point2D&)]. *)
Definition point_add (p q : Point2D) : Point2D :=
  mkPoint2D (px p + px q)%f32 (py p + py q)%f32.

(** [struct Rect]: a [float] corner and [int] extents. *)
Record Rect := mkRect { topLeft : Point2D; width : Z; height : Z }.

Definition set_topLeft (p : Point2D) (r : Rect) : Rect :=
  mkRect p (width r) (height r).
Definition set_x (v : F32.float) (p : Point2D) : Point2D := mkPoint2D v (py p).
Definition set_y (v : F32.float) (p : Point2D) : Point2D := mkPoint2D (px p) v.

(** The edges the source computes: [topLeft.x + width] converts the [int]
    extent to [float] before the addition. *)
Definition rect_left (r : Rect) : F32.float := px (topLeft r).
Definition rect_top (r : Rect) : F32.float := py (topLeft r).
Definition rect_right (r : Rect) : F32.float :=
  (px (topLeft r) + F32.of_int (width r))%f32.
Definition rect_bottom (r : Rect) : F32.float :=
  (py (topLeft r) + F32.of_int (height r))%f32.

(** [Rect::RectIntersect]. *)
Definition RectIntersect (this other : Rect) : bool :=
  let otherRight := rect_right other in
  let thisRight := rect_right this in
  let otherBottom := rect_bottom other in
  let thisBottom := rect_bottom this in
  if (rect_left this >=? otherRight)%f32 || (rect_left other >=? thisRight)%f32
     || (rect_top this >=? otherBottom)%f32 || (rect_top other >=? thisBottom)%f32
  then false else true.

(** [struct Overlap] and [CalculateOverlap] ([CollisionSystem.h]). *)
Record Overlap := mkOverlap { horizontal : F32.float; vertical : F32.float }.

Definition CalculateOverlap (rect1 rect2 : Rect) : Overlap :=
  let left1 := px (topLeft rect1) in
  let right1 := (left1 + F32.of_int (width rect1))%f32 in
  let top1 := py (topLeft rect1) in
  let bottom1 := (top1 + F32.of_int (height rect1))%f32 in
  let left2 := px (topLeft rect2) in
  let right2 := (left2 + F32.of_int (width rect2))%f32 in
  let top2 := py (topLeft rect2) in
  let bottom2 := (top2 + F32.of_int (height rect2))%f32 in
  mkOverlap (F32.min right1 right2 - F32.max left1 left2)%f32
            (F32.min bottom1 bottom2 - F32.max top1 top2)%f32.

(** ** [std::vector] and [size_t] *)

(** [size_t] arithmetic wraps modulo [2^64]. *)
Definition SIZE_MAX : N := 18446744073709551615.
Definition size_wrap (n : N) : N := n mod (SIZE_MAX + 1).
Definition size_incr (n : N) : N := size_wrap (n + 1).
Definition size_decr (n : N) : N := size_wrap (n + SIZE_MAX).

(** A vector is the list of its elements in index order; [push_back]
    appends at the end and [back] reads the last element.  Reading or
    writing [v[i]] with [i] out of range is undefined behaviour. *)
Definition vec_size {A} (v : list A) : N := N.of_nat (length v).

Definition vec_at {A} (v : list A) (i : N) : option A :=
  if i <? vec_size v then v !! N.to_nat i else None.

Definition vec_assign {A} (v : list A) (i : N) (x : A) : option (list A) :=
  if i <? vec_size v then Some (<[N.to_nat i := x]> v) else None.

Definition push_back {A} (v : list A) (x : A) : list A := v ++ [x].
Definition back {A} (v : list A) : option A := last v.
Definition pop_back {A} (v : list A) : list A := removelast v.

(** [assert(b)]. *)
Definition assert (b : bool) : option unit := if b then Some () else None.

(** [T {}]: the value-initialised object of a type. *)
Class ValueInit (T : Type) := value_init : T.



(** ** Component storage ([ComponentStorage.h]) *)

Module ComponentStorage.

Record t (T : Type) := mk {
  mStorage : list T;
  mValid : list bool;
  mFreeList : list N;
  mCount : N;
}.
Global Arguments mk {T}.
Global Arguments mStorage {T}.
Global Arguments mValid {T}.
Global Arguments mFreeList {T}.
Global Arguments mCount {T}.

Section ops.
Context {T : Type} `{!ValueInit T}.

(** [ComponentStorage() = default]. *)
Definition empty : t T := mk [] [] [] 0.

(** [valid(id)]. *)
Definition valid (s : t T) (id : N) : bool :=
  (id <? vec_size (mValid s)) && default false (vec_at (mValid s) id).

(** [store(value)], both overloads: the most recently freed slot is
    reused, otherwise the vectors grow by one. *)
Definition store (value : T) (s : t T) : option (N * t T) :=
  match back (mFreeList s) with
  | Some id =>
      let fl := pop_back (mFreeList s) in
      st ← vec_assign (mStorage s) id value;
      vl ← vec_assign (mValid s) id true;
      Some (id, mk st vl fl (size_incr (mCount s)))
  | None =>
      let id := vec_size (mStorage s) in
      Some (id, mk (push_back (mStorage s) value) (push_back (mValid s) true)
                   (mFreeList s) (size_incr (mCount s)))
  end.

(** [remove(id)]. *)
Definition remove (id : N) (s : t T) : option (t T) :=
  assert (valid s id);;
  vl ← vec_assign (mValid s) id false;
  st ← vec_assign (mStorage s) id value_init;
  Some (mk st vl (push_back (mFreeList s) id) (size_decr (mCount s))).

(** [operator[](id)], the checked overload. *)
Definition get (s : t T) (id : N) : option T :=
  assert (valid s id);;
  vec_at (mStorage s) id.

(** Assignment through the reference returned by [operator[]]. *)
Definition set (id : N) (x : T) (s : t T) : option (t T) :=
  assert (valid s id);;
  st ← vec_assign (mStorage s) id x;
  Some (mk st (mValid s) (mFreeList s) (mCount s)).

(** [size()]. *)
Definition size (s : t T) : N := mCount s.

(** The number of slots whose validity marker is set. *)
Fixpoint trues (l : list bool) : nat :=
  match l with
  | [] => 0
  | b :: l' => (if b then 1 else 0) + trues l'
  end%nat.

Definition count_valid (s : t T) : nat := trues (mValid s).

(** A run of [store] and [remove] calls on one storage. *)
Inductive op := Store (value : T) | Remove (id : N).

Definition step (s : t T) (o : op) : option (t T) :=
  match o with
  | Store value => snd <$> store value s
  | Remove id => remove id s
  end.

Fixpoint run (ops : list op) (s : t T) : option (t T) :=
  match ops with
  | [] => Some s
  | o :: ops' => s' ← step s o; run ops' s'
  end.

Definition is_store (o : op) : bool :=
  match o with Store _ => true | Remove _ => false end.
Fixpoint stores (ops : list op) : nat :=
  match ops with
  | [] => 0
  | o :: ops' => (if is_store o then 1 else 0) + stores ops'
  end%nat.
Fixpoint removes (ops : list op) : nat :=
  match ops with
  | [] => 0
  | o :: ops' => (if is_store o then 0 else 1) + removes ops'
  end%nat.

(** The representation invariant of the arena. *)
Record wf (s : t T) : Prop := {
  wf_length : length (mStorage s) = length (mValid s);
  wf_free_NoDup : NoDup (mFreeList s);
  wf_free_invalid : ∀ id, id ∈ mFreeList s → vec_at (mValid s) id = Some false;
  wf_count : mCount s = size_wrap (N.of_nat (count_valid s));
}.
End ops.
Global Arguments op : clear implicits.


End ComponentStorage.

(** ** Components ([engine/components/*.h]) *)

Record LocationComponent := mkLocation { position : Point2D }.

Record MovementComponent := mkMovement { velocity : Point2D; maxSpeed : F32.float }.

Record CollisionComponent := mkCollision {
  collidedTop : bool;
  collidedBottom : bool;
  collidedLeft : bool;
  collidedRight : bool;
  wasStandingLast : bool;
  wasTouchingWallLast : bool;
  boundingBoxOffset : Point2D;
  currentBoundingBox : Rect;
  previousBoundingBox : Rect;
  isStatic : bool;
  boundingBoxInitialized : bool;
}.

(** [SpriteID] is a [size_t] handle of the sprite manager. *)
Record SpriteComponent := mkSprite {
  spriteID : N;
  spriteRect : Rect;
  worldSpace : bool;
  isAlive : bool;
}.

(** [std::bitset<sf::Keyboard::ScancodeCount>]: bit [i] of the number is
    the state of key [i]. *)
Record InputComponent := mkInput { keydown : N }.

Record CameraShake := mkCameraShake {
  isShaking : bool;
  shake_horizontal : bool;
  magnitudeX : F32.float;
  magnitudeY : F32.float;
  frequencyX : F32.float;
  frequencyY : F32.float;
  elapsedTime : F32.float;
}.

(** [score] is a C++ [int]. *)
Record ScoreComponent := mkScore {
  score : Z;
  displayEntities : list N;
  digitSprites : list N;
}.

Definition INT_MIN : Z := -2147483648.
Definition INT_MAX : Z := 2147483647.

(** Signed [int] addition; overflow is undefined behaviour. *)
Definition int_add (a b : Z) : option Z :=
  let r := (a + b)%Z in
  if (INT_MIN <=? r)%Z && (r <=? INT_MAX)%Z then Some r else None.

(** Field assignments. *)
Definition set_position (p : Point2D) (l : LocationComponent) : LocationComponent :=
  mkLocation p.
Definition set_velocity (v : Point2D) (mv : MovementComponent) : MovementComponent :=
  mkMovement v (maxSpeed mv).

Definition set_collidedTop (b : bool) (c : CollisionComponent) : CollisionComponent :=
  mkCollision b (collidedBottom c) (collidedLeft c) (collidedRight c)
    (wasStandingLast c) (wasTouchingWallLast c) (boundingBoxOffset c)
    (currentBoundingBox c) (previousBoundingBox c) (isStatic c) (boundingBoxInitialized c).
Definition set_collidedBottom (b : bool) (c : CollisionComponent) : CollisionComponent :=
  mkCollision (collidedTop c) b (collidedLeft c) (collidedRight c)
    (wasStandingLast c) (wasTouchingWallLast c) (boundingBoxOffset c)
    (currentBoundingBox c) (previousBoundingBox c) (isStatic c) (boundingBoxInitialized c).
Definition set_collidedLeft (b : bool) (c : CollisionComponent) : CollisionComponent :=
  mkCollision (collidedTop c) (collidedBottom c) b (collidedRight c)
    (wasStandingLast c) (wasTouchingWallLast c) (boundingBoxOffset c)
    (currentBoundingBox c) (previousBoundingBox c) (isStatic c) (boundingBoxInitialized c).
Definition set_collidedRight (b : bool) (c : CollisionComponent) : CollisionComponent :=
  mkCollision (collidedTop c) (collidedBottom c) (collidedLeft c) b
    (wasStandingLast c) (wasTouchingWallLast c) (boundingBoxOffset c)
    (currentBoundingBox c) (previousBoundingBox c) (isStatic c) (boundingBoxInitialized c).
Definition set_wasStandingLast (b : bool) (c : CollisionComponent) : CollisionComponent :=
  mkCollision (collidedTop c) (collidedBottom c) (collidedLeft c) (collidedRight c)
    b (wasTouchingWallLast c) (boundingBoxOffset c)
    (currentBoundingBox c) (previousBoundingBox c) (isStatic c) (boundingBoxInitialized c).
Definition set_wasTouchingWallLast (b : bool) (c : CollisionComponent) : CollisionComponent :=
  mkCollision (collidedTop c) (collidedBottom c) (collidedLeft c) (collidedRight c)
    (wasStandingLast c) b (boundingBoxOffset c)
    (currentBoundingBox c) (previousBoundingBox c) (isStatic c) (boundingBoxInitialized c).
Definition set_currentBoundingBox (r : Rect) (c : CollisionComponent) : CollisionComponent :=
  mkCollision (collidedTop c) (collidedBottom c) (collidedLeft c) (collidedRight c)
    (wasStandingLast c) (wasTouchingWallLast c) (boundingBoxOffset c)
    r (previousBoundingBox c) (isStatic c) (boundingBoxInitialized c).
Definition set_boundingBoxInitialized (b : bool) (c : CollisionComponent) : CollisionComponent :=
  mkCollision (collidedTop c) (collidedBottom c) (collidedLeft c) (collidedRight c)
    (wasStandingLast c) (wasTouchingWallLast c) (boundingBoxOffset c)
    (currentBoundingBox c) (previousBoundingBox c) (isStatic c) b.

(** [CollisionComponent::clearCollisions]. *)
Definition clearCollisions (c : CollisionComponent) : CollisionComponent :=
  set_collidedRight false (set_collidedLeft false
    (set_collidedBottom false (set_collidedTop false c))).

(** [col.currentBoundingBox.topLeft.x = v] and the same for [y]. *)
Definition set_box_x (v : F32.float) (c : CollisionComponent) : CollisionComponent :=
  set_currentBoundingBox
    (set_topLeft (set_x v (topLeft (currentBoundingBox c))) (currentBoundingBox c)) c.
Definition set_box_y (v : F32.float) (c : CollisionComponent) : CollisionComponent :=
  set_currentBoundingBox
    (set_topLeft (set_y v (topLeft (currentBoundingBox c))) (currentBoundingBox c)) c.
Definition box_x (c : CollisionComponent) : F32.float := px (topLeft (currentBoundingBox c)).
Definition box_y (c : CollisionComponent) : F32.float := py (topLeft (currentBoundingBox c)).

Definition set_pos_x (v : F32.float) (l : LocationComponent) : LocationComponent :=
  set_position (set_x v (position l)) l.
Definition set_pos_y (v : F32.float) (l : LocationComponent) : LocationComponent :=
  set_position (set_y v (position l)) l.
Definition set_vel_x (v : F32.float) (mv : MovementComponent) : MovementComponent :=
  set_velocity (set_x v (velocity mv)) mv.
Definition set_vel_y (v : F32.float) (mv : MovementComponent) : MovementComponent :=
  set_velocity (set_y v (velocity mv)) mv.

Definition set_score (z : Z) (sc : ScoreComponent) : ScoreComponent :=
  mkScore z (displayEntities sc) (digitSprites sc).
Definition set_isAlive (b : bool) (sp : SpriteComponent) : SpriteComponent :=
  mkSprite (spriteID sp) (spriteRect sp) (worldSpace sp) b.
Definition set_isShaking (b : bool) (sh : CameraShake) : CameraShake :=
  mkCameraShake b (shake_horizontal sh) (magnitudeX sh) (magnitudeY sh)
    (frequencyX sh) (frequencyY sh) (elapsedTime sh).
Definition set_shake_horizontal (b : bool) (sh : CameraShake) : CameraShake :=
  mkCameraShake (isShaking sh) b (magnitudeX sh) (magnitudeY sh)
    (frequencyX sh) (frequencyY sh) (elapsedTime sh).

(** Default constructors, the [T {}] a storage writes into a freed slot. *)
Definition origin : Point2D := mkPoint2D F32.zero F32.zero.
Definition empty_rect : Rect := mkRect origin 0 0.

Global Instance LocationComponent_init : ValueInit LocationComponent :=
  mkLocation origin.
Global Instance MovementComponent_init : ValueInit MovementComponent :=
  mkMovement origin (F32.of_int 300).
Global Instance CollisionComponent_init : ValueInit CollisionComponent :=
  mkCollision false false false false true false origin empty_rect empty_rect true false.
Global Instance SpriteComponent_init : ValueInit SpriteComponent :=
  mkSprite 0 empty_rect true true.
Global Instance InputComponent_init : ValueInit InputComponent := mkInput 0.
Global Instance CameraShake_init : ValueInit CameraShake :=
  mkCameraShake false false F32.zero F32.zero (F32.lit 15 10) (F32.lit 21 10) F32.zero.
Global Instance ScoreComponent_init : ValueInit ScoreComponent :=
  mkScore 0 [] (replicate 10 0).

(** ** The entity registry ([EntityManager.h]) *)

(** The closed list of component types the registry is instantiated with
    (the [Components...] pack), in the order of the game's instantiation
    restricted to the types the modelled systems touch. *)
Inductive CompKind :=
  | KLocation | KMovement | KCollision | KSprite | KInput | KCameraShake | KScore.

Global Instance CompKind_eq_dec : EqDecision CompKind.
Proof. solve_decision. Defined.

Definition comp_type (k : CompKind) : Type :=
  match k with
  | KLocation => LocationComponent
  | KMovement => MovementComponent
  | KCollision => CollisionComponent
  | KSprite => SpriteComponent
  | KInput => InputComponent
  | KCameraShake => CameraShake
  | KScore => ScoreComponent
  end.

Global Instance comp_type_init (k : CompKind) : ValueInit (comp_type k) :=
  match k with
  | KLocation => LocationComponent_init
  | KMovement => MovementComponent_init
  | KCollision => CollisionComponent_init
  | KSprite => SpriteComponent_init
  | KInput => InputComponent_init
  | KCameraShake => CameraShake_init
  | KScore => ScoreComponent_init
  end.

Definition all_kinds : list CompKind :=
  [KLocation; KMovement; KCollision; KSprite; KInput; KCameraShake; KScore].

(** [Pack<Components...>::index<T>] and [Pack<Components...>::size]. *)
Definition COMP_TYPE_ID (k : CompKind) : N :=
  match k with
  | KLocation => 0
  | KMovement => 1
  | KCollision => 2
  | KSprite => 3
  | KInput => 4
  | KCameraShake => 5
  | KScore => 6
  end.

Definition NUM_COMPONENTS : N := vec_size all_kinds.

(** [std::numeric_limits<size_t>::max()]. *)
Definition INVALID_COMPONENT_INDEX : N := SIZE_MAX.

(** The tuple [mRegistries]: one storage per component type. *)
Record Registries := mkRegistries {
  regLocation : ComponentStorage.t LocationComponent;
  regMovement : ComponentStorage.t MovementComponent;
  regCollision : ComponentStorage.t CollisionComponent;
  regSprite : ComponentStorage.t SpriteComponent;
  regInput : ComponentStorage.t InputComponent;
  regCameraShake : ComponentStorage.t CameraShake;
  regScore : ComponentStorage.t ScoreComponent;
}.

(** [std::get<COMP_TYPE_ID>(mRegistries)], read and written. *)
Definition registry (k : CompKind) (r : Registries) : ComponentStorage.t (comp_type k) :=
  match k with
  | KLocation => regLocation r
  | KMovement => regMovement r
  | KCollision => regCollision r
  | KSprite => regSprite r
  | KInput => regInput r
  | KCameraShake => regCameraShake r
  | KScore => regScore r
  end.

Definition set_registry (k : CompKind) :
    ComponentStorage.t (comp_type k) → Registries → Registries :=
  match k with
  | KLocation => λ s r, mkRegistries s (regMovement r) (regCollision r) (regSprite r)
                          (regInput r) (regCameraShake r) (regScore r)
  | KMovement => λ s r, mkRegistries (regLocation r) s (regCollision r) (regSprite r)
                          (regInput r) (regCameraShake r) (regScore r)
  | KCollision => λ s r, mkRegistries (regLocation r) (regMovement r) s (regSprite r)
                          (regInput r) (regCameraShake r) (regScore r)
  | KSprite => λ s r, mkRegistries (regLocation r) (regMovement r) (regCollision r) s
                          (regInput r) (regCameraShake r) (regScore r)
  | KInput => λ s r, mkRegistries (regLocation r) (regMovement r) (regCollision r)
                          (regSprite r) s (regCameraShake r) (regScore r)
  | KCameraShake => λ s r, mkRegistries (regLocation r) (regMovement r) (regCollision r)
                          (regSprite r) (regInput r) s (regScore r)
  | KScore => λ s r, mkRegistries (regLocation r) (regMovement r) (regCollision r)
                          (regSprite r) (regInput r) (regCameraShake r) s
  end.

(** [struct Entity]. *)
Record Entity := mkEntity { id : N; name : string }.

Module EntityManager.

Record t := mk {
  mEntities : list Entity;
  mRegistries : Registries;
  mEntityToComponentIdx : list (list N);
  mFreeList : list N;
  mValid : list bool;
}.

Definition set_mRegistries (r : Registries) (m : t) : t :=
  mk (mEntities m) r (mEntityToComponentIdx m) (mFreeList m) (mValid m).
Definition set_mEntityToComponentIdx (tb : list (list N)) (m : t) : t :=
  mk (mEntities m) (mRegistries m) tb (mFreeList m) (mValid m).

(** A default-constructed manager. *)
Definition empty : t :=
  mk [] (mkRegistries ComponentStorage.empty ComponentStorage.empty
           ComponentStorage.empty ComponentStorage.empty ComponentStorage.empty
           ComponentStorage.empty ComponentStorage.empty) [] [] [].

(** [ValidEntity(id)]. *)
Definition ValidEntity (m : t) (id : N) : bool :=
  (id <? vec_size (mValid m)) && default false (vec_at (mValid m) id).

(** [mEntityToComponentIdx[entity][compTypeID]], read and written. *)
Definition table_at (m : t) (entity compTypeID : N) : option N :=
  row ← vec_at (mEntityToComponentIdx m) entity;
  vec_at row compTypeID.

Definition table_assign (entity compTypeID compID : N) (m : t) : option t :=
  row ← vec_at (mEntityToComponentIdx m) entity;
  row' ← vec_assign row compTypeID compID;
  tb ← vec_assign (mEntityToComponentIdx m) entity row';
  Some (set_mEntityToComponentIdx tb m).

(** The row a new entity gets: [push_back({})] zero-initialises the array
    and the loop then overwrites every cell. *)
Definition fresh_row : list N :=
  foldl (λ row compTypeID, <[compTypeID := INVALID_COMPONENT_INDEX]> row)
        (replicate (N.to_nat NUM_COMPONENTS) 0)
        (seq 0 (N.to_nat NUM_COMPONENTS)).

(** [CreateEntity(name)]. *)
Definition CreateEntity (name : string) (m : t) : option (N * t) :=
  match back (mFreeList m) with
  | Some ret =>
      let fl := pop_back (mFreeList m) in
      vl ← vec_assign (mValid m) ret true;
      es ← vec_assign (mEntities m) ret (mkEntity ret name);
      Some (ret, mk es (mRegistries m) (mEntityToComponentIdx m) fl vl)
  | None =>
      let ret := vec_size (mEntityToComponentIdx m) in
      Some (ret, mk (push_back (mEntities m) (mkEntity ret name)) (mRegistries m)
                    (push_back (mEntityToComponentIdx m) fresh_row)
                    (mFreeList m) (push_back (mValid m) true))
  end.

(** [GetEntityName(id)]. *)
Definition GetEntityName (m : t) (id : N) : option string :=
  assert (ValidEntity m id);;
  name <$> vec_at (mEntities m) id.

(** [RemoveComponentByIndex(compTypeID, compID)]: the fold over the index
    sequence removes from the one storage whose index matches. *)
Definition RemoveComponentByIndex (compTypeID compID : N) (m : t) : option t :=
  match find (λ k, COMP_TYPE_ID k =? compTypeID) all_kinds with
  | Some k =>
      s ← ComponentStorage.remove compID (registry k (mRegistries m));
      Some (set_mRegistries (set_registry k s (mRegistries m)) m)
  | None => Some m
  end.

(** One iteration of the component loop of [RemoveEntity]. *)
Definition RemoveEntity_step (entity : N) (m : t) (compTypeID : N) : option t :=
  compID ← table_at m entity compTypeID;
  if decide (compID ≠ INVALID_COMPONENT_INDEX) then
    m ← RemoveComponentByIndex compTypeID compID m;
    table_assign entity compTypeID INVALID_COMPONENT_INDEX m
  else Some m.

(** The range-based loop over a container and the counted loop
    [for (i = 0; i < n; i++) body(i)]; a failing iteration aborts. *)
Fixpoint for_each {S A} (body : S → A → option S) (l : list A) (s : S) : option S :=
  match l with
  | [] => Some s
  | i :: l' => s' ← body s i; for_each body l' s'
  end.

Definition for_range {S} (n : N) (body : S → N → option S) (s : S) : option S :=
  for_each body (N.of_nat <$> seq 0 (N.to_nat n)) s.

(** [RemoveEntity(entity)]. *)
Definition RemoveEntity (entity : N) (m : t) : option t :=
  if negb (ValidEntity m entity) then Some m
  else
    m ← for_range NUM_COMPONENTS (RemoveEntity_step entity) m;
    es ← vec_assign (mEntities m) entity (mkEntity 0 "");
    vl ← vec_assign (mValid m) entity false;
    Some (mk es (mRegistries m) (mEntityToComponentIdx m)
             (push_back (mFreeList m) entity) vl).

(** [AddComponent<T>(entity, component)]. *)
Definition AddComponent (k : CompKind) (entity : N) (component : comp_type k)
    (m : t) : option t :=
  assert (ValidEntity m entity);;
  compID ← table_at m entity (COMP_TYPE_ID k);
  assert (bool_decide (compID = INVALID_COMPONENT_INDEX));;
  '(newCompID, s) ← ComponentStorage.store component (registry k (mRegistries m));
  table_assign entity (COMP_TYPE_ID k) newCompID
    (set_mRegistries (set_registry k s (mRegistries m)) m).

(** [RemoveComponent<T>(entity)]. *)
Definition RemoveComponent (k : CompKind) (entity : N) (m : t) : option t :=
  if negb (ValidEntity m entity) then Some m
  else
    compID ← table_at m entity (COMP_TYPE_ID k);
    if decide (compID ≠ INVALID_COMPONENT_INDEX) then
      s ← ComponentStorage.remove compID (registry k (mRegistries m));
      table_assign entity (COMP_TYPE_ID k) INVALID_COMPONENT_INDEX
        (set_mRegistries (set_registry k s (mRegistries m)) m)
    else Some m.

(** [HasComponent<T>(entity)]. *)
Definition HasComponent (k : CompKind) (m : t) (entity : N) : option bool :=
  assert (ValidEntity m entity);;
  compID ← table_at m entity (COMP_TYPE_ID k);
  Some (bool_decide (compID ≠ INVALID_COMPONENT_INDEX)).

(** [GetComponent<T>(entity)] returns a reference into the storage of
    [T]: the slot it designates.  Reading and writing through the
    reference access [mStorage] directly. *)
Definition GetComponent (k : CompKind) (m : t) (entity : N) : option N :=
  assert (ValidEntity m entity);;
  compID ← table_at m entity (COMP_TYPE_ID k);
  assert (ComponentStorage.valid (registry k (mRegistries m)) compID);;
  Some compID.

Definition deref (k : CompKind) (m : t) (ref : N) : option (comp_type k) :=
  vec_at (ComponentStorage.mStorage (registry k (mRegistries m))) ref.

Definition assign (k : CompKind) (ref : N) (x : comp_type k) (m : t) : option t :=
  let s := registry k (mRegistries m) in
  st ← vec_assign (ComponentStorage.mStorage s) ref x;
  Some (set_mRegistries
          (set_registry k
             (ComponentStorage.mk st (ComponentStorage.mValid s)
                (ComponentStorage.mFreeList s) (ComponentStorage.mCount s))
             (mRegistries m)) m).

(** [ref.field = v] and [ref.field op= v]: read, update, write back. *)
Definition modify (k : CompKind) (ref : N) (f : comp_type k → comp_type k)
    (m : t) : option t :=
  x ← deref k m ref;
  assign k ref (f x) m.

(** The entry of [entity] for component type [k] designates a component. *)
Definition owns (m : t) (entity : N) (k : CompKind) (slot : N) : Prop :=
  table_at m entity (COMP_TYPE_ID k) = Some slot ∧ slot ≠ INVALID_COMPONENT_INDEX.

(** The representation invariant of the registry. *)
Record wf (m : t) : Prop := {
  wf_entities_length : length (mEntities m) = length (mValid m);
  wf_table_length : length (mEntityToComponentIdx m) = length (mValid m);
  wf_row_length : ∀ e row,
    vec_at (mEntityToComponentIdx m) e = Some row → vec_size row = NUM_COMPONENTS;
  wf_free_NoDup : NoDup (mFreeList m);
  wf_free_invalid : ∀ e, e ∈ mFreeList m → vec_at (mValid m) e = Some false;
  wf_dead_row : ∀ e k,
    vec_at (mValid m) e = Some false →
    table_at m e (COMP_TYPE_ID k) = Some INVALID_COMPONENT_INDEX;
  wf_entity_id : ∀ e ent,
    vec_at (mEntities m) e = Some ent → id ent = if ValidEntity m e then e else 0;
  wf_slot_valid : ∀ e k slot,
    owns m e k slot → ComponentStorage.valid (registry k (mRegistries m)) slot = true;
  wf_slot_inj : ∀ e1 e2 k slot, owns m e1 k slot → owns m e2 k slot → e1 = e2;
  wf_storage : ∀ k, ComponentStorage.wf (registry k (mRegistries m));
}.

End EntityManager.

(** ** The sound manager ([SoundManager.h]) *)

(** The registered sound names and, as the observable effect of
    [sf::Sound::play], the log of the sounds played so far. *)
Record SoundManager := mkSoundManager {
  mSounds : gset string;
  played : list string;
}.

(** [SoundManager::PlaySound(soundName)]. *)
Definition PlaySound (soundName : string) (sm : SoundManager) : option SoundManager :=
  assert (bool_decide (soundName ∈ mSounds sm));;
  Some (mkSoundManager (mSounds sm) (push_back (played sm) soundName)).

(** ** Collision resolution ([CollisionSystem.h]) *)

Import EntityManager.

(** [a || b] and [a && b] on calls that may fail: the right operand is
    evaluated only when the left one does not decide. *)
Definition orb_lazy (a : option bool) (b : option bool) : option bool :=
  a ≫= λ x : bool, if x then Some true else b.
Definition andb_lazy (a : option bool) (b : option bool) : option bool :=
  a ≫= λ x : bool, if x then b else Some false.

Definition bounceDamping : F32.float := F32.lit 7 10.

(** The dynamic–dynamic branch of [ResolveCollision]. *)
Definition resolve_dynamic_dynamic (entity1 entity2 col1 col2 : N) (overlap : Overlap)
    (thePlayer : N) (m : t) : option t :=
  let entity1IsPlayer := entity1 =? thePlayer in
  let entity2IsPlayer := entity2 =? thePlayer in
  let separateHorizontally := (horizontal overlap <? vertical overlap)%f32 in
  missing ← orb_lazy (negb <$> HasComponent KLocation m entity1)
                     (negb <$> HasComponent KLocation m entity2);
  if (missing : bool) then Some m else
  location1 ← GetComponent KLocation m entity1;
  location2 ← GetComponent KLocation m entity2;
  c1 ← deref KCollision m col1;
  c2 ← deref KCollision m col2;
  if separateHorizontally then
    let halfOverlap := (horizontal overlap / F32.of_int 2)%f32 in
    let entity1IsLeft := (box_x c1 <? box_x c2)%f32 in
    m ← (if entity1IsLeft then
           m ← modify KLocation location1
                 (λ l, set_pos_x (px (position l) - halfOverlap)%f32 l) m;
           m ← modify KCollision col1 (λ c, set_box_x (box_x c - halfOverlap)%f32 c) m;
           m ← modify KLocation location2
                 (λ l, set_pos_x (px (position l) + halfOverlap)%f32 l) m;
           m ← modify KCollision col2 (λ c, set_box_x (box_x c + halfOverlap)%f32 c) m;
           m ← modify KCollision col1 (set_collidedRight true) m;
           modify KCollision col2 (set_collidedLeft true) m
         else
           m ← modify KLocation location1
                 (λ l, set_pos_x (px (position l) + halfOverlap)%f32 l) m;
           m ← modify KCollision col1 (λ c, set_box_x (box_x c + halfOverlap)%f32 c) m;
           m ← modify KLocation location2
                 (λ l, set_pos_x (px (position l) - halfOverlap)%f32 l) m;
           m ← modify KCollision col2 (λ c, set_box_x (box_x c - halfOverlap)%f32 c) m;
           m ← modify KCollision col1 (set_collidedLeft true) m;
           modify KCollision col2 (set_collidedRight true) m);
    both ← andb_lazy (HasComponent KMovement m entity1) (HasComponent KMovement m entity2);
    if (both : bool) then
      movement1 ← GetComponent KMovement m entity1;
      movement2 ← GetComponent KMovement m entity2;
      if negb entity1IsPlayer && negb entity2IsPlayer then
        mv1 ← deref KMovement m movement1;
        let temp := px (velocity mv1) in
        mv2 ← deref KMovement m movement2;
        m ← modify KMovement movement1
              (set_vel_x (px (velocity mv2) * bounceDamping)%f32) m;
        modify KMovement movement2 (set_vel_x (temp * bounceDamping)%f32) m
      else if negb entity1IsPlayer && entity2IsPlayer then
        modify KMovement movement1
          (λ mv, set_vel_x (- px (velocity mv) * bounceDamping)%f32 mv) m
      else if entity1IsPlayer && negb entity2IsPlayer then
        modify KMovement movement2
          (λ mv, set_vel_x (- px (velocity mv) * bounceDamping)%f32 mv) m
      else Some m
    else Some m
  else
    let halfOverlap := (vertical overlap / F32.of_int 2)%f32 in
    let entity1IsAbove := (box_y c1 <? box_y c2)%f32 in
    m ← (if entity1IsAbove then
           m ← modify KLocation location1
                 (λ l, set_pos_y (py (position l) - halfOverlap)%f32 l) m;
           m ← modify KCollision col1 (λ c, set_box_y (box_y c - halfOverlap)%f32 c) m;
           m ← modify KLocation location2
                 (λ l, set_pos_y (py (position l) + halfOverlap)%f32 l) m;
           m ← modify KCollision col2 (λ c, set_box_y (box_y c + halfOverlap)%f32 c) m;
           m ← modify KCollision col1 (set_collidedBottom true) m;
           modify KCollision col2 (set_collidedTop true) m
         else
           m ← modify KLocation location1
                 (λ l, set_pos_y (py (position l) + halfOverlap)%f32 l) m;
           m ← modify KCollision col1 (λ c, set_box_y (box_y c + halfOverlap)%f32 c) m;
           m ← modify KLocation location2
                 (λ l, set_pos_y (py (position l) - halfOverlap)%f32 l) m;
           m ← modify KCollision col2 (λ c, set_box_y (box_y c - halfOverlap)%f32 c) m;
           m ← modify KCollision col1 (set_collidedTop true) m;
           modify KCollision col2 (set_collidedBottom true) m);
    (* the two locals that shadow the flags computed from [thePlayer] *)
    entity1IsPlayer ← HasComponent KInput m entity1;
    entity2IsPlayer ← HasComponent KInput m entity2;
    both ← andb_lazy (HasComponent KMovement m entity1) (HasComponent KMovement m entity2);
    if (both : bool) then
      movement1 ← GetComponent KMovement m entity1;
      movement2 ← GetComponent KMovement m entity2;
      if negb entity1IsPlayer && negb entity2IsPlayer then
        mv1 ← deref KMovement m movement1;
        let temp := py (velocity mv1) in
        mv2 ← deref KMovement m movement2;
        m ← modify KMovement movement1
              (set_vel_y (py (velocity mv2) * bounceDamping)%f32) m;
        m ← modify KMovement movement2 (set_vel_y (temp * bounceDamping)%f32) m;
        mv1 ← deref KMovement m movement1;
        mv2 ← deref KMovement m movement2;
        if (F32.abs (py (velocity mv1)) <? F32.of_int 10)%f32
           && (F32.abs (py (velocity mv2)) <? F32.of_int 10)%f32 then
          m ← modify KMovement movement1 (set_vel_x F32.zero) m;
          modify KMovement movement2 (set_vel_x F32.zero) m
        else Some m
      else Some m
    else Some m.

(** The camera-shake trigger of the player branches. *)
Definition trigger_shake (theCamera : N) (isHorizontal : bool) (m : t) : option t :=
  shake ← GetComponent KCameraShake m theCamera;
  m ← modify KCameraShake shake (set_isShaking true) m;
  modify KCameraShake shake (set_shake_horizontal isHorizontal) m.

(** The static–dynamic branch, horizontal axis. *)
Definition resolve_static_horizontal (entity1 entity2 col1 col2 : N) (overlap : Overlap)
    (theCamera thePlayer : N) (m : t) : option t :=
  c1 ← deref KCollision m col1;
  let dynamicEntity := if negb (isStatic c1) then entity1 else entity2 in
  let dynamicCol := if negb (isStatic c1) then col1 else col2 in
  let staticCol := if negb (isStatic c1) then col2 else col1 in
  dc ← deref KCollision m dynamicCol;
  sc ← deref KCollision m staticCol;
  let dynamicIsRight := (box_x dc >? box_x sc)%f32 in
  m ← (if dynamicIsRight then
         m ← modify KCollision dynamicCol (set_collidedLeft true) m;
         modify KCollision staticCol (set_collidedRight true) m
       else
         m ← modify KCollision dynamicCol (set_collidedRight true) m;
         modify KCollision staticCol (set_collidedLeft true) m);
  hasLocation ← HasComponent KLocation m dynamicEntity;
  if (hasLocation : bool) then
    location ← GetComponent KLocation m dynamicEntity;
    let separation :=
      if dynamicIsRight then horizontal overlap else (- horizontal overlap)%f32 in
    m ← modify KLocation location (λ l, set_pos_x (px (position l) + separation)%f32 l) m;
    m ← modify KCollision dynamicCol (λ c, set_box_x (box_x c + separation)%f32 c) m;
    hasMovement ← HasComponent KMovement m dynamicEntity;
    if (hasMovement : bool) then
      movement ← GetComponent KMovement m dynamicEntity;
      if negb (dynamicEntity =? thePlayer) then
        mv ← deref KMovement m movement;
        if (dynamicIsRight && (px (velocity mv) <? F32.of_int 0)%f32)
           || (negb dynamicIsRight && (px (velocity mv) >? F32.of_int 0)%f32) then
          modify KMovement movement
            (λ mv, set_vel_x (- px (velocity mv) * bounceDamping)%f32 mv) m
        else Some m
      else
        m ← modify KMovement movement (set_vel_x F32.zero) m;
        mv ← deref KMovement m movement;
        m ← (if (py (velocity mv) >? F32.of_int 150)%f32 then
               modify KMovement movement (set_vel_y (F32.of_int 150)) m
             else Some m);
        dc ← deref KCollision m dynamicCol;
        if negb (wasTouchingWallLast dc) then trigger_shake theCamera true m
        else Some m
    else Some m
  else Some m.

(** The static–dynamic branch, vertical axis. *)
Definition resolve_static_vertical (entity1 entity2 col1 col2 : N) (overlap : Overlap)
    (theCamera thePlayer : N) (m : t) : option t :=
  c1 ← deref KCollision m col1;
  let dynamicEntity := if negb (isStatic c1) then entity1 else entity2 in
  let dynamicCol := if negb (isStatic c1) then col1 else col2 in
  let staticCol := if negb (isStatic c1) then col2 else col1 in
  dc ← deref KCollision m dynamicCol;
  sc ← deref KCollision m staticCol;
  let dynamicIsBelow := (box_y dc >? box_y sc)%f32 in
  m ← (if dynamicIsBelow then
         m ← modify KCollision dynamicCol (set_collidedTop true) m;
         modify KCollision staticCol (set_collidedBottom true) m
       else
         m ← modify KCollision dynamicCol (set_collidedBottom true) m;
         modify KCollision staticCol (set_collidedTop true) m);
  hasLocation ← HasComponent KLocation m dynamicEntity;
  if (hasLocation : bool) then
    location ← GetComponent KLocation m dynamicEntity;
    let separation :=
      if dynamicIsBelow then vertical overlap else (- vertical overlap)%f32 in
    m ← modify KLocation location (λ l, set_pos_y (py (position l) + separation)%f32 l) m;
    m ← modify KCollision dynamicCol (λ c, set_box_y (box_y c + separation)%f32 c) m;
    hasMovement ← HasComponent KMovement m dynamicEntity;
    if (hasMovement : bool) then
      movement ← GetComponent KMovement m dynamicEntity;
      if negb (dynamicEntity =? thePlayer) then
        mv ← deref KMovement m movement;
        m ← (if (dynamicIsBelow && (py (velocity mv) <? F32.of_int 0)%f32)
                || (negb dynamicIsBelow && (py (velocity mv) >? F32.of_int 0)%f32) then
               modify KMovement movement
                 (λ mv, set_vel_y (- py (velocity mv) * bounceDamping)%f32 mv) m
             else Some m);
        mv ← deref KMovement m movement;
        if negb dynamicIsBelow && (F32.abs (py (velocity mv)) <? F32.of_int 10)%f32 then
          modify KMovement movement (set_vel_x F32.zero) m
        else Some m
      else
        mv ← deref KMovement m movement;
        m ← (if negb dynamicIsBelow && (py (velocity mv) >? F32.zero)%f32 then
               modify KMovement movement (set_vel_y F32.zero) m
             else if dynamicIsBelow && (py (velocity mv) <? F32.zero)%f32 then
               modify KMovement movement (set_vel_y F32.zero) m
             else Some m);
        dc ← deref KCollision m dynamicCol;
        if negb (wasStandingLast dc) then trigger_shake theCamera false m
        else Some m
    else Some m
  else Some m.

(** [ResolveCollision].  [col1] and [col2] are the references to the two
    collision components the caller obtained. *)
Definition ResolveCollision (entity1 entity2 col1 col2 : N) (overlap : Overlap)
    (theCamera thePlayer : N) (m : t) : option t :=
  c1 ← deref KCollision m col1;
  c2 ← deref KCollision m col2;
  (if negb (isStatic c1) then HasComponent KLocation m entity1 ≫= assert else Some ());;
  (if negb (isStatic c2) then HasComponent KLocation m entity2 ≫= assert else Some ());;
  let separateHorizontally := (horizontal overlap <? vertical overlap)%f32 in
  if negb (isStatic c1) && negb (isStatic c2) then
    resolve_dynamic_dynamic entity1 entity2 col1 col2 overlap thePlayer m
  else if separateHorizontally then
    resolve_static_horizontal entity1 entity2 col1 col2 overlap theCamera thePlayer m
  else
    resolve_static_vertical entity1 entity2 col1 col2 overlap theCamera thePlayer m.

(** ** The collision system ([CollisionSystem.h]) *)

(** The locals of [CollisionSystem] that the first loop computes. *)
Record Gathered := mkGathered {
  g_manager : t;
  theCamera : N;
  thePlayer : N;
  entities : list N;
}.

(** The body of the first loop, for one element of [mEntities]. *)
Definition gather_step (g : Gathered) (entity : Entity) : option Gathered :=
  let m := g_manager g in
  if id entity =? 0 then Some g else
  hasCollision ← HasComponent KCollision m (id entity);
  '(m, ents) ←
    (if (hasCollision : bool) then
       collision ← GetComponent KCollision m (id entity);
       m ← modify KCollision collision clearCollisions m;
       hasLocation ← HasComponent KLocation m (id entity);
       m ← (if (hasLocation : bool) then
              c ← deref KCollision m collision;
              if negb (isStatic c) || negb (boundingBoxInitialized c) then
                location ← GetComponent KLocation m (id entity);
                l ← deref KLocation m location;
                m ← modify KCollision collision
                      (λ c, set_currentBoundingBox
                              (set_topLeft (point_add (position l) (boundingBoxOffset c))
                                 (currentBoundingBox c)) c) m;
                modify KCollision collision (set_boundingBoxInitialized true) m
              else Some m
            else None);
       Some (m, push_back (entities g) (id entity))
     else Some (m, entities g));
  entityName ← GetEntityName m (id entity);
  let cam := if String.eqb entityName "main_camera" then id entity else theCamera g in
  hasInput ← HasComponent KInput m (id entity);
  let player := if (hasInput : bool) then id entity else thePlayer g in
  Some (mkGathered m cam player ents).

(** The writes of the pickup branch, before the star is destroyed:
    [score.score += 10; sprite.isAlive = false;] on the two references
    taken first. *)
Definition collect_star (thePlayer star : N) (m : t) : option t :=
  scoreRef ← GetComponent KScore m thePlayer;
  sprite ← GetComponent KSprite m star;
  sc ← deref KScore m scoreRef;
  newScore ← int_add (score sc) 10;
  m ← assign KScore scoreRef (set_score newScore sc) m;
  modify KSprite sprite (set_isAlive false) m.

(** The body of the pair loop, for [entities[i]] and [entities[j]]. *)
Definition pair_step (theCamera thePlayer : N) (entity1 entity2 : N)
    (st : t * SoundManager) : option (t * SoundManager) :=
  let '(m, sm) := st in
  if negb (ValidEntity m entity1) || negb (ValidEntity m entity2) then Some st else
  collision1 ← GetComponent KCollision m entity1;
  collision2 ← GetComponent KCollision m entity2;
  c1 ← deref KCollision m collision1;
  c2 ← deref KCollision m collision2;
  if isStatic c1 && isStatic c2 then Some st else
  if negb (RectIntersect (currentBoundingBox c1) (currentBoundingBox c2)) then Some st else
  isStar2 ← andb_lazy (Some (entity1 =? thePlayer))
               (GetEntityName m entity2 ≫= λ n, Some (String.eqb n "star"));
  star ← (if (isStar2 : bool) then Some entity2 else
            isStar1 ← andb_lazy (Some (entity2 =? thePlayer))
                        (GetEntityName m entity1 ≫= λ n, Some (String.eqb n "star"));
            Some (if (isStar1 : bool) then entity1 else 0));
  if negb (star =? 0) then
    m ← collect_star thePlayer star m;
    m ← RemoveEntity star m;
    sm ← PlaySound "sparkle" sm;
    Some (m, sm)
  else
    let overlap := CalculateOverlap (currentBoundingBox c1) (currentBoundingBox c2) in
    m ← ResolveCollision entity1 entity2 collision1 collision2 overlap
          theCamera thePlayer m;
    Some (m, sm).

(** The two nested loops over [i < j]. *)
Fixpoint pair_loop (theCamera thePlayer : N) (ents : list N)
    (st : t * SoundManager) : option (t * SoundManager) :=
  match ents with
  | [] => Some st
  | entity1 :: rest =>
      st ← for_each (λ st entity2, pair_step theCamera thePlayer entity1 entity2 st) rest st;
      pair_loop theCamera thePlayer rest st
  end.

(** The update of the player's contact history after all pairs. *)
Definition update_player_contacts (thePlayer : N) (m : t) : option t :=
  doUpdate ← andb_lazy (Some (negb (thePlayer =? 0))) (HasComponent KCollision m thePlayer);
  if (doUpdate : bool) then
    collision ← GetComponent KCollision m thePlayer;
    m ← modify KCollision collision
          (λ c, set_wasTouchingWallLast (collidedLeft c || collidedRight c) c) m;
    modify KCollision collision (λ c, set_wasStandingLast (collidedBottom c) c) m
  else Some m.

(** [CollisionSystem]. *)
Definition CollisionSystem (st : t * SoundManager) : option (t * SoundManager) :=
  let '(m, sm) := st in
  g ← for_each gather_step (mEntities m) (mkGathered m 0 0 []);
  '(m, sm) ← pair_loop (theCamera g) (thePlayer g) (entities g) (g_manager g, sm);
  m ← update_player_contacts (thePlayer g) m;
  Some (m, sm).

(** ** Gravity and movement ([GravitySystem.h], [MovementSystem.h]) *)

Definition GRAVITY : F32.float := F32.of_int 980.
Definition WALL_SLIDE_GRAVITY_MULTIPLIER : F32.float := F32.lit 3 10.

(** [std::bitset::test(pos)], which throws when [pos] is out of range. *)
Definition bitset_test (size bits pos : N) : option bool :=
  if pos <? size then Some (N.testbit bits pos) else None.

Section keyboard.
(** The scancode constants of the windowing library:
    [sf::Keyboard::ScancodeCount], [sf::Keyboard::Scan::A] and
    [sf::Keyboard::Scan::D]. *)
Variables (ScancodeCount ScanA ScanD : N).

(** The body of the loop of [GravitySystem], for one element of
    [mEntities]. *)
Definition gravity_step (deltaTime : F32.float) (m : t) (entity : Entity) : option t :=
  skip ← orb_lazy (Some (id entity =? 0))
                  (negb <$> HasComponent KMovement m (id entity));
  if (skip : bool) then Some m else
  movement ← GetComponent KMovement m (id entity);
  hasCollision ← HasComponent KCollision m (id entity);
  '(isGrounded, isWallSliding) ←
    (if (hasCollision : bool) then
       collision ← GetComponent KCollision m (id entity);
       c ← deref KCollision m collision;
       mv ← deref KMovement m movement;
       let isGrounded := collidedBottom c in
       check ← andb_lazy (Some (negb isGrounded && (py (velocity mv) >? F32.of_int 0)%f32))
                         (HasComponent KInput m (id entity));
       if (check : bool) then
         input ← GetComponent KInput m (id entity);
         i ← deref KInput m input;
         sliding ← orb_lazy
           (andb_lazy (Some (collidedLeft c)) (bitset_test ScancodeCount (keydown i) ScanA))
           (andb_lazy (Some (collidedRight c)) (bitset_test ScancodeCount (keydown i) ScanD));
         Some (isGrounded, sliding)
       else Some (isGrounded, false)
     else Some (false, false));
  if (isGrounded : bool) then Some m else
  let gravityMultiplier :=
    if (isWallSliding : bool) then WALL_SLIDE_GRAVITY_MULTIPLIER else F32.of_int 1 in
  modify KMovement movement
    (λ mv, set_vel_y (py (velocity mv) + GRAVITY * gravityMultiplier * deltaTime)%f32 mv) m.

(** [GravitySystem]. *)
Definition GravitySystem (deltaTime : F32.float) (m : t) : option t :=
  for_each (gravity_step deltaTime) (mEntities m) m.
End keyboard.

(** The body of the loop of [MovementSystem]. *)
Definition movement_step (deltaTime : F32.float) (m : t) (entity : Entity) : option t :=
  skip ← orb_lazy (Some (id entity =? 0))
            (orb_lazy (negb <$> HasComponent KLocation m (id entity))
                      (negb <$> HasComponent KMovement m (id entity)));
  if (skip : bool) then Some m else
  location ← GetComponent KLocation m (id entity);
  movement ← GetComponent KMovement m (id entity);
  mv ← deref KMovement m movement;
  m ← modify KLocation location
        (λ l, set_pos_x (px (position l) + px (velocity mv) * deltaTime)%f32 l) m;
  mv ← deref KMovement m movement;
  modify KLocation location
    (λ l, set_pos_y (py (position l) + py (velocity mv) * deltaTime)%f32 l) m.

(** [MovementSystem]. *)
Definition MovementSystem (deltaTime : F32.float) (m : t) : option t :=
  for_each (movement_step deltaTime) (mEntities m) m.

(** ** Building a registry *)

(** The calls with which a game sets its world up. *)
Inductive Command :=
  | Create (name : string)
  | Add (k : CompKind) (entity : N) (component : comp_type k)
  | Destroy (entity : N).

Definition exec_command (m : t) (c : Command) : option t :=
  match c with
  | Create name => snd <$> CreateEntity name m
  | Add k entity component => AddComponent k entity component m
  | Destroy entity => RemoveEntity entity m
  end.

Definition exec (cmds : list Command) (m : t) : option t :=
  for_each exec_command cmds m.

(** ** A small world *)

(** A concrete registry on which the statements below are run: a
    background tile, the player, the camera, a static platform, a star and
    three crates. *)
Definition pt (x y : Z) : Point2D := mkPoint2D (F32.of_int x) (F32.of_int y).

Definition body (x y w h : Z) (static : bool) : CollisionComponent :=
  mkCollision false false false false false false origin
    (mkRect (pt x y) w h) (mkRect (pt x y) w h) static true.

Definition world_script : list Command := [
  Create "sky";
  Create "player";
  Add KLocation 1 (mkLocation (pt 0 (-28)));
  Add KMovement 1 (mkMovement (pt 0 50) (F32.of_int 300));
  Add KCollision 1 (body 0 (-28) 32 32 false);
  Add KInput 1 (mkInput 0);
  Add KScore 1 (mkScore 0 [] (replicate 10 0));
  Create "main_camera";
  Add KCameraShake 2 CameraShake_init;
  Create "ground";
  Add KLocation 3 (mkLocation (pt 0 0));
  Add KCollision 3 (body 0 0 32 32 true);
  Create "star";
  Add KLocation 4 (mkLocation (pt 10 (-40)));
  Add KSprite 4 (mkSprite 7 (mkRect (pt 0 0) 32 32) true true);
  Add KCollision 4 (body 10 (-40) 32 32 false);
  Add KMovement 4 (mkMovement (pt 0 0) (F32.of_int 300));
  Create "crate";
  Add KLocation 5 (mkLocation (pt 0 (-56)));
  Add KCollision 5 (body 0 (-56) 32 32 false);
  Add KMovement 5 (mkMovement (pt 0 100) (F32.of_int 300));
  Create "barrel";
  Add KLocation 6 (mkLocation (pt 100 200));
  Add KCollision 6 (body 100 200 32 32 false);
  Add KMovement 6 (mkMovement (pt 100 0) (F32.of_int 300));
  Create "keg";
  Add KLocation 7 (mkLocation (pt 122 200));
  Add KCollision 7 (body 122 200 32 32 false);
  Add KMovement 7 (mkMovement (pt (-100) 0) (F32.of_int 300))
].

Definition world : t := default empty (exec world_script empty).

(** A second world with nothing but a background tile, the player and a
    crate that sits 4 deep on the player's head and falls at 100. *)
Definition crate_script : list Command := [
  Create "sky";
  Create "player";
  Add KLocation 1 (mkLocation (pt 0 (-28)));
  Add KMovement 1 (mkMovement (pt 0 50) (F32.of_int 300));
  Add KCollision 1 (body 0 (-28) 32 32 false);
  Add KInput 1 (mkInput 0);
  Create "crate";
  Add KLocation 2 (mkLocation (pt 0 (-56)));
  Add KMovement 2 (mkMovement (pt 0 100) (F32.of_int 300));
  Add KCollision 2 (body 0 (-56) 32 32 false)
].

Definition crate_world : t := default empty (exec crate_script empty).

Definition speakers : SoundManager :=
  mkSoundManager ({["jump"]} ∪ {["sparkle"]}) [].

(** ** Notions used in the statements *)

(** Two boxes are separated on the X axis when the right edge of one lies
    strictly left of the left edge of the other; they touch when the two
    edges compare equal.  The same on the Y axis. *)
Definition disjoint_x (r1 r2 : Rect) : Prop :=
  F32.ltb (rect_right r1) (rect_left r2) = true
  ∨ F32.ltb (rect_right r2) (rect_left r1) = true.
Definition disjoint_y (r1 r2 : Rect) : Prop :=
  F32.ltb (rect_bottom r1) (rect_top r2) = true
  ∨ F32.ltb (rect_bottom r2) (rect_top r1) = true.
Definition touching_x (r1 r2 : Rect) : Prop :=
  F32.eqb (rect_right r1) (rect_left r2) = true
  ∨ F32.eqb (rect_right r2) (rect_left r1) = true.
Definition touching_y (r1 r2 : Rect) : Prop :=
  F32.eqb (rect_bottom r1) (rect_top r2) = true
  ∨ F32.eqb (rect_bottom r2) (rect_top r1) = true.

(** The part of the registry that belongs to entities other than [e]
    survives a change from [m] to [m']. *)
Record frame (e : N) (m m' : t) : Prop := {
  frame_entities : mEntities m' = mEntities m;
  frame_valid : mValid m' = mValid m;
  frame_free : mFreeList m' = mFreeList m;
  frame_table : ∀ e' c, e' ≠ e → table_at m' e' c = table_at m e' c;
  frame_deref : ∀ e' k r, e' ≠ e → owns m e' k r → deref k m' r = deref k m r;
}.

(** The registry after [f] has been applied in place to slot [ref] of the
    storage of [k]. *)
Definition upd (k : CompKind) (ref : N) (f : comp_type k → comp_type k) (m : t) : t :=
  let s := registry k (mRegistries m) in
  set_mRegistries
    (set_registry k
       (ComponentStorage.mk (alter f (N.to_nat ref) (ComponentStorage.mStorage s))
          (ComponentStorage.mValid s) (ComponentStorage.mFreeList s)
          (ComponentStorage.mCount s))
       (mRegistries m)) m.

(** * The rest of the engine core

    The definitions below extend the embedding to more of the engine:
    the type packs behind the component indices, two more geometry
    predicates, the system that records the previous bounding boxes, the
    score display, and the public interface of the registry as a language
    of calls. *)

(** ** Type packs ([pack.h]) *)

(** A parameter pack [Args...] is the list of its types; the templates
    are functions computed by the compiler.  A [static_assert] that fails
    and a constraint that is not satisfied both reject the program: the
    result is [None].  The [int] template arguments are far from the range
    limits of [int] for any pack a compiler accepts, and are taken in [Z]. *)
Section pack.
Context {A : Type} `{!EqDecision A}.

(** [packSize<Args...>]. *)
Fixpoint packSize (args : list A) : Z :=
  match args with
  | [] => 0
  | _ :: args' => 1 + packSize args'
  end.

(** [_packIndexToType<QueryIndex, Args...>::type]: the primary template
    asserts, the specialisation for index [0] returns the head and the
    constrained one recurses on the tail. *)
Fixpoint _packIndexToType (queryIndex : Z) (args : list A) : option A :=
  match args with
  | [] => None
  | arg :: args' =>
      if (queryIndex =? 0)%Z then Some arg
      else if (0 <=? queryIndex)%Z then _packIndexToType (queryIndex - 1) args'
      else None
  end.

(** [_packTypeToIndex<Accumulated, QueryType, Args...>]; [std::is_same_v]
    is the equality test of [A]. *)
Fixpoint _packTypeToIndex (accumulated : Z) (queryType : A) (args : list A) : Z :=
  match args with
  | [] => -1
  | arg :: args' =>
      if decide (queryType = arg) then accumulated
      else _packTypeToIndex (accumulated + 1) queryType args'
  end.

Definition packTypeToIndex (queryType : A) (args : list A) : Z :=
  _packTypeToIndex 0 queryType args.

(** The members of [struct Pack]: [size], [index<QueryType>],
    [type<QueryIndex>] and [contains<QueryType>]. *)
Definition Pack_size (args : list A) : Z := packSize args.
Definition Pack_index (queryType : A) (args : list A) : Z :=
  packTypeToIndex queryType args.
Definition Pack_type (queryIndex : Z) (args : list A) : option A :=
  if (0 <=? queryIndex)%Z && (queryIndex <? Pack_size args)%Z
  then _packIndexToType queryIndex args else None.
Definition Pack_contains (queryType : A) (args : list A) : bool :=
  negb (Pack_index queryType args =? -1)%Z.
End pack.

(** ** More geometry ([MathUtil.h]) *)

Infix "<=?" := F32.leb : f32_scope.

(** [Point2D::operator-(const Point2D&)], [Point2D::Cross(Point2D)] and
    the free [operator*(float, const Point2D&)]. *)
Definition point_sub (p q : Point2D) : Point2D :=
  mkPoint2D (px p - px q)%f32 (py p - py q)%f32.
Definition Cross (this b : Point2D) : F32.float :=
  (px this * py b - py this * px b)%f32.
Definition point_scale (number : F32.float) (rhs : Point2D) : Point2D :=
  mkPoint2D (number * px rhs)%f32 (number * py rhs)%f32.

(** [Rect::IsInside]. *)
Definition IsInside (this : Rect) (p : Point2D) : bool :=
  if (px p >=? rect_right this)%f32 || (px p <=? rect_left this)%f32 then false
  else if (py p <=? rect_bottom this)%f32 || (py p >=? rect_top this)%f32 then false
  else true.

(** [struct Line] and [Line::Crosses]; the result is the returned flag
    and the value of the out-parameter [crossingPoint] after the call. *)
Record Line := mkLine { p1 : Point2D; p2 : Point2D }.

Definition Crosses (this other : Line) (crossingPoint : Point2D) : bool * Point2D :=
  let Q := point_sub (p2 this) (p1 this) in
  let P := point_sub (p2 other) (p1 other) in
  let QxP := Cross Q P in
  if F32.eqb QxP F32.zero then (false, crossingPoint) else
  let t := (Cross (point_sub (p1 other) (p1 this)) P / QxP)%f32 in
  let u := (Cross (point_sub (p1 other) (p1 this)) Q / QxP)%f32 in
  if ((t >=? F32.zero)%f32 && (t <=? F32.of_int 1)%f32)
     && ((u >=? F32.zero)%f32 && (u <=? F32.of_int 1)%f32)
  then (true, point_add (p1 this) (point_scale t Q))
  else (false, crossingPoint).

(** ** Recording the previous boxes ([CollisionSystemUpdate.h]) *)

Definition set_previousBoundingBox (r : Rect) (c : CollisionComponent) : CollisionComponent :=
  mkCollision (collidedTop c) (collidedBottom c) (collidedLeft c) (collidedRight c)
    (wasStandingLast c) (wasTouchingWallLast c) (boundingBoxOffset c)
    (currentBoundingBox c) r (isStatic c) (boundingBoxInitialized c).

(** The body of the loop of [CollisionSystemUpdate]. *)
Definition collision_update_step (m : t) (entity : Entity) : option t :=
  skip ← orb_lazy (Some (id entity =? 0))
                  (negb <$> HasComponent KCollision m (id entity));
  if (skip : bool) then Some m else
  collision ← GetComponent KCollision m (id entity);
  c ← deref KCollision m collision;
  if negb (isStatic c) || negb (boundingBoxInitialized c) then
    modify KCollision collision (λ c, set_previousBoundingBox (currentBoundingBox c) c) m
  else Some m.

(** [CollisionSystemUpdate]. *)
Definition CollisionSystemUpdate (m : t) : option t :=
  for_each collision_update_step (mEntities m) m.

(** ** The score display ([ScoreSystem.h]) *)

(** [std::min(a, b)] on [int]. *)
Definition int_min (a b : Z) : Z := if (b <? a)%Z then b else a.

Definition set_spriteID (v : N) (sp : SpriteComponent) : SpriteComponent :=
  mkSprite v (spriteRect sp) (worldSpace sp) (isAlive sp).

(** One iteration of the digit extraction, [digits.push_back(value % 10);
    value /= 10;] on [int]: both operators truncate toward zero.  The
    state is the vector and the value. *)
Definition extract_digit (st : list Z * Z) (i : N) : option (list Z * Z) :=
  Some (push_back st.1 (Z.rem st.2 10), Z.quot st.2 10).

(** One iteration of the display loop.  [scoreComp] is the reference to
    the score component, read again at each use. *)
Definition display_step (scoreComp : N) (digits : list Z) (m : t) (i : N) : option t :=
  sc ← deref KScore m scoreComp;
  displayEntity ← vec_at (displayEntities sc) i;
  if negb (ValidEntity m displayEntity) then Some m else
  hasSprite ← HasComponent KSprite m displayEntity;
  if negb hasSprite then None else
  spriteComp ← GetComponent KSprite m displayEntity;
  digit ← vec_at digits i;
  assert ((0 <=? digit)%Z && (digit <=? 9)%Z);;
  sc ← deref KScore m scoreComp;
  v ← vec_at (digitSprites sc) (Z.to_N digit);
  modify KSprite spriteComp (set_spriteID v) m.

(** The loop over the entities: the first entity with a score component
    and a display is processed, and the [break] ends the loop. *)
Fixpoint ScoreSystem_loop (ents : list Entity) (m : t) : option t :=
  match ents with
  | [] => Some m
  | entity :: rest =>
      skip ← orb_lazy (Some (id entity =? 0))
                      (negb <$> HasComponent KScore m (id entity));
      if (skip : bool) then ScoreSystem_loop rest m else
      scoreComp ← GetComponent KScore m (id entity);
      sc ← deref KScore m scoreComp;
      if bool_decide (displayEntities sc = []) then ScoreSystem_loop rest m else
      let numDigits := vec_size (displayEntities sc) in
      let value := int_min (score sc) 999 in
      st ← for_range numDigits extract_digit ([], value);
      let digits := reverse st.1 in
      for_range numDigits (display_step scoreComp digits) m
  end.

(** [ScoreSystem]. *)
Definition ScoreSystem (m : t) : option t := ScoreSystem_loop (mEntities m) m.

(** ** The interface of the registry as calls *)

(** The calls of the public interface of [EntityManager]; [CallWrite] is
    an assignment through the reference that [GetComponent] returns. *)
Inductive Call :=
  | CallCreateEntity (name : string)
  | CallRemoveEntity (entity : N)
  | CallAddComponent (k : CompKind) (entity : N) (component : comp_type k)
  | CallRemoveComponent (k : CompKind) (entity : N)
  | CallWrite (k : CompKind) (entity : N) (f : comp_type k → comp_type k).

Definition call (m : t) (c : Call) : option t :=
  match c with
  | CallCreateEntity name => snd <$> CreateEntity name m
  | CallRemoveEntity entity => RemoveEntity entity m
  | CallAddComponent k entity component => AddComponent k entity component m
  | CallRemoveComponent k entity => RemoveComponent k entity m
  | CallWrite k entity f => ref ← GetComponent k m entity; modify k ref f m
  end.

Definition calls (cs : list Call) (m : t) : option t := for_each call cs m.

(** ** More notions used in the statements *)

(** The slots of an arena are the valid ones and the free ones. *)
Definition storage_balanced {T} (s : ComponentStorage.t T) : Prop :=
  (ComponentStorage.count_valid s + length (ComponentStorage.mFreeList s)
   = length (ComponentStorage.mStorage s))%nat.

(** The component of type [k] of an entity, as a caller obtains it:
    [HasComponent] answers yes, [GetComponent] returns a reference, and
    the reference is read. *)
Definition component (k : CompKind) (m : t) (entity : N) : option (comp_type k) :=
  match HasComponent k m entity with
  | Some true => GetComponent k m entity ≫= deref k m
  | _ => None
  end.

(** The storage of [k] can grow by a slot whose index is not the
    reserved [INVALID_COMPONENT_INDEX]; a [std::vector] is always far
    smaller than that. *)
Definition storage_fits (k : CompKind) (m : t) : Prop :=
  vec_size (ComponentStorage.mStorage (registry k (mRegistries m))) < SIZE_MAX.

(** The identifiers in use and, among them, the entities that hold a
    component of type [k]. *)
Definition entity_ids (m : t) : list N := N.of_nat <$> seq 0 (length (mValid m)).
Definition holders (k : CompKind) (m : t) : list N :=
  filter (λ e, HasComponent k m e = Some true) (entity_ids m).

(** [m'] has the entities, the component table and the slots of [m]:
    only the contents of the slots may differ. *)
Record same_shape (m m' : t) : Prop := {
  shape_entities : mEntities m' = mEntities m;
  shape_valid : mValid m' = mValid m;
  shape_free : mFreeList m' = mFreeList m;
  shape_table : mEntityToComponentIdx m' = mEntityToComponentIdx m;
  shape_slots : ∀ k,
    ComponentStorage.mValid (registry k (mRegistries m'))
      = ComponentStorage.mValid (registry k (mRegistries m))
    ∧ ComponentStorage.mFreeList (registry k (mRegistries m'))
      = ComponentStorage.mFreeList (registry k (mRegistries m))
    ∧ ComponentStorage.mCount (registry k (mRegistries m'))
      = ComponentStorage.mCount (registry k (mRegistries m))
    ∧ length (ComponentStorage.mStorage (registry k (mRegistries m')))
      = length (ComponentStorage.mStorage (registry k (mRegistries m)));
}.

(** Going from [m] to [m'] wrote into components of the types [ks] and
    did nothing else. *)
Definition writes_only (ks : list CompKind) (m m' : t) : Prop :=
  same_shape m m'
  ∧ ∀ k, k ∉ ks → registry k (mRegistries m') = registry k (mRegistries m).

(** The component types [ResolveCollision] writes. *)
Definition resolution_kinds : list CompKind :=
  [KLocation; KMovement; KCollision; KCameraShake].

(** The location after a time step at the velocity of [mv]. *)
Definition moved (deltaTime : F32.float) (mv : MovementComponent)
    (l : LocationComponent) : LocationComponent :=
  mkLocation (mkPoint2D (px (position l) + px (velocity mv) * deltaTime)%f32
                        (py (position l) + py (velocity mv) * deltaTime)%f32).

(** The velocity after gravity has pulled for a time step: nothing
    changes on the ground; in the air the pull is reduced while the entity
    slides down a wall, which it does when it falls and its input pushes it
    into the wall it touches. *)
Definition falls (deltaTime multiplier : F32.float) (mv : MovementComponent)
    : MovementComponent :=
  set_vel_y (py (velocity mv) + GRAVITY * multiplier * deltaTime)%f32 mv.

Definition wall_sliding (ScanA ScanD : N) (c : CollisionComponent)
    (i : option InputComponent) (mv : MovementComponent) : bool :=
  negb (collidedBottom c) && (py (velocity mv) >? F32.of_int 0)%f32
  && match i with
     | Some i => (collidedLeft c && N.testbit (keydown i) ScanA)
                 || (collidedRight c && N.testbit (keydown i) ScanD)
     | None => false
     end.

Definition after_gravity (ScanA ScanD : N) (deltaTime : F32.float)
    (c : option CollisionComponent) (i : option InputComponent)
    (mv : MovementComponent) : MovementComponent :=
  match c with
  | Some c =>
      if collidedBottom c then mv
      else falls deltaTime
             (if wall_sliding ScanA ScanD c i mv
              then WALL_SLIDE_GRAVITY_MULTIPLIER else F32.of_int 1) mv
  | None => falls deltaTime (F32.of_int 1) mv
  end.

(** The collision component after [CollisionSystemUpdate] has seen it. *)
Definition remember_box (c : CollisionComponent) : CollisionComponent :=
  if negb (isStatic c) || negb (boundingBoxInitialized c)
  then set_previousBoundingBox (currentBoundingBox c) c else c.

(** What one iteration of each system writes: the slot and the change,
    or nothing. *)
Definition movement_effect (deltaTime : F32.float) (m : t) (e : N)
    : option (N * (LocationComponent → LocationComponent)) :=
  match HasComponent KLocation m e, HasComponent KMovement m e with
  | Some true, Some true =>
      location ← GetComponent KLocation m e;
      movement ← GetComponent KMovement m e;
      mv ← deref KMovement m movement;
      Some (location, moved deltaTime mv)
  | _, _ => None
  end.

Definition gravity_effect (ScanA ScanD : N) (deltaTime : F32.float) (m : t) (e : N)
    : option (N * (MovementComponent → MovementComponent)) :=
  match HasComponent KMovement m e with
  | Some true =>
      movement ← GetComponent KMovement m e;
      Some (movement,
            after_gravity ScanA ScanD deltaTime
              (component KCollision m e) (component KInput m e))
  | _ => None
  end.

Definition collision_update_effect (m : t) (e : N)
    : option (N * (CollisionComponent → CollisionComponent)) :=
  match HasComponent KCollision m e with
  | Some true => collision ← GetComponent KCollision m e; Some (collision, remember_box)
  | _ => None
  end.

(** What the collision system preserves, from the registry [m0] and the
    sound manager [sm0] it starts from. *)
Definition collision_inv (m0 : t) (sm0 : SoundManager) (st : t * SoundManager) : Prop :=
  wf st.1
  ∧ mSounds st.2 = mSounds sm0
  ∧ (∃ n, played st.2 = played sm0 ++ replicate n "sparkle"%string)
  ∧ (∀ e, ValidEntity st.1 e = true →
       ValidEntity m0 e = true ∧ GetEntityName st.1 e = GetEntityName m0 e)
  ∧ (∀ e, ValidEntity m0 e = true → ValidEntity st.1 e = false →
       GetEntityName m0 e = Some "star"%string).




(** The digit shown at position [i] of [n], most significant first. *)
Definition shown_digit (score : Z) (n i : nat) : Z :=
  ((Z.min score 999 / 10 ^ Z.of_nat (n - 1 - i)) mod 10)%Z.

(** A number that is a zero or not a number. *)
Definition zero_or_nan (a : F32.float) : bool :=
  match a with S754_zero _ | S754_nan => true | _ => false end.

(** ** Three more worlds *)



(** A session with the registry that uses every call. *)
Definition session : list Call := [
  CallCreateEntity "sky";
  CallCreateEntity "player";
  CallAddComponent KLocation 1 (mkLocation (pt 0 0));
  CallAddComponent KMovement 1 (mkMovement (pt 3 4) (F32.of_int 300));
  CallCreateEntity "star";
  CallAddComponent KLocation 2 (mkLocation (pt 5 5));
  CallWrite KLocation 1 (set_position (pt 1 1));
  CallRemoveComponent KMovement 1;
  CallRemoveEntity 2;
  CallCreateEntity "crate";
  CallAddComponent KLocation 2 (mkLocation (pt 7 7))
].

(** A player with a score of 70 and the three entities that display it. *)
Definition hud_script : list Command := [
  Create "sky";
  Create "player";
  Add KScore 1 (mkScore 70 [2; 3; 4] [100; 101; 102; 103; 104; 105; 106; 107; 108; 109]);
  Create "Num0";
  Add KSprite 2 (mkSprite 100 (mkRect (pt 832 832) 64 64) false true);
  Create "Num1";
  Add KSprite 3 (mkSprite 101 (mkRect (pt 832 768) 64 64) false true);
  Create "Num2";
  Add KSprite 4 (mkSprite 102 (mkRect (pt 832 704) 64 64) false true)
].

Definition hud_world : t := default empty (exec hud_script empty).

(** * Properties *)

(** ** Comparisons of binary32 numbers *)

Section f32_facts.
Import F32.

(** [a == b] implies [b >= a] and [a <= b]; [a < b] implies [a <= b]. *)
Lemma eqb_leb a b : eqb a b = true → leb a b = true.
Proof. unfold eqb, leb, SFeqb, SFleb. by destruct (SFcompare a b) as [[]|]. Qed.

Lemma ltb_leb a b : ltb a b = true → leb a b = true.
Proof. unfold ltb, leb, SFltb, SFleb. by destruct (SFcompare a b) as [[]|]. Qed.

(** Comparing in the other order mirrors the result. *)
Lemma SFcompare_antisym a b : SFcompare b a = CompOpp <$> SFcompare a b.
Proof.
  destruct a as [sa|sa| |sa ma ea], b as [sb|sb| |sb mb eb]; simpl;
    try done; try (by destruct sa); try (by destruct sb); try (by destruct sa, sb).
  destruct sa, sb; simpl; try done; rewrite (Z.compare_antisym ea eb);
    destruct (Z.compare ea eb); simpl; try done;
    by rewrite (Pos.compare_cont_antisym ma mb Eq).
Qed.

(** On numbers, [!(a >= b)] is [a < b]. *)
Lemma not_geb_ltb a b :
  is_nan a = false → is_nan b = false → geb a b = false ↔ ltb a b = true.
Proof.
  intros Ha Hb. unfold geb, ltb, SFleb, SFltb. rewrite (SFcompare_antisym a b).
  destruct (SFcompare a b) as [[]|] eqn:Hc; simpl; try done.
  by destruct a as [|[]| |], b as [|[]| |].
Qed.

Lemma ltb_asym a b : ltb a b = true → ltb b a = false.
Proof.
  unfold ltb, SFltb. rewrite (SFcompare_antisym a b).
  by destruct (SFcompare a b) as [[]|].
Qed.

End f32_facts.

(** ** Vectors *)

Section vector_facts.
Context {A : Type}.
Implicit Types (v : list A) (i : N) (x : A).

Lemma vec_at_Some v i x :
  vec_at v i = Some x ↔ v !! N.to_nat i = Some x.
Proof.
  unfold vec_at, vec_size. destruct (N.ltb_spec i (N.of_nat (length v))); [done|].
  split; [done|]. intros Hl. apply lookup_lt_Some in Hl. lia.
Qed.

Lemma vec_at_nil i : vec_at (@nil A) i = None.
Proof. unfold vec_at. by destruct (i <? vec_size []). Qed.

Lemma vec_at_lt v i x : vec_at v i = Some x → i < vec_size v.
Proof.
  unfold vec_at. by destruct (N.ltb_spec i (vec_size v)).
Qed.

Lemma vec_assign_Some v i x v' :
  vec_assign v i x = Some v' ↔ i < vec_size v ∧ v' = <[N.to_nat i := x]> v.
Proof.
  unfold vec_assign. destruct (N.ltb_spec i (vec_size v)) as [Hlt|Hge].
  - split; [by intros [= <-] | by intros [_ ->]].
  - split; [done | intros [? _]; lia].
Qed.

Lemma vec_assign_is_Some v i x y :
  vec_at v i = Some y → vec_assign v i x = Some (<[N.to_nat i := x]> v).
Proof.
  intros H%vec_at_lt%N.ltb_lt. unfold vec_assign. by rewrite H.
Qed.

Lemma vec_at_assign_eq v i x :
  i < vec_size v → vec_at (<[N.to_nat i := x]> v) i = Some x.
Proof.
  intros Hi. apply vec_at_Some, list_lookup_insert_eq.
  unfold vec_size in Hi. lia.
Qed.

Lemma vec_at_assign_ne v i j x :
  i ≠ j → vec_at (<[N.to_nat i := x]> v) j = vec_at v j.
Proof.
  intros Hne. unfold vec_at, vec_size. rewrite length_insert.
  destruct (N.ltb_spec j (N.of_nat (length v))); [|done].
  apply list_lookup_insert_ne. lia.
Qed.

Lemma vec_at_push_back_old v i x y :
  vec_at v i = Some y → vec_at (push_back v x) i = Some y.
Proof.
  rewrite !vec_at_Some. unfold push_back. intros H.
  by rewrite lookup_app_l; [|by eapply lookup_lt_Some].
Qed.

Lemma vec_at_push_back_new v x :
  vec_at (push_back v x) (vec_size v) = Some x.
Proof.
  apply vec_at_Some. unfold push_back, vec_size.
  rewrite Nat2N.id. by rewrite lookup_app_r, Nat.sub_diag.
Qed.

Lemma vec_at_push_back_ne v i x :
  i ≠ vec_size v → vec_at (push_back v x) i = vec_at v i.
Proof.
  intros Hne. unfold vec_at, vec_size, push_back in *. rewrite length_app. simpl.
  destruct (N.ltb_spec i (N.of_nat (length v))) as [Hlt|Hge].
  - rewrite (proj2 (N.ltb_lt _ _)) by lia. apply lookup_app_l. lia.
  - by rewrite (proj2 (N.ltb_ge _ _)) by lia.
Qed.

Lemma back_push_back v x : back (push_back v x) = Some x.
Proof. apply last_snoc. Qed.

Lemma pop_back_push_back v x : pop_back (push_back v x) = v.
Proof. apply removelast_last. Qed.

Lemma back_None v : back v = None → v = [].
Proof. apply last_None. Qed.

Lemma back_Some v x : back v = Some x → v = push_back (pop_back v) x.
Proof.
  unfold back, push_back, pop_back. intros H.
  destruct (last_Some v x) as [[l' ->] _]; [done|].
  by rewrite removelast_last.
Qed.
End vector_facts.

(** ** Component storage *)

Section storage_facts.
Import ComponentStorage.
Context {T : Type} `{!ValueInit T}.
Implicit Types (s : t T) (id : N).

Lemma trues_set (l : list bool) (i : nat) :
  l !! i = Some false → trues (<[i:=true]> l) = S (trues l).
Proof.
  revert i. induction l as [|b l IH]; intros [|i] Hi; simplify_eq/=; [done|].
  rewrite (IH i Hi). lia.
Qed.

Lemma trues_clear (l : list bool) (i : nat) :
  l !! i = Some true → S (trues (<[i:=false]> l)) = trues l.
Proof.
  revert i. induction l as [|b l IH]; intros [|i] Hi; simplify_eq/=; [done|].
  rewrite <- (IH i Hi). lia.
Qed.

Lemma trues_push_back (l : list bool) : trues (push_back l true) = S (trues l).
Proof.
  unfold push_back. induction l as [|b l IH]; simpl; [done|]. rewrite IH. lia.
Qed.

Lemma storage_valid_spec s id : valid s id = true ↔ vec_at (mValid s) id = Some true.
Proof.
  unfold valid, vec_at. destruct (N.ltb_spec id (vec_size (mValid s))); simpl.
  - destruct (mValid s !! N.to_nat id) as [[]|]; naive_solver.
  - naive_solver.
Qed.

Lemma size_wrap_succ n : size_incr (size_wrap n) = size_wrap (n + 1).
Proof.
  unfold size_incr, size_wrap. by rewrite N.Div0.add_mod_idemp_l.
Qed.

Lemma size_wrap_pred n : size_decr (size_wrap (n + 1)) = size_wrap n.
Proof.
  unfold size_decr, size_wrap. rewrite N.Div0.add_mod_idemp_l.
  replace (n + 1 + SIZE_MAX) with (n + 1 * (SIZE_MAX + 1)) by lia.
  by rewrite N.Div0.mod_add.
Qed.

Lemma storage_wf_empty : wf (T:=T) empty.
Proof.
  split; simpl; [done|constructor|by intros ? ?%elem_of_nil|done].
Qed.

(** [store] cannot fail on a well-formed storage: it returns a slot that
    was not valid, and exactly one more slot is valid afterwards. *)
Lemma storage_store_wf s value :
  wf s →
  ∃ id s', store value s = Some (id, s') ∧ wf s'
    ∧ valid s id = false ∧ valid s' id = true
    ∧ count_valid s' = S (count_valid s)
    ∧ (∀ j, j ≠ id → valid s' j = valid s j)
    ∧ vec_at (mStorage s') id = Some value
    ∧ (∀ j, j ≠ id → vec_at (mStorage s') j = vec_at (mStorage s) j).
Proof.
  intros [Hlen Hnd Hfree Hcnt]. unfold store.
  destruct (back (mFreeList s)) as [id|] eqn:Hback.
  - apply back_Some in Hback. set (fl := pop_back (mFreeList s)) in *.
    assert (Hid : vec_at (mValid s) id = Some false).
    { apply Hfree. rewrite Hback. unfold push_back. set_solver. }
    assert (Hlt : id < vec_size (mStorage s)).
    { apply vec_at_lt in Hid. unfold vec_size in *. lia. }
    rewrite (proj2 (vec_assign_Some (mStorage s) id value _)) by done.
    rewrite (vec_assign_is_Some _ _ _ _ Hid). simpl.
    eexists _, _. split; [done|].
    assert (Hv' : vec_at (<[N.to_nat id:=true]> (mValid s)) id = Some true).
    { apply vec_at_assign_eq. by eapply vec_at_lt. }
    rewrite Hback in Hnd. apply NoDup_app in Hnd as (Hnd & Hnotin & _).
    split; [split; simpl|].
    + by rewrite !length_insert.
    + done.
    + intros j Hj. rewrite vec_at_assign_ne.
      * apply Hfree. rewrite Hback. unfold push_back. set_solver.
      * intros ->. apply (Hnotin j Hj). set_solver.
    + rewrite Hcnt, size_wrap_succ. unfold count_valid. simpl.
      rewrite trues_set by by apply vec_at_Some. f_equal. lia.
    + repeat split.
      * apply not_true_is_false. rewrite storage_valid_spec. congruence.
      * by apply storage_valid_spec.
      * unfold count_valid. simpl. apply trues_set. by apply vec_at_Some.
      * intros j Hj. apply eq_true_iff_eq. rewrite !storage_valid_spec. simpl.
        by rewrite vec_at_assign_ne.
      * simpl. by apply vec_at_assign_eq.
      * intros j Hj. simpl. by apply vec_at_assign_ne.
  - apply back_None in Hback. eexists _, _. split; [done|].
    assert (Hnew : vec_at (mValid s) (vec_size (mStorage s)) = None).
    { unfold vec_at, vec_size. rewrite Hlen.
      by destruct (N.ltb_spec (N.of_nat (length (mValid s)))
                     (N.of_nat (length (mValid s)))); [lia|]. }
    split; [split; simpl|].
    + unfold push_back. rewrite !length_app. simpl. lia.
    + by rewrite Hback; constructor.
    + rewrite Hback. by intros ? ?%elem_of_nil.
    + rewrite Hcnt, size_wrap_succ. unfold count_valid. simpl.
      rewrite trues_push_back. f_equal. lia.
    + repeat split.
      * apply not_true_is_false. rewrite storage_valid_spec. congruence.
      * apply storage_valid_spec. simpl. unfold vec_size. rewrite Hlen.
        apply vec_at_push_back_new.
      * unfold count_valid. simpl. apply trues_push_back.
      * intros j Hj. apply eq_true_iff_eq. rewrite !storage_valid_spec. simpl.
        rewrite !vec_at_Some. unfold push_back.
        destruct (decide (N.to_nat j < length (mValid s))%nat) as [Hlt|Hge].
        -- by rewrite lookup_app_l.
        -- rewrite lookup_app_r by lia.
           rewrite (lookup_ge_None_2 (mValid s)) by lia.
           destruct (N.to_nat j - length (mValid s))%nat as [|k] eqn:Hk; [|done].
           exfalso. apply Hj. unfold vec_size. lia.
      * simpl. apply vec_at_push_back_new.
      * intros j Hj. simpl. by apply vec_at_push_back_ne.
Qed.

(** [remove] succeeds exactly on a valid slot of a well-formed storage,
    and exactly one slot fewer is valid afterwards. *)
Lemma storage_remove_wf s id :
  wf s → valid s id = true →
  ∃ s', remove id s = Some s' ∧ wf s'
    ∧ valid s' id = false
    ∧ S (count_valid s') = count_valid s
    ∧ (∀ j, j ≠ id → valid s' j = valid s j)
    ∧ (∀ j, j ≠ id → vec_at (mStorage s') j = vec_at (mStorage s) j).
Proof.
  intros [Hlen Hnd Hfree Hcnt] Hvalid. unfold remove. rewrite Hvalid. simpl.
  apply storage_valid_spec in Hvalid.
  assert (Hlt : id < vec_size (mStorage s)).
  { apply vec_at_lt in Hvalid. unfold vec_size in *. lia. }
  rewrite (vec_assign_is_Some _ _ _ _ Hvalid). simpl.
  rewrite (proj2 (vec_assign_Some (mStorage s) id value_init _)) by done. simpl.
  eexists. split; [done|].
  assert (Hcv : S (trues (<[N.to_nat id:=false]> (mValid s))) = trues (mValid s)).
  { apply trues_clear. by apply vec_at_Some. }
  assert (Hv' : vec_at (<[N.to_nat id:=false]> (mValid s)) id = Some false).
  { apply vec_at_assign_eq. by eapply vec_at_lt. }
  split; [split; simpl|].
  - by rewrite !length_insert.
  - unfold push_back. apply NoDup_app. split_and!; [done| |apply NoDup_singleton].
    intros j Hj ->%list_elem_of_singleton. apply Hfree in Hj. congruence.
  - unfold push_back. intros j [Hj| ->%list_elem_of_singleton]%elem_of_app; [|done].
    destruct (decide (id = j)) as [->|Hne]; [done|].
    rewrite vec_at_assign_ne by done. by apply Hfree.
  - rewrite Hcnt. unfold count_valid in *. simpl. rewrite <- Hcv.
    replace (N.of_nat (S (trues (<[N.to_nat id:=false]> (mValid s)))))
      with (N.of_nat (trues (<[N.to_nat id:=false]> (mValid s))) + 1) by lia.
    apply size_wrap_pred.
  - repeat split.
    + apply not_true_is_false. rewrite storage_valid_spec. simpl. congruence.
    + done.
    + intros j Hj. apply eq_true_iff_eq. rewrite !storage_valid_spec. simpl.
      by rewrite vec_at_assign_ne.
    + intros j Hj. simpl. by apply vec_at_assign_ne.
Qed.

Lemma storage_remove_Some_valid s id s' : remove id s = Some s' → valid s id = true.
Proof. unfold remove. by destruct (valid s id). Qed.

(** On a well-formed storage the only call that can fail is a [remove]
    of a slot that is not valid. *)
Lemma storage_step_None s o :
  wf s → step s o = None ↔ ∃ id, o = Remove id ∧ valid s id = false.
Proof.
  intros Hwf. destruct o as [value|id]; simpl.
  - destruct (storage_store_wf s value Hwf) as (id & s' & -> & _).
    split; [done|]. by intros (? & ? & _).
  - split.
    + intros Hnone. exists id. split; [done|].
      destruct (valid s id) eqn:Hv; [|done].
      destruct (storage_remove_wf s id Hwf Hv) as (s' & Hs' & _). congruence.
    + intros (? & [= <-] & Hv). unfold remove. by rewrite Hv.
Qed.

Lemma storage_step_wf s o s' :
  wf s → step s o = Some s' →
  wf s' ∧ (count_valid s' + (if is_store o then 0 else 1)
           = count_valid s + (if is_store o then 1 else 0))%nat.
Proof.
  intros Hwf. destruct o as [value|id]; simpl.
  - destruct (storage_store_wf s value Hwf) as (id & s1 & -> & Hwf1 & _ & _ & Hc & _).
    intros [= <-]. split; [done|lia].
  - intros Hrm. pose proof (storage_remove_Some_valid _ _ _ Hrm) as Hv.
    destruct (storage_remove_wf s id Hwf Hv) as (s1 & Hs1 & Hwf1 & _ & Hc & _).
    simplify_eq. split; [done|lia].
Qed.

Lemma storage_run_app (ops1 ops2 : list (op T)) s : run (ops1 ++ ops2) s = run ops1 s ≫= run ops2.
Proof.
  revert s. induction ops1 as [|o ops1 IH]; intros s; simpl; [done|].
  destruct (step s o) as [s'|]; simpl; [apply IH|done].
Qed.

Lemma storage_run_wf (ops : list (op T)) s s' :
  wf s → run ops s = Some s' →
  wf s' ∧ (count_valid s' + removes ops = count_valid s + stores ops)%nat.
Proof.
  revert s. induction ops as [|o ops IH]; intros s Hwf; simpl.
  - intros [= <-]. split; [done|lia].
  - destruct (step s o) as [s1|] eqn:Hstep; simpl; [|done].
    intros Hrun. destruct (storage_step_wf _ _ _ Hwf Hstep) as [Hwf1 Hc1].
    destruct (IH _ Hwf1 Hrun) as [Hwf' Hc']. split; [done|].
    destruct (is_store o); lia.
Qed.

Lemma stores_app (ops1 ops2 : list (op T)) : stores (ops1 ++ ops2) = (stores ops1 + stores ops2)%nat.
Proof. induction ops1 as [|o ops1 IH]; simpl; [done|]. rewrite IH. lia. Qed.

(** ** C8: the element count of a storage *)

(** C8.  Take any run of [store] and [remove] calls on a fresh storage in
    which every call passes its assertion (each [remove] targets a slot
    that is valid at that moment, so none is removed twice), with fewer
    than [2^64] stores, the range of [size_t].  At every point of the
    run (after every prefix [ops1]), with [n] stores and [m] removes so
    far: [m ≤ n], [size()] is [n - m], and [size()] is the number of
    slots whose validity marker is set. *)
Theorem size_is_stores_minus_removes (ops1 ops2 : list (op T)) (s : t T) :
  run (ops1 ++ ops2) empty = Some s →
  N.of_nat (stores (ops1 ++ ops2)) ≤ SIZE_MAX →
  ∃ s1, run ops1 empty = Some s1
    ∧ (removes ops1 ≤ stores ops1)%nat
    ∧ size s1 = N.of_nat (stores ops1 - removes ops1)
    ∧ size s1 = N.of_nat (count_valid s1).
Proof.
  rewrite storage_run_app, stores_app. intros Hrun Hbound.
  destruct (run ops1 empty) as [s1|] eqn:Hrun1; [|done].
  exists s1. split; [done|].
  destruct (storage_run_wf _ _ _ storage_wf_empty Hrun1) as [Hwf Hc].
  change (count_valid empty) with 0%nat in Hc.
  assert (count_valid s1 = stores ops1 - removes ops1)%nat as Hcv by lia.
  assert (size s1 = N.of_nat (count_valid s1)) as Hsz.
  { unfold size. rewrite (wf_count _ Hwf). unfold size_wrap.
    apply N.mod_small. lia. }
  split_and!; [lia| |done]. by rewrite Hsz, Hcv.
Qed.
End storage_facts.

(** C8: two stores and a remove, followed by one more store. *)
Lemma two_stores_one_remove :
  ∃ s1,
    ComponentStorage.run
      [ComponentStorage.Store (mkLocation (pt 1 1));
       ComponentStorage.Store (mkLocation (pt 2 2));
       ComponentStorage.Remove 0] ComponentStorage.empty = Some s1
    ∧ (1 ≤ 2)%nat
    ∧ ComponentStorage.size s1 = 1
    ∧ ComponentStorage.size s1 = N.of_nat (ComponentStorage.count_valid s1).
Proof.
  eapply (size_is_stores_minus_removes
            [ComponentStorage.Store (mkLocation (pt 1 1));
             ComponentStorage.Store (mkLocation (pt 2 2));
             ComponentStorage.Remove 0]
            [ComponentStorage.Store (mkLocation (pt 3 3))]).
  - by vm_compute.
  - by vm_compute.
Defined.

(** ** The registry tuple *)

Lemma registry_set_eq k s r : registry k (set_registry k s r) = s.
Proof. by destruct k. Qed.

Lemma registry_set_ne k k' s r : k ≠ k' → registry k' (set_registry k s r) = registry k' r.
Proof. by destruct k, k'. Qed.

Lemma COMP_TYPE_ID_inj k k' : COMP_TYPE_ID k = COMP_TYPE_ID k' → k = k'.
Proof. by destruct k, k'. Qed.

Lemma COMP_TYPE_ID_lt k : COMP_TYPE_ID k < NUM_COMPONENTS.
Proof. by destruct k. Qed.

(** ** The entity registry *)

Lemma ValidEntity_spec m e : ValidEntity m e = true ↔ vec_at (mValid m) e = Some true.
Proof.
  unfold ValidEntity, vec_at. destruct (N.ltb_spec e (vec_size (mValid m))); simpl.
  - destruct (mValid m !! N.to_nat e) as [[]|]; split; by intros.
  - split; by intros.
Qed.

Lemma ValidEntity_false m e :
  ValidEntity m e = false ↔ vec_at (mValid m) e ≠ Some true.
Proof. rewrite <- ValidEntity_spec. by destruct (ValidEntity m e). Qed.

(** *** The component index table *)

Lemma table_at_Some m e c slot :
  table_at m e c = Some slot ↔
  ∃ row, vec_at (mEntityToComponentIdx m) e = Some row ∧ vec_at row c = Some slot.
Proof.
  unfold table_at. destruct (vec_at (mEntityToComponentIdx m) e) as [row|]; simpl.
  - split; [by exists row|by intros (? & [= <-] & ?)].
  - split; [done|by intros (? & ? & ?)].
Qed.

(** A valid entity of a well-formed registry has a cell for every
    component type. *)
Lemma table_at_is_Some m e k :
  wf m → ValidEntity m e = true → ∃ slot, table_at m e (COMP_TYPE_ID k) = Some slot.
Proof.
  intros Hwf Hv%ValidEntity_spec.
  assert (Hlt : e < vec_size (mEntityToComponentIdx m)).
  { apply vec_at_lt in Hv. unfold vec_size in *. rewrite (wf_table_length _ Hwf). done. }
  destruct (mEntityToComponentIdx m !! N.to_nat e) as [row|] eqn:Hrow.
  - apply vec_at_Some in Hrow. pose proof (wf_row_length _ Hwf _ _ Hrow) as Hlen.
    destruct (row !! N.to_nat (COMP_TYPE_ID k)) as [slot|] eqn:Hslot.
    + exists slot. apply table_at_Some. exists row.
      split; [done|by apply vec_at_Some].
    + apply lookup_ge_None in Hslot. pose proof (COMP_TYPE_ID_lt k).
      unfold vec_size in Hlen. lia.
  - apply lookup_ge_None in Hrow. unfold vec_size in Hlt. lia.
Qed.

(** Writing a cell that exists succeeds and changes that cell only. *)
Lemma table_assign_spec m e c v old :
  table_at m e c = Some old →
  ∃ m', table_assign e c v m = Some m'
    ∧ mEntities m' = mEntities m ∧ mRegistries m' = mRegistries m
    ∧ mFreeList m' = mFreeList m ∧ mValid m' = mValid m
    ∧ length (mEntityToComponentIdx m') = length (mEntityToComponentIdx m)
    ∧ (∀ e' row', vec_at (mEntityToComponentIdx m') e' = Some row' →
         ∃ row, vec_at (mEntityToComponentIdx m) e' = Some row
                ∧ vec_size row' = vec_size row)
    ∧ (∀ e' c', table_at m' e' c' =
         if decide (e' = e ∧ c' = c) then Some v else table_at m e' c').
Proof.
  intros (row & Hrow & Hcell)%table_at_Some. unfold table_assign.
  rewrite Hrow. simpl. rewrite (vec_assign_is_Some _ _ _ _ Hcell). simpl.
  rewrite (vec_assign_is_Some _ _ _ _ Hrow). simpl.
  eexists. split; [done|]. simpl. split_and!; try done.
  - by rewrite length_insert.
  - intros e' row'. destruct (decide (e = e')) as [<-|Hne].
    + rewrite vec_at_assign_eq by by eapply vec_at_lt. intros [= <-].
      exists row. split; [done|]. unfold vec_size. by rewrite length_insert.
    + rewrite vec_at_assign_ne by done. intros H. exists row'. done.
  - intros e' c'. unfold table_at at 1. simpl.
    destruct (decide (e = e')) as [<-|Hne].
    + rewrite vec_at_assign_eq by by eapply vec_at_lt. simpl.
      destruct (decide (c = c')) as [<-|Hnc].
      * rewrite vec_at_assign_eq by by eapply vec_at_lt.
        by rewrite decide_True.
      * rewrite vec_at_assign_ne by done. rewrite decide_False by (by intros [_ ->]).
        unfold table_at. by rewrite Hrow.
    + rewrite vec_at_assign_ne by done. by rewrite decide_False by (by intros [-> _]).
Qed.

Lemma find_kind k : find (λ k', COMP_TYPE_ID k' =? COMP_TYPE_ID k) all_kinds = Some k.
Proof. by destruct k. Qed.

Lemma kinds_range : N.of_nat <$> seq 0 (N.to_nat NUM_COMPONENTS) = COMP_TYPE_ID <$> all_kinds.
Proof. reflexivity. Qed.

Lemma owns_valid_entity m e k slot : wf m → owns m e k slot → ValidEntity m e = true.
Proof.
  intros Hwf [Hat Hne]. destruct (ValidEntity m e) eqn:Hv; [done|].
  pose proof Hat as (row & Hrow & _)%table_at_Some.
  assert (vec_at (mValid m) e = Some false) as Hdead.
  { apply vec_at_lt in Hrow. unfold vec_size in Hrow.
    rewrite (wf_table_length _ Hwf) in Hrow.
    apply ValidEntity_false in Hv. rewrite vec_at_Some in *.
    destruct (mValid m !! N.to_nat e) as [[]|] eqn:Hl; [done|done|].
    apply lookup_ge_None in Hl. lia. }
  rewrite (wf_dead_row _ Hwf e k Hdead) in Hat. congruence.
Qed.

(** *** The component loop of [RemoveEntity] *)

Lemma frame_refl e m : frame e m m.
Proof. by split. Qed.

Lemma frame_trans e m1 m2 m3 : frame e m1 m2 → frame e m2 m3 → frame e m1 m3.
Proof.
  intros [He1 Hv1 Hf1 Ht1 Hd1] [He2 Hv2 Hf2 Ht2 Hd2]. split; try congruence.
  - intros e' c Hne. by rewrite Ht2, Ht1.
  - intros e' k r Hne [Hat Hr].
    rewrite (Hd2 e' k r Hne), (Hd1 e' k r Hne); try done.
    split; [|done]. by rewrite Ht1.
Qed.

Lemma RemoveEntity_step_spec m e k :
  wf m → ValidEntity m e = true →
  ∃ m', RemoveEntity_step e m (COMP_TYPE_ID k) = Some m'
    ∧ wf m' ∧ frame e m m'
    ∧ table_at m' e (COMP_TYPE_ID k) = Some INVALID_COMPONENT_INDEX
    ∧ (∀ k', k' ≠ k → table_at m' e (COMP_TYPE_ID k') = table_at m e (COMP_TYPE_ID k')).
Proof.
  intros Hwf Hv. destruct (table_at_is_Some m e k Hwf Hv) as [slot Hslot].
  unfold RemoveEntity_step. rewrite Hslot. simpl.
  destruct (decide (slot ≠ INVALID_COMPONENT_INDEX)) as [Hne|Heq%dec_stable].
  - assert (Howns : owns m e k slot) by done.
    pose proof (wf_slot_valid _ Hwf _ _ _ Howns) as Hval.
    destruct (storage_remove_wf _ _ (wf_storage _ Hwf k) Hval)
      as (s' & Hrm & Hwfs & Hinv & _ & Hvalid' & Hcontent).
    unfold RemoveComponentByIndex. rewrite find_kind, Hrm. simpl.
    set (m1 := set_mRegistries _ m).
    destruct (table_assign_spec m1 e (COMP_TYPE_ID k) INVALID_COMPONENT_INDEX slot Hslot)
      as (m' & -> & Hents & Hregs & Hfree & Hvl & Hlen & Hrows & Htab).
    exists m'. split; [done|].
    assert (Hown' : ∀ e' k' r, owns m' e' k' r → owns m e' k' r ∧ (e' ≠ e ∨ k' ≠ k)).
    { intros e' k' r [Hat Hr]. rewrite Htab in Hat. case_decide as Hd.
      - congruence.
      - split; [done|]. destruct (decide (e' = e)) as [->|]; [|by left].
        right. intros ->. by apply Hd. }
    split_and!.
    + split.
      * by rewrite Hents, Hvl; apply (wf_entities_length _ Hwf).
      * by rewrite Hlen, Hvl; apply (wf_table_length _ Hwf).
      * intros e' row' Hrow'. destruct (Hrows _ _ Hrow') as (row & Hrow & ->).
        by apply (wf_row_length _ Hwf e').
      * rewrite Hfree. apply (wf_free_NoDup _ Hwf).
      * rewrite Hfree, Hvl. apply (wf_free_invalid _ Hwf).
      * intros e' k'. rewrite Hvl, Htab. intros Hdead. case_decide; [done|].
        by apply (wf_dead_row _ Hwf).
      * intros e' ent. rewrite Hents. unfold ValidEntity. rewrite Hvl.
        apply (wf_entity_id _ Hwf).
      * intros e' k' r Ho. destruct (Hown' _ _ _ Ho) as [Ho' Hd]. rewrite Hregs.
        unfold m1. simpl. destruct (decide (k = k')) as [<-|Hk].
        -- rewrite registry_set_eq. rewrite Hvalid'; [by eapply wf_slot_valid|].
           intros ->. destruct Hd as [Hd|Hd]; [|done].
           apply Hd. by eapply wf_slot_inj.
        -- rewrite registry_set_ne by done. by eapply wf_slot_valid.
      * intros e1 e2 k' r [Ho1 _]%Hown' [Ho2 _]%Hown'. by eapply wf_slot_inj.
      * intros k'. rewrite Hregs. unfold m1. simpl.
        destruct (decide (k = k')) as [<-|Hk].
        -- by rewrite registry_set_eq.
        -- rewrite registry_set_ne by done. apply (wf_storage _ Hwf).
    + split; try done.
      * intros e' c Hne'. rewrite Htab. by rewrite decide_False by (by intros [-> _]).
      * intros e' k' r Hne' Ho. unfold deref. rewrite Hregs. unfold m1. simpl.
        destruct (decide (k = k')) as [<-|Hk].
        -- rewrite registry_set_eq. apply Hcontent. intros ->.
           apply Hne'. by eapply wf_slot_inj.
        -- by rewrite registry_set_ne.
    + rewrite Htab. by rewrite decide_True.
    + intros k' Hk. rewrite Htab. rewrite decide_False; [done|].
      intros [_ Hid%COMP_TYPE_ID_inj]. done.
  - exists m. split_and!; [done|done|apply frame_refl|by rewrite Hslot, Heq|done].
Qed.

Lemma for_each_fmap {S A B} (body : S → B → option S) (f : A → B) (l : list A) (s : S) :
  for_each body (f <$> l) s = for_each (λ s' x, body s' (f x)) l s.
Proof.
  revert s. induction l as [|x l IH]; intros s; simpl; [done|].
  destruct (body s (f x)); simpl; [apply IH|done].
Qed.

Lemma RemoveEntity_loop_spec m e (ks : list CompKind) :
  wf m → ValidEntity m e = true →
  ∃ m', for_each (λ m' k, RemoveEntity_step e m' (COMP_TYPE_ID k)) ks m = Some m'
    ∧ wf m' ∧ frame e m m'
    ∧ (∀ k, k ∈ ks → table_at m' e (COMP_TYPE_ID k) = Some INVALID_COMPONENT_INDEX)
    ∧ (∀ k, k ∉ ks → table_at m' e (COMP_TYPE_ID k) = table_at m e (COMP_TYPE_ID k)).
Proof.
  revert m. induction ks as [|k ks IH]; intros m Hwf Hv; simpl.
  - exists m. split_and!; [done|done|apply frame_refl| |done].
    by intros k ?%elem_of_nil.
  - destruct (RemoveEntity_step_spec m e k Hwf Hv) as (m1 & -> & Hwf1 & Hfr1 & Hk & Hother).
    simpl. assert (Hv1 : ValidEntity m1 e = true).
    { unfold ValidEntity in *. by rewrite (frame_valid _ _ _ Hfr1). }
    destruct (IH m1 Hwf1 Hv1) as (m' & -> & Hwf' & Hfr' & Hin & Hout).
    exists m'. split_and!; [done|done|by eapply frame_trans| |].
    + intros k0 Hk0. destruct (decide (k0 ∈ ks)) as [?|Hnotin]; [by apply Hin|].
      apply elem_of_cons in Hk0 as [->|?]; [|done]. by rewrite Hout.
    + intros k0 Hk0. apply not_elem_of_cons in Hk0 as [Hne Hnotin].
      rewrite Hout by done. by apply Hother.
Qed.

Lemma elem_of_all_kinds k : k ∈ all_kinds.
Proof. destruct k; unfold all_kinds; set_solver. Qed.

(** [RemoveEntity] of a valid entity of a well-formed registry succeeds:
    the entity becomes invalid, its identifier is the next to be reused, and
    nothing that belongs to another entity changes. *)
Lemma RemoveEntity_spec m e :
  wf m → ValidEntity m e = true →
  ∃ m', RemoveEntity e m = Some m' ∧ wf m'
    ∧ ValidEntity m' e = false
    ∧ back (mFreeList m') = Some e
    ∧ (∀ e', e' ≠ e → ValidEntity m' e' = ValidEntity m e')
    ∧ (∀ e', e' ≠ e → vec_at (mEntities m') e' = vec_at (mEntities m) e')
    ∧ (∀ e' c, e' ≠ e → table_at m' e' c = table_at m e' c)
    ∧ (∀ e' k r, e' ≠ e → owns m e' k r → deref k m' r = deref k m r).
Proof.
  intros Hwf Hv. unfold RemoveEntity, for_range.
  rewrite Hv, kinds_range, for_each_fmap. cbn [negb].
  destruct (RemoveEntity_loop_spec m e all_kinds Hwf Hv)
    as (m1 & -> & Hwf1 & [Hents Hvl Hfree Htab Hderef] & Hin & _). simpl.
  pose proof Hv as Hve%ValidEntity_spec.
  assert (Hlt : e < vec_size (mEntities m1)).
  { apply vec_at_lt in Hve. unfold vec_size in *.
    rewrite Hents, (wf_entities_length _ Hwf). done. }
  rewrite (proj2 (vec_assign_Some (mEntities m1) e _ _)) by done. simpl.
  rewrite Hvl, (vec_assign_is_Some _ _ _ _ Hve). simpl.
  eexists. split; [done|].
  assert (Hvalid' : ∀ e', e' ≠ e →
            vec_at (<[N.to_nat e:=false]> (mValid m)) e' = vec_at (mValid m) e').
  { intros e' Hne. by apply vec_at_assign_ne. }
  assert (Hdead : vec_at (<[N.to_nat e:=false]> (mValid m)) e = Some false).
  { apply vec_at_assign_eq. by eapply vec_at_lt. }
  split_and!.
  - split; simpl.
    + rewrite !length_insert, Hents. apply (wf_entities_length _ Hwf).
    + rewrite length_insert, <- Hvl. apply (wf_table_length _ Hwf1).
    + apply (wf_row_length _ Hwf1).
    + unfold push_back. apply NoDup_app. split_and!.
      * apply (wf_free_NoDup _ Hwf1).
      * intros e' He' ->%list_elem_of_singleton.
        apply (wf_free_invalid _ Hwf1) in He'. rewrite Hvl in He'. congruence.
      * apply NoDup_singleton.
    + unfold push_back. intros e' [He'| ->%list_elem_of_singleton]%elem_of_app; [|done].
      destruct (decide (e' = e)) as [->|Hne]; [done|]. rewrite Hvalid' by done.
      rewrite <- Hvl. by apply (wf_free_invalid _ Hwf1).
    + intros e' k. destruct (decide (e' = e)) as [->|Hne].
      * intros _. apply Hin, elem_of_all_kinds.
      * rewrite Hvalid' by done. rewrite <- Hvl. apply (wf_dead_row _ Hwf1).
    + intros e' ent. unfold ValidEntity. simpl.
      destruct (decide (e' = e)) as [->|Hne].
      * rewrite vec_at_assign_eq by done. intros [= <-]. simpl.
        rewrite Hdead. simpl. by rewrite andb_false_r.
      * rewrite vec_at_assign_ne by done. rewrite Hvalid' by done.
        unfold vec_size. rewrite length_insert. intros Hent.
        pose proof (wf_entity_id _ Hwf1 e' ent Hent) as Hid.
        unfold ValidEntity, vec_size in Hid. by rewrite Hvl in Hid.
    + intros e' k r Ho. by apply (wf_slot_valid _ Hwf1 e').
    + intros e1 e2 k r Ho1 Ho2. by apply (wf_slot_inj _ Hwf1 e1 e2 k r).
    + apply (wf_storage _ Hwf1).
  - unfold ValidEntity. simpl. rewrite Hdead. simpl. apply andb_false_r.
  - simpl. apply back_push_back.
  - intros e' Hne. unfold ValidEntity, vec_size. simpl.
    by rewrite length_insert, Hvalid'.
  - intros e' Hne. simpl. rewrite vec_at_assign_ne by done. by rewrite Hents.
  - intros e' c Hne. by rewrite <- (Htab e' c Hne).
  - intros e' k r Hne Ho. by rewrite <- (Hderef e' k r Hne Ho).
Qed.

(** *** Creation *)

Lemma wf_empty : wf empty.
Proof.
  assert (Hnone : ∀ e c, table_at empty e c = None).
  { intros e c. unfold table_at. simpl. by rewrite vec_at_nil. }
  split; simpl; try done.
  - intros e row. by rewrite vec_at_nil.
  - constructor.
  - by intros e ?%elem_of_nil.
  - intros e k. by rewrite vec_at_nil.
  - intros e ent. by rewrite vec_at_nil.
  - intros e k slot [Hat _]. by rewrite Hnone in Hat.
  - intros e1 e2 k slot [Hat _]. by rewrite Hnone in Hat.
  - intros k. destruct k; apply storage_wf_empty.
Qed.

Lemma fresh_row_at k : vec_at fresh_row (COMP_TYPE_ID k) = Some INVALID_COMPONENT_INDEX.
Proof. by destruct k. Qed.

Lemma ValidEntity_eq m m' e : mValid m' = mValid m → ValidEntity m' e = ValidEntity m e.
Proof. unfold ValidEntity. by intros ->. Qed.

Lemma table_at_eq m m' e c :
  mEntityToComponentIdx m' = mEntityToComponentIdx m → table_at m' e c = table_at m e c.
Proof. unfold table_at. by intros ->. Qed.

(** [CreateEntity] succeeds on a well-formed registry.  The identifier it
    returns was not valid and is valid afterwards; it is the most recently
    freed one when there is one, and the next fresh index otherwise. *)
Lemma CreateEntity_spec name m :
  wf m →
  ∃ a m', CreateEntity name m = Some (a, m') ∧ wf m'
    ∧ ValidEntity m a = false ∧ ValidEntity m' a = true
    ∧ (∀ a0, back (mFreeList m) = Some a0 → a = a0)
    ∧ (mFreeList m = [] → a = vec_size (mValid m))
    ∧ vec_at (mEntities m') a = Some (mkEntity a name)
    ∧ (∀ k, table_at m' a (COMP_TYPE_ID k) = Some INVALID_COMPONENT_INDEX)
    ∧ (∀ e', e' ≠ a → ValidEntity m' e' = ValidEntity m e')
    ∧ mRegistries m' = mRegistries m
    ∧ (∀ e' c, e' ≠ a → table_at m' e' c = table_at m e' c).
Proof.
  intros Hwf. unfold CreateEntity.
  destruct (back (mFreeList m)) as [ret|] eqn:Hback.
  - pose proof (back_Some _ _ Hback) as Hfl.
    assert (Hdead : vec_at (mValid m) ret = Some false).
    { apply (wf_free_invalid _ Hwf). rewrite Hfl. unfold push_back. set_solver. }
    assert (Hlt : ret < vec_size (mEntities m)).
    { apply vec_at_lt in Hdead. unfold vec_size in *.
      by rewrite (wf_entities_length _ Hwf). }
    rewrite (vec_assign_is_Some _ _ _ _ Hdead). simpl.
    rewrite (proj2 (vec_assign_Some (mEntities m) ret _ _)) by done. simpl.
    eexists _, _. split; [done|].
    assert (Hlive : vec_at (<[N.to_nat ret:=true]> (mValid m)) ret = Some true).
    { apply vec_at_assign_eq. by eapply vec_at_lt. }
    pose proof (wf_free_NoDup _ Hwf) as Hnd. rewrite Hfl in Hnd.
    apply NoDup_app in Hnd as (Hnd & Hnotin & _).
    assert (Hv' : ∀ e', e' ≠ ret →
              vec_at (<[N.to_nat ret:=true]> (mValid m)) e' = vec_at (mValid m) e').
    { intros e' Hne. by apply vec_at_assign_ne. }
    split_and!.
    + split; simpl.
      * rewrite !length_insert. apply (wf_entities_length _ Hwf).
      * rewrite length_insert. apply (wf_table_length _ Hwf).
      * apply (wf_row_length _ Hwf).
      * done.
      * intros e' He'. rewrite Hv'.
        -- apply (wf_free_invalid _ Hwf). rewrite Hfl. unfold push_back. set_solver.
        -- intros ->. apply (Hnotin ret He'). set_solver.
      * intros e' k Hd. destruct (decide (e' = ret)) as [->|Hne]; [congruence|].
        rewrite Hv' in Hd by done. by apply (wf_dead_row _ Hwf).
      * intros e' ent. unfold ValidEntity, vec_size. simpl. rewrite length_insert.
        destruct (decide (e' = ret)) as [->|Hne].
        -- rewrite vec_at_assign_eq by done. intros [= <-]. simpl. rewrite Hlive. simpl.
           apply vec_at_lt in Hdead. unfold vec_size in Hdead.
           by rewrite (proj2 (N.ltb_lt _ _) Hdead).
        -- rewrite vec_at_assign_ne, Hv' by done. apply (wf_entity_id _ Hwf).
      * intros e' k r Ho. by apply (wf_slot_valid _ Hwf e').
      * intros e1 e2 k r Ho1 Ho2. by apply (wf_slot_inj _ Hwf e1 e2 k r).
      * apply (wf_storage _ Hwf).
    + apply ValidEntity_false. congruence.
    + by apply ValidEntity_spec.
    + by intros a0 [= <-].
    + intros Hnil. rewrite Hnil in Hback. done.
    + simpl. by apply vec_at_assign_eq.
    + intros k. by apply (wf_dead_row _ Hwf).
    + intros e' Hne. unfold ValidEntity, vec_size. simpl.
      by rewrite length_insert, Hv'.
    + done.
    + done.
  - apply back_None in Hback. eexists _, _. split; [done|].
    pose proof (wf_table_length _ Hwf) as Hlen.
    pose proof (wf_entities_length _ Hwf) as Hlen'.
    assert (Hsz : vec_size (mEntityToComponentIdx m) = vec_size (mValid m)).
    { unfold vec_size. by rewrite Hlen. }
    assert (Hsz' : vec_size (mEntities m) = vec_size (mValid m)).
    { unfold vec_size. by rewrite Hlen'. }
    assert (Hnew : ValidEntity (mk (push_back (mEntities m)
                     (mkEntity (vec_size (mEntityToComponentIdx m)) name))
                     (mRegistries m) (push_back (mEntityToComponentIdx m) fresh_row)
                     (mFreeList m) (push_back (mValid m) true))
                     (vec_size (mEntityToComponentIdx m)) = true).
    { apply ValidEntity_spec. simpl. rewrite Hsz. apply vec_at_push_back_new. }
    assert (Hold : ∀ e', e' ≠ vec_size (mEntityToComponentIdx m) →
              ValidEntity (mk (push_back (mEntities m)
                     (mkEntity (vec_size (mEntityToComponentIdx m)) name))
                     (mRegistries m) (push_back (mEntityToComponentIdx m) fresh_row)
                     (mFreeList m) (push_back (mValid m) true)) e' = ValidEntity m e').
    { intros e' Hne. apply eq_true_iff_eq. rewrite !ValidEntity_spec. simpl.
      rewrite vec_at_push_back_ne; [done|congruence]. }
    assert (Htab : ∀ e' c, e' ≠ vec_size (mEntityToComponentIdx m) →
              table_at (mk (push_back (mEntities m)
                     (mkEntity (vec_size (mEntityToComponentIdx m)) name))
                     (mRegistries m) (push_back (mEntityToComponentIdx m) fresh_row)
                     (mFreeList m) (push_back (mValid m) true)) e' c = table_at m e' c).
    { intros e' c Hne. unfold table_at. simpl. by rewrite vec_at_push_back_ne. }
    assert (Hrow : ∀ k,
              table_at (mk (push_back (mEntities m)
                     (mkEntity (vec_size (mEntityToComponentIdx m)) name))
                     (mRegistries m) (push_back (mEntityToComponentIdx m) fresh_row)
                     (mFreeList m) (push_back (mValid m) true))
                (vec_size (mEntityToComponentIdx m)) (COMP_TYPE_ID k)
              = Some INVALID_COMPONENT_INDEX).
    { intros k. unfold table_at. simpl. rewrite vec_at_push_back_new. simpl.
      apply fresh_row_at. }
    assert (Hown : ∀ e' k r,
              owns (mk (push_back (mEntities m)
                     (mkEntity (vec_size (mEntityToComponentIdx m)) name))
                     (mRegistries m) (push_back (mEntityToComponentIdx m) fresh_row)
                     (mFreeList m) (push_back (mValid m) true)) e' k r → owns m e' k r).
    { intros e' k r [Hat Hr].
      destruct (decide (e' = vec_size (mEntityToComponentIdx m))) as [->|Hne].
      - rewrite Hrow in Hat. congruence.
      - rewrite Htab in Hat by done. done. }
    split_and!.
    + split; simpl.
      * unfold push_back. rewrite !length_app. simpl. lia.
      * unfold push_back. rewrite !length_app. simpl. lia.
      * intros e' row.
        destruct (decide (e' = vec_size (mEntityToComponentIdx m))) as [->|Hne].
        -- rewrite vec_at_push_back_new. by intros [= <-].
        -- rewrite vec_at_push_back_ne by done. apply (wf_row_length _ Hwf).
      * apply (wf_free_NoDup _ Hwf).
      * rewrite Hback. by intros e' ?%elem_of_nil.
      * intros e' k.
        destruct (decide (e' = vec_size (mEntityToComponentIdx m))) as [->|Hne].
        -- intros _. apply Hrow.
        -- rewrite vec_at_push_back_ne by congruence. rewrite Htab by done.
           apply (wf_dead_row _ Hwf).
      * intros e' ent.
        destruct (decide (e' = vec_size (mEntityToComponentIdx m))) as [->|Hne].
        -- rewrite Hnew. rewrite Hsz, <- Hsz', vec_at_push_back_new. by intros [= <-].
        -- rewrite Hold by done. rewrite vec_at_push_back_ne by congruence.
           apply (wf_entity_id _ Hwf).
      * intros e' k r Ho%Hown. by apply (wf_slot_valid _ Hwf e').
      * intros e1 e2 k r Ho1%Hown Ho2%Hown. by apply (wf_slot_inj _ Hwf e1 e2 k r).
      * apply (wf_storage _ Hwf).
    + apply ValidEntity_false. rewrite Hsz.
      unfold vec_at. by rewrite N.ltb_irrefl.
    + done.
    + by intros a0.
    + intros _. by rewrite Hsz.
    + simpl. rewrite Hsz, <- Hsz'. apply vec_at_push_back_new.
    + done.
    + done.
    + done.
    + done.
Qed.

(** *** Adding a component *)

(** [AddComponent] keeps the registry well-formed; the entity then owns the
    component it was given, and nothing that was owned before changes. *)
Lemma AddComponent_spec k e (c : comp_type k) m m' :
  wf m → AddComponent k e c m = Some m' →
  wf m'
  ∧ (∃ slot, table_at m' e (COMP_TYPE_ID k) = Some slot
             ∧ deref k m' slot = Some c)
  ∧ (∀ e' k' r, owns m e' k' r → owns m' e' k' r ∧ deref k' m' r = deref k' m r)
  ∧ mEntities m' = mEntities m ∧ mValid m' = mValid m.
Proof.
  intros Hwf. unfold AddComponent.
  destruct (ValidEntity m e) eqn:Hv; simpl; [|done].
  destruct (table_at m e (COMP_TYPE_ID k)) as [compID|] eqn:Hat; simpl; [|done].
  case_bool_decide as Hinv; simpl; [|done]. subst compID.
  destruct (storage_store_wf (registry k (mRegistries m)) c (wf_storage _ Hwf k))
    as (new & s' & -> & Hwfs & Hnv & Hv' & _ & Hvalid & Hnew & Hcontent). simpl.
  set (m1 := set_mRegistries _ m).
  destruct (table_assign_spec m1 e (COMP_TYPE_ID k) new _ Hat)
    as (m'' & -> & Hents & Hregs & Hfree & Hvl & Hlen & Hrows & Htab).
  intros [= <-].
  assert (Hreg_k : registry k (mRegistries m'') = s').
  { rewrite Hregs. unfold m1. simpl. by rewrite registry_set_eq. }
  assert (Hreg_other : ∀ k', k ≠ k' →
            registry k' (mRegistries m'') = registry k' (mRegistries m)).
  { intros k' Hk. rewrite Hregs. unfold m1. simpl. by rewrite registry_set_ne. }
  assert (Hold : ∀ e' k' r, owns m e' k' r → owns m'' e' k' r).
  { intros e' k' r [Hat' Hr]. split; [|done]. rewrite Htab.
    rewrite decide_False; [done|]. intros [-> ->%COMP_TYPE_ID_inj].
    rewrite Hat' in Hat. by injection Hat as ->. }
  assert (Hown : ∀ e' k' r, owns m'' e' k' r →
            (e' = e ∧ k' = k ∧ r = new) ∨ owns m e' k' r).
  { intros e' k' r [Hat' Hr]. rewrite Htab in Hat'. case_decide as Hd.
    - left. destruct Hd as [-> ->%COMP_TYPE_ID_inj]. by simplify_eq.
    - by right. }
  assert (Hfresh : ∀ e' r, owns m e' k r → r ≠ new).
  { intros e' r Ho ->. pose proof (wf_slot_valid _ Hwf _ _ _ Ho). congruence. }
  split_and!; [|..|done|done].
  - split.
    + rewrite Hents, Hvl. apply (wf_entities_length _ Hwf).
    + rewrite Hlen, Hvl. apply (wf_table_length _ Hwf).
    + intros e' row' Hrow'. destruct (Hrows _ _ Hrow') as (row & Hrow & ->).
      by apply (wf_row_length _ Hwf e').
    + rewrite Hfree. apply (wf_free_NoDup _ Hwf).
    + rewrite Hfree, Hvl. apply (wf_free_invalid _ Hwf).
    + intros e' k'. rewrite Hvl, Htab. intros Hdead. rewrite decide_False.
      * by apply (wf_dead_row _ Hwf).
      * intros [-> _]. apply ValidEntity_spec in Hv. simpl in Hdead. congruence.
    + intros e' ent. rewrite Hents. unfold ValidEntity. rewrite Hvl.
      apply (wf_entity_id _ Hwf).
    + intros e' k' r [(-> & -> & ->)|Ho]%Hown.
      * by rewrite Hreg_k.
      * destruct (decide (k = k')) as [<-|Hk].
        -- rewrite Hreg_k, Hvalid; [by eapply wf_slot_valid|by eapply Hfresh].
        -- rewrite Hreg_other by done. by eapply wf_slot_valid.
    + intros e1 e2 k' r Ho1%Hown Ho2%Hown.
      destruct Ho1 as [(He1 & Hk1 & Hr1)|Ho1], Ho2 as [(He2 & Hk2 & Hr2)|Ho2].
      * congruence.
      * subst. by destruct (Hfresh _ _ Ho2).
      * subst. by destruct (Hfresh _ _ Ho1).
      * by apply (wf_slot_inj _ Hwf e1 e2 k' r).
    + intros k'. destruct (decide (k = k')) as [<-|Hk].
      * by rewrite Hreg_k.
      * rewrite Hreg_other by done. apply (wf_storage _ Hwf).
  - exists new. split.
    + rewrite Htab. by rewrite decide_True.
    + unfold deref. by rewrite Hreg_k.
  - intros e' k' r Ho. split; [by apply Hold|]. unfold deref.
    destruct (decide (k = k')) as [<-|Hk].
    + rewrite Hreg_k. apply Hcontent. by eapply Hfresh.
    + by rewrite Hreg_other.
Qed.

(** *** Registries built by a script *)

Lemma RemoveEntity_wf e m m' : wf m → RemoveEntity e m = Some m' → wf m'.
Proof.
  intros Hwf Hrm. destruct (ValidEntity m e) eqn:Hv.
  - destruct (RemoveEntity_spec m e Hwf Hv) as (m'' & Hrm' & Hwf' & _). congruence.
  - unfold RemoveEntity in Hrm. rewrite Hv in Hrm. by simplify_eq/=.
Qed.

Lemma CreateEntity_wf name m a m' : wf m → CreateEntity name m = Some (a, m') → wf m'.
Proof.
  intros Hwf Hc. destruct (CreateEntity_spec name m Hwf) as (a' & m'' & Hc' & Hwf' & _).
  congruence.
Qed.

(** Every registry built from the empty one by creating and destroying
    entities and adding components is well-formed. *)
Lemma exec_wf cmds m m' : wf m → exec cmds m = Some m' → wf m'.
Proof.
  unfold exec. revert m. induction cmds as [|c cmds IH]; intros m Hwf; simpl.
  - by intros [= <-].
  - destruct (exec_command m c) as [m1|] eqn:Hc; simpl; [|done].
    apply IH. destruct c as [name|k e comp|e]; simpl in Hc.
    + destruct (CreateEntity name m) as [[a m2]|] eqn:Hcr; simplify_eq/=.
      by eapply CreateEntity_wf.
    + by eapply AddComponent_spec.
    + by eapply RemoveEntity_wf.
Qed.

(** The small world is well-formed. *)
Lemma world_wf : wf world.
Proof. apply (exec_wf world_script empty); [apply wf_empty|by vm_compute]. Qed.

Ltac owned := split; by vm_compute.

(** ** Components of an entity *)

Lemma GetComponent_Some k m e r :
  GetComponent k m e = Some r ↔
  ValidEntity m e = true ∧ table_at m e (COMP_TYPE_ID k) = Some r
  ∧ ComponentStorage.valid (registry k (mRegistries m)) r = true.
Proof.
  unfold GetComponent. destruct (ValidEntity m e); simpl;
    [|split; [done|by intros (? & _)]].
  destruct (table_at m e (COMP_TYPE_ID k)) as [slot|]; simpl;
    [|split; [done|by intros (_ & ? & _)]].
  destruct (ComponentStorage.valid (registry k (mRegistries m)) slot) eqn:Hv; simpl.
  - split; [by intros [= <-]|by intros (_ & [= <-] & _)].
  - split; [done|intros (_ & [= <-] & Hv'); congruence].
Qed.

Lemma HasComponent_Some k m e slot :
  ValidEntity m e = true → table_at m e (COMP_TYPE_ID k) = Some slot →
  HasComponent k m e = Some (bool_decide (slot ≠ INVALID_COMPONENT_INDEX)).
Proof. intros Hv Hat. unfold HasComponent. by rewrite Hv, Hat. Qed.

(** In a well-formed registry an owned component can be fetched and read. *)
Lemma owns_GetComponent m e k r : wf m → owns m e k r → GetComponent k m e = Some r.
Proof.
  intros Hwf Ho. apply GetComponent_Some. split_and!.
  - by eapply owns_valid_entity.
  - by destruct Ho.
  - by eapply wf_slot_valid.
Qed.

Lemma owns_HasComponent m e k r : wf m → owns m e k r → HasComponent k m e = Some true.
Proof.
  intros Hwf Ho. pose proof (owns_valid_entity _ _ _ _ Hwf Ho) as Hv.
  destruct Ho as [Hat Hne]. rewrite (HasComponent_Some _ _ _ _ Hv Hat).
  by rewrite bool_decide_eq_true_2.
Qed.

Lemma valid_deref k m r :
  ComponentStorage.wf (registry k (mRegistries m)) →
  ComponentStorage.valid (registry k (mRegistries m)) r = true →
  ∃ x, deref k m r = Some x.
Proof.
  intros Hwf Hv%storage_valid_spec. unfold deref.
  apply vec_at_lt in Hv. unfold vec_size in Hv.
  rewrite <- (ComponentStorage.wf_length _ Hwf) in Hv.
  destruct (ComponentStorage.mStorage (registry k (mRegistries m)) !! N.to_nat r)
    as [x|] eqn:Hx.
  - exists x. by apply vec_at_Some.
  - apply lookup_ge_None in Hx. lia.
Qed.

Lemma owns_deref m e k r : wf m → owns m e k r → ∃ x, deref k m r = Some x.
Proof.
  intros Hwf Ho. apply valid_deref; [apply (wf_storage _ Hwf)|].
  by eapply wf_slot_valid.
Qed.

(** *** Writing through a component reference *)

Lemma insert_alter {A} (f : A → A) (l : list A) (i : nat) (x : A) :
  l !! i = Some x → <[i := f x]> l = alter f i l.
Proof.
  revert i. induction l as [|y l IH]; intros [|i] Hi; simplify_eq/=; [done|].
  f_equal. by apply IH.
Qed.

Lemma assign_Some k ref x y m :
  deref k m ref = Some y → assign k ref x m = Some (upd k ref (λ _, x) m).
Proof.
  unfold deref, assign, upd. intros Hd.
  rewrite (vec_assign_is_Some _ _ _ _ Hd). simpl.
  apply vec_at_Some in Hd. by rewrite (insert_alter (λ _, x) _ _ _ Hd).
Qed.

Lemma modify_Some k ref f m x :
  deref k m ref = Some x → modify k ref f m = Some (upd k ref f m).
Proof.
  unfold modify. intros Hd. rewrite Hd. simpl. unfold deref, assign, upd in *.
  rewrite (vec_assign_is_Some _ _ _ _ Hd). simpl.
  apply vec_at_Some in Hd. by rewrite (insert_alter f _ _ _ Hd).
Qed.

Lemma vec_at_alter_eq {A} (f : A → A) (v : list A) (i : N) :
  vec_at (alter f (N.to_nat i) v) i = f <$> vec_at v i.
Proof.
  unfold vec_at, vec_size. rewrite length_alter.
  destruct (i <? N.of_nat (length v)); [|done]. apply list_lookup_alter_eq.
Qed.

Lemma vec_at_alter_ne {A} (f : A → A) (v : list A) (i j : N) :
  i ≠ j → vec_at (alter f (N.to_nat i) v) j = vec_at v j.
Proof.
  intros Hne. unfold vec_at, vec_size. rewrite length_alter.
  destruct (j <? N.of_nat (length v)); [|done]. apply list_lookup_alter_ne. lia.
Qed.

Lemma deref_upd_eq k ref f m : deref k (upd k ref f m) ref = f <$> deref k m ref.
Proof. unfold deref, upd. simpl. rewrite registry_set_eq. simpl. apply vec_at_alter_eq. Qed.

Lemma deref_upd_ne k ref ref' f m :
  ref ≠ ref' → deref k (upd k ref f m) ref' = deref k m ref'.
Proof.
  intros Hne. unfold deref, upd. simpl. rewrite registry_set_eq. simpl.
  by apply vec_at_alter_ne.
Qed.

Lemma deref_upd_other k k' ref ref' f m :
  k ≠ k' → deref k' (upd k ref f m) ref' = deref k' m ref'.
Proof. intros Hne. unfold deref, upd. simpl. by rewrite registry_set_ne. Qed.

Lemma valid_upd k k' ref f m r :
  ComponentStorage.valid (registry k' (mRegistries (upd k ref f m))) r
  = ComponentStorage.valid (registry k' (mRegistries m)) r.
Proof.
  unfold upd. simpl. destruct (decide (k = k')) as [<-|Hne].
  - by rewrite registry_set_eq.
  - by rewrite registry_set_ne.
Qed.

Lemma ValidEntity_upd k ref f m e : ValidEntity (upd k ref f m) e = ValidEntity m e.
Proof. done. Qed.

Lemma table_at_upd k ref f m e c : table_at (upd k ref f m) e c = table_at m e c.
Proof. done. Qed.

Lemma HasComponent_upd k k' ref f m e :
  HasComponent k' (upd k ref f m) e = HasComponent k' m e.
Proof. done. Qed.

Lemma GetEntityName_upd k ref f m e : GetEntityName (upd k ref f m) e = GetEntityName m e.
Proof. done. Qed.

Lemma GetComponent_upd k k' ref f m e :
  GetComponent k' (upd k ref f m) e = GetComponent k' m e.
Proof.
  apply option_eq. intros r. rewrite !GetComponent_Some.
  by rewrite ValidEntity_upd, table_at_upd, valid_upd.
Qed.

Lemma owns_upd k ref f m e k' r : owns (upd k ref f m) e k' r ↔ owns m e k' r.
Proof. done. Qed.

Lemma wf_upd k ref f m : wf m → wf (upd k ref f m).
Proof.
  intros Hwf. split.
  - apply (wf_entities_length _ Hwf).
  - apply (wf_table_length _ Hwf).
  - apply (wf_row_length _ Hwf).
  - apply (wf_free_NoDup _ Hwf).
  - apply (wf_free_invalid _ Hwf).
  - apply (wf_dead_row _ Hwf).
  - apply (wf_entity_id _ Hwf).
  - intros e k' r Ho. rewrite valid_upd. by apply (wf_slot_valid _ Hwf e).
  - apply (wf_slot_inj _ Hwf).
  - intros k'. unfold upd. simpl. destruct (decide (k = k')) as [<-|Hne].
    + rewrite registry_set_eq. destruct (wf_storage _ Hwf k) as [Hl Hn Hf Hc].
      split; simpl; try done. by rewrite length_alter.
    + rewrite registry_set_ne by done. apply (wf_storage _ Hwf).
Qed.

Opaque upd.

(** * The claims *)

(** ** C1: recycling of entity identifiers *)

(** The claim as stated fails on the smallest run: in a fresh registry,
    create A, destroy it and create B; B receives A's identifier, which is
    therefore valid again. *)
Lemma stale_id_is_valid_after_reuse :
  ¬ (∀ a m1 m2 b m3,
       CreateEntity "A" empty = Some (a, m1) →
       RemoveEntity a m1 = Some m2 →
       CreateEntity "B" m2 = Some (b, m3) →
       ValidEntity m3 a = false).
Proof.
  intros H.
  destruct (CreateEntity "A" empty) as [[a m1]|] eqn:H1; [|done].
  destruct (RemoveEntity a m1) as [m2|] eqn:H2;
    [|by vm_compute in H1; injection H1 as <- <-].
  destruct (CreateEntity "B" m2) as [[b m3]|] eqn:H3;
    [|by vm_compute in H1; injection H1 as <- <-;
         vm_compute in H2; injection H2 as <-].
  specialize (H a m1 m2 b m3 eq_refl H2 H3).
  vm_compute in H1. injection H1 as <- <-.
  vm_compute in H2. injection H2 as <-.
  vm_compute in H3. injection H3 as <- <-.
  by vm_compute in H.
Qed.

(** C1, amended.  In a well-formed registry, create A, destroy A, create B
    all succeed; A's identifier is invalid between the destroy and the
    create, B receives the very identifier A had (the free list is LIFO and
    there is no generation counter), and after the sequence [ValidEntity]
    accepts that identifier again: it now designates B. *)
Theorem recycled_id_is_valid_again (m : t) (nameA nameB : string) :
  wf m →
  ∃ a m1 m2 m3,
    CreateEntity nameA m = Some (a, m1)
    ∧ RemoveEntity a m1 = Some m2
    ∧ ValidEntity m2 a = false
    ∧ CreateEntity nameB m2 = Some (a, m3)
    ∧ ValidEntity m3 a = true
    ∧ vec_at (mEntities m3) a = Some (mkEntity a nameB).
Proof.
  intros Hwf.
  destruct (CreateEntity_spec nameA m Hwf) as (a & m1 & H1 & Hwf1 & _ & Hv1 & _).
  destruct (RemoveEntity_spec m1 a Hwf1 Hv1) as (m2 & H2 & Hwf2 & Hv2 & Hback & _).
  destruct (CreateEntity_spec nameB m2 Hwf2)
    as (b & m3 & H3 & Hwf3 & _ & Hv3 & Hreuse & _ & Hent & _).
  pose proof (Hreuse a Hback) as ->.
  exists a, m1, m2, m3. by split_and!.
Qed.

(** C1 in a fresh registry. *)
Lemma recycled_id_in_fresh_registry :
  ∃ a m1 m2 m3,
    CreateEntity "A" empty = Some (a, m1)
    ∧ RemoveEntity a m1 = Some m2
    ∧ ValidEntity m2 a = false
    ∧ CreateEntity "B" m2 = Some (a, m3)
    ∧ ValidEntity m3 a = true
    ∧ vec_at (mEntities m3) a = Some (mkEntity a "B").
Proof. exact (recycled_id_is_valid_again empty "A" "B" wf_empty). Defined.

(** ** C9: destroying an entity that is not valid *)

(** C9.  [RemoveEntity] on an identifier that is not currently valid (never
    created, or already destroyed) returns normally and leaves the whole
    registry as it was: entity table, component storages, component index
    table, free list and validity markers. *)
Theorem RemoveEntity_invalid_noop (m : t) (entity : N) :
  ValidEntity m entity = false → RemoveEntity entity m = Some m.
Proof. intros H. unfold RemoveEntity. by rewrite H. Qed.

(** C9: no entity 99 exists in the small world. *)
Lemma destroying_an_unknown_entity :
  RemoveEntity 99 world = Some world.
Proof. apply (RemoveEntity_invalid_noop world 99). by vm_compute. Defined.

(** ** C6: the AABB overlap test *)

(** [RectIntersect] answers [false] exactly when one of the four
    "entirely to one side" comparisons of the source holds. *)
Lemma RectIntersect_false (r1 r2 : Rect) :
  RectIntersect r1 r2 = false ↔
    F32.leb (rect_right r2) (rect_left r1) = true
    ∨ F32.leb (rect_right r1) (rect_left r2) = true
    ∨ F32.leb (rect_bottom r2) (rect_top r1) = true
    ∨ F32.leb (rect_bottom r1) (rect_top r2) = true.
Proof.
  unfold RectIntersect, F32.geb, F32.leb.
  destruct (SFleb (rect_right r2) (rect_left r1)),
           (SFleb (rect_right r1) (rect_left r2)),
           (SFleb (rect_bottom r2) (rect_top r1)),
           (SFleb (rect_bottom r1) (rect_top r2)); simpl;
    split; intros; try done; try tauto; intuition discriminate.
Qed.

Lemma separated_no_intersection (r1 r2 : Rect) :
  disjoint_x r1 r2 ∨ touching_x r1 r2 ∨ disjoint_y r1 r2 ∨ touching_y r1 r2 →
  RectIntersect r1 r2 = false.
Proof.
  unfold disjoint_x, disjoint_y, touching_x, touching_y.
  rewrite RectIntersect_false.
  intros [[H|H]|[[H|H]|[[H|H]|[H|H]]]];
    first [apply ltb_leb in H | apply eqb_leb in H]; tauto.
Qed.

(** C6.  Whatever the Y intervals of two rectangles are, [RectIntersect]
    answers [false] when their X intervals are disjoint, and symmetrically
    for the Y axis; and it answers [false] for two rectangles that merely
    touch, the right edge of one being equal to the left edge of the other
    ([right1 == left2]): an overlap needs strict inequalities on both
    axes. *)
Theorem RectIntersect_disjoint_or_touching (r1 r2 : Rect) :
  (disjoint_x r1 r2 → RectIntersect r1 r2 = false)
  ∧ (disjoint_y r1 r2 → RectIntersect r1 r2 = false)
  ∧ (F32.eqb (rect_right r1) (rect_left r2) = true → RectIntersect r1 r2 = false)
  ∧ (F32.is_nan (rect_left r1) = false → F32.is_nan (rect_right r1) = false →
     F32.is_nan (rect_top r1) = false → F32.is_nan (rect_bottom r1) = false →
     F32.is_nan (rect_left r2) = false → F32.is_nan (rect_right r2) = false →
     F32.is_nan (rect_top r2) = false → F32.is_nan (rect_bottom r2) = false →
     RectIntersect r1 r2 = true ↔
       F32.ltb (rect_left r1) (rect_right r2) = true
       ∧ F32.ltb (rect_left r2) (rect_right r1) = true
       ∧ F32.ltb (rect_top r1) (rect_bottom r2) = true
       ∧ F32.ltb (rect_top r2) (rect_bottom r1) = true).
Proof.
  split_and!.
  - intros H. apply separated_no_intersection. tauto.
  - intros H. apply separated_no_intersection. tauto.
  - intros H. apply separated_no_intersection. unfold touching_x. tauto.
  - intros Hl1 Hr1 Ht1 Hb1 Hl2 Hr2 Ht2 Hb2.
    rewrite <- !not_geb_ltb by done. unfold RectIntersect.
    destruct (F32.geb (rect_left r1) (rect_right r2)),
             (F32.geb (rect_left r2) (rect_right r1)),
             (F32.geb (rect_top r1) (rect_bottom r2)),
             (F32.geb (rect_top r2) (rect_bottom r1)); simpl;
      split; intros; try done; try tauto; intuition discriminate.
Qed.

(** ** C7: pairs that do not overlap *)

(** C7.  Take two bodies (entities with collision components [c1] and
    [c2]) whose bounding boxes have no penetration on at least one axis:
    on that axis they are separated or merely touch.  Then the pair step
    of the collision system returns the registry and the sound manager
    exactly as they were: no position, no bounding box and no contact flag
    of either body (or of anything else) changes. *)
Theorem pair_step_separated (theCamera thePlayer entity1 entity2 : N)
    (m : t) (sm : SoundManager) (r1 r2 : N) (c1 c2 : CollisionComponent) :
  GetComponent KCollision m entity1 = Some r1 →
  GetComponent KCollision m entity2 = Some r2 →
  deref KCollision m r1 = Some c1 →
  deref KCollision m r2 = Some c2 →
  disjoint_x (currentBoundingBox c1) (currentBoundingBox c2)
  ∨ touching_x (currentBoundingBox c1) (currentBoundingBox c2)
  ∨ disjoint_y (currentBoundingBox c1) (currentBoundingBox c2)
  ∨ touching_y (currentBoundingBox c1) (currentBoundingBox c2) →
  pair_step theCamera thePlayer entity1 entity2 (m, sm) = Some (m, sm).
Proof.
  intros Hg1 Hg2 Hd1 Hd2 Hsep. unfold pair_step.
  pose proof Hg1 as (-> & _)%GetComponent_Some.
  pose proof Hg2 as (-> & _)%GetComponent_Some.
  rewrite Hg1, Hg2. simpl. rewrite Hd1, Hd2. simpl.
  destruct (isStatic c1 && isStatic c2); [done|].
  by rewrite (separated_no_intersection _ _ Hsep).
Qed.

(** C7: the platform and the keg are far apart on the X axis. *)
Lemma ground_and_keg_do_not_interact :
  pair_step 2 1 3 7 (world, speakers) = Some (world, speakers).
Proof.
  apply (pair_step_separated 2 1 3 7 world speakers 1 5
           (body 0 0 32 32 true) (body 122 200 32 32 false)).
  - by vm_compute.
  - by vm_compute.
  - by vm_compute.
  - by vm_compute.
  - left. left. by vm_compute.
Defined.

(** ** C5: picking up a collectible *)

Lemma owns_functional m e k r r' : owns m e k r → owns m e k r' → r = r'.
Proof. intros [H1 _] [H2 _]. congruence. Qed.





(** ** Symbolic execution of the resolution code *)

Create Rewrite HintDb reg.
#[global] Hint Rewrite HasComponent_upd GetComponent_upd ValidEntity_upd
  GetEntityName_upd deref_upd_eq : reg.
#[global] Hint Rewrite deref_upd_ne using congruence : reg.
#[global] Hint Rewrite deref_upd_other using discriminate : reg.

Opaque modify GetComponent HasComponent deref.
Opaque F32.of_int F32.lit bounceDamping.

(** Runs the next [modify] of the goal, reading the slot through the
    updates made so far. *)
Ltac run_modify :=
  match goal with
  | |- context [modify ?k ?r ?f ?m] =>
      let x := fresh "x" in
      let Hx := fresh "Hx" in
      evar (x : comp_type k);
      assert (deref k m r = Some x) as Hx
        by (autorewrite with reg;
            repeat match goal with H : deref _ _ _ = Some _ |- _ => rewrite H end;
            simpl; subst x; reflexivity);
      rewrite (modify_Some k r f m x Hx); clear Hx; subst x
  end.

Ltac run_reads :=
  autorewrite with reg;
  repeat match goal with
    | H : deref _ _ _ = Some _ |- _ => rewrite H
    | H : GetComponent _ _ _ = Some _ |- _ => rewrite H
    | H : HasComponent _ _ _ = Some _ |- _ => rewrite H
    end.

Ltac run := repeat (first [progress run_reads | run_modify | progress simpl]).

(** ** C3: landing on a static body *)

(** Closes a leaf of the case analysis: the final registry is known, and
    every clause is a read through the updates that were made. *)
Ltac landing_leaf Hmov :=
  eexists; split; [reflexivity|];
  split_and!; intros;
  try match goal with H : ?a = ?b, Hn : ?a ≠ ?b |- _ => by destruct (Hn H) end;
  run_reads; try done;
  try (match goal with
       | Ho : owns _ _ KMovement ?r, Hd : deref KMovement _ ?r = Some _ |- _ =>
           pose proof (Hmov _ _ Ho Hd); subst
       end; run_reads; simplify_eq; try done; try congruence).

(** C3.  Take a static body and a dynamic body of a well-formed registry,
    passed to [ResolveCollision] in either order, when the vertical axis is
    the one resolved (the horizontal penetration is not the smaller one)
    and the dynamic body is not below the static one.  Then the call
    succeeds and:
    - only the dynamic body moves: its position and its bounding box go up
      by the full vertical penetration ([y + (-overlap.vertical)], not half
      of it), every other location, the static body's included, is
      unchanged and the static body's box is unchanged;
    - [collidedBottom] is set on the dynamic body and [collidedTop] on the
      static body;
    - if the dynamic body is the player and its vertical velocity is
      positive (downward), that velocity becomes 0.
    The camera needs a shake component for the call to succeed when the
    player lands without having stood on something the frame before. *)
Theorem static_dynamic_landing (entity1 entity2 col1 col2 : N) (overlap : Overlap)
    (theCamera thePlayer : N) (m : t)
    (dynamicEntity staticEntity dynamicCol staticCol location : N)
    (dc sc : CollisionComponent) (l : LocationComponent) :
  wf m →
  (dynamicEntity = entity1 ∧ dynamicCol = col1 ∧ staticEntity = entity2 ∧ staticCol = col2)
  ∨ (dynamicEntity = entity2 ∧ dynamicCol = col2 ∧ staticEntity = entity1 ∧ staticCol = col1) →
  owns m dynamicEntity KCollision dynamicCol → deref KCollision m dynamicCol = Some dc →
  owns m staticEntity KCollision staticCol → deref KCollision m staticCol = Some sc →
  isStatic dc = false → isStatic sc = true →
  (horizontal overlap <? vertical overlap)%f32 = false →
  (box_y dc >? box_y sc)%f32 = false →
  owns m dynamicEntity KLocation location → deref KLocation m location = Some l →
  (dynamicEntity = thePlayer → wasStandingLast dc = false →
   (∃ mv, owns m dynamicEntity KMovement mv) → ∃ sh, owns m theCamera KCameraShake sh) →
  ∃ m',
    ResolveCollision entity1 entity2 col1 col2 overlap theCamera thePlayer m = Some m'
    ∧ deref KLocation m' location
      = Some (set_pos_y (py (position l) + - vertical overlap)%f32 l)
    ∧ (∀ r, r ≠ location → deref KLocation m' r = deref KLocation m r)
    ∧ deref KCollision m' dynamicCol
      = Some (set_box_y (box_y dc + - vertical overlap)%f32 (set_collidedBottom true dc))
    ∧ deref KCollision m' staticCol = Some (set_collidedTop true sc)
    ∧ (∀ r, r ≠ dynamicCol → r ≠ staticCol →
         deref KCollision m' r = deref KCollision m r)
    ∧ (∀ movement mv,
         owns m dynamicEntity KMovement movement →
         deref KMovement m movement = Some mv →
         dynamicEntity = thePlayer →
         (py (velocity mv) >? F32.zero)%f32 = true →
         deref KMovement m' movement = Some (set_vel_y F32.zero mv)).
Proof.
  intros Hwf Hroles HoD HdD HoS HdS HdynD HstS Haxis Habove HoL HdL Hcam.
  assert (Hcols : dynamicCol ≠ staticCol).
  { intros ->. congruence. }
  pose proof (owns_valid_entity _ _ _ _ Hwf HoD) as HvD.
  pose proof (owns_HasComponent _ _ _ _ Hwf HoL) as HhL.
  pose proof (owns_GetComponent _ _ _ _ Hwf HoL) as HgL.
  destruct (table_at_is_Some m dynamicEntity KMovement Hwf HvD) as [mslot Hmslot].
  pose proof (HasComponent_Some KMovement _ _ _ HvD Hmslot) as HhM.
  assert (Hmov : ∀ movement mv, owns m dynamicEntity KMovement movement →
            deref KMovement m movement = Some mv → movement = mslot).
  { intros movement mv [Hat _] _. congruence. }
  assert (HgM : mslot ≠ INVALID_COMPONENT_INDEX →
            GetComponent KMovement m dynamicEntity = Some mslot
            ∧ ∃ mv, deref KMovement m mslot = Some mv).
  { intros Hne. assert (owns m dynamicEntity KMovement mslot) as Ho by done.
    split; [by apply owns_GetComponent|by eapply owns_deref]. }
  assert (Hshake : dynamicEntity = thePlayer → wasStandingLast dc = false →
            mslot ≠ INVALID_COMPONENT_INDEX →
            ∃ sh s, GetComponent KCameraShake m theCamera = Some sh
                    ∧ deref KCameraShake m sh = Some s).
  { intros Hp Hw Hne. destruct Hcam as [sh Hsh]; [done|done|by exists mslot|].
    destruct (owns_deref _ _ _ _ Hwf Hsh) as [s Hs].
    exists sh, s. split; [by apply owns_GetComponent|done]. }
  unfold ResolveCollision.
  destruct Hroles as [(-> & -> & -> & ->)|(-> & -> & -> & ->)].
  - run. rewrite HdynD, HstS. simpl. rewrite Haxis. unfold resolve_static_vertical.
    run. rewrite HdynD. simpl. run. rewrite Habove. run.
    case_bool_decide as Hm;
      [|landing_leaf Hmov;
        match goal with Ho : owns _ _ KMovement _ |- _ => by destruct Ho as [_ ?] end].
    destruct (HgM Hm) as [HgM' [mv Hmv]]. rewrite HgM'. simpl.
    destruct (entity1 =? thePlayer) eqn:Hplayer; simpl.
    + apply N.eqb_eq in Hplayer. run.
      destruct (py (velocity mv) >? F32.zero)%f32 eqn:Hvy; run;
        (destruct (wasStandingLast dc) eqn:Hws; simpl; [landing_leaf Hmov|]);
        destruct (Hshake Hplayer eq_refl Hm) as (sh & s & Hsh & Hs);
        unfold trigger_shake; run; landing_leaf Hmov.
    + apply N.eqb_neq in Hplayer. run.
      destruct (py (velocity mv) >? F32.of_int 0)%f32 eqn:Hvy; run;
        match goal with
        | |- context [if ?b then _ else _] => destruct b; run
        end; landing_leaf Hmov.
  - run. rewrite HdynD, HstS. simpl. rewrite Haxis. unfold resolve_static_vertical.
    run. rewrite HstS. simpl. run. rewrite Habove. run.
    case_bool_decide as Hm;
      [|landing_leaf Hmov;
        match goal with Ho : owns _ _ KMovement _ |- _ => by destruct Ho as [_ ?] end].
    destruct (HgM Hm) as [HgM' [mv Hmv]]. rewrite HgM'. simpl.
    destruct (entity2 =? thePlayer) eqn:Hplayer; simpl.
    + apply N.eqb_eq in Hplayer. run.
      destruct (py (velocity mv) >? F32.zero)%f32 eqn:Hvy; run;
        (destruct (wasStandingLast dc) eqn:Hws; simpl; [landing_leaf Hmov|]);
        destruct (Hshake Hplayer eq_refl Hm) as (sh & s & Hsh & Hs);
        unfold trigger_shake; run; landing_leaf Hmov.
    + apply N.eqb_neq in Hplayer. run.
      destruct (py (velocity mv) >? F32.of_int 0)%f32 eqn:Hvy; run;
        match goal with
        | |- context [if ?b then _ else _] => destruct b; run
        end; landing_leaf Hmov.
Qed.

(** C3: the player, 4 deep in the platform at (0, 0, 32, 32), is lifted by
    4 and stops falling. *)
Lemma player_lands_on_ground :
  let overlap := CalculateOverlap (mkRect (pt 0 (-28)) 32 32) (mkRect (pt 0 0) 32 32) in
  vertical overlap = F32.of_int 4
  ∧ ∃ m',
      ResolveCollision 1 3 0 1 overlap 2 1 world = Some m'
      ∧ (position <$> deref KLocation m' 0) = Some (pt 0 (-32))
      ∧ (currentBoundingBox <$> deref KCollision m' 0) = Some (mkRect (pt 0 (-32)) 32 32)
      ∧ (collidedBottom <$> deref KCollision m' 0) = Some true
      ∧ (collidedTop <$> deref KCollision m' 1) = Some true
      ∧ (currentBoundingBox <$> deref KCollision m' 1) = Some (mkRect (pt 0 0) 32 32)
      ∧ deref KLocation m' 1 = deref KLocation world 1
      ∧ (velocity <$> deref KMovement m' 0) = Some (pt 0 0).
Proof.
  intros overlap. split; [by vm_compute|].
  destruct (static_dynamic_landing 1 3 0 1 overlap 2 1 world 1 3 0 1 0
              (body 0 (-28) 32 32 false) (body 0 0 32 32 true) (mkLocation (pt 0 (-28))))
    as (m' & Hrun & Hloc & Hother & Hdc & Hsc & _ & Hvel).
  - apply world_wf.
  - by left.
  - owned.
  - by vm_compute.
  - owned.
  - by vm_compute.
  - done.
  - done.
  - by vm_compute.
  - by vm_compute.
  - owned.
  - by vm_compute.
  - intros _ _ _. exists 0. owned.
  - exists m'. split; [done|].
    rewrite Hloc, Hdc, Hsc, (Hother 1) by done.
    rewrite (Hvel 0 (mkMovement (pt 0 50) (F32.of_int 300)));
      [|owned|by vm_compute|done|by vm_compute].
    split_and!; by vm_compute.
Defined.

(** ** C4: two dynamic bodies meeting head-on *)

Lemma half_of_10 : (F32.of_int 10 / F32.of_int 2)%f32 = F32.of_int 5.
Proof. by vm_compute. Qed.

Lemma damped_100 : (F32.of_int 100 * bounceDamping)%f32 = F32.of_int 70.
Proof. by vm_compute. Qed.

Lemma damped_minus_100 : (F32.of_int (-100) * bounceDamping)%f32 = F32.of_int (-70).
Proof. by vm_compute. Qed.

(** C4.  Take two dynamic bodies of a well-formed registry, neither of them
    the player, of equal size, passed to [ResolveCollision] in either
    order with the overlap computed from their boxes, the horizontal
    penetration being the smaller one.  [L] is the body on the left and
    [R] the one on the right; their velocities are arbitrary.  Then the
    call succeeds and:
    - [L] has moved left and [R] right by half the horizontal
      penetration, position and bounding box alike, with [collidedRight]
      set on [L] and [collidedLeft] on [R], and nothing else of the two
      locations and collision components has changed;
    - the horizontal velocities are exchanged and scaled by the damping
      factor [0.7f]: [L] now has the horizontal velocity that [R] had,
      times [0.7f], and [R] the one that [L] had, times [0.7f]; the
      vertical velocities and the speed limits are as before.
    With a penetration of 10 each body moves by 5, and with [L] at 100
    and [R] at -100 the new velocities are -70 for [L] and 70 for [R]. *)
Theorem dynamic_pair_head_on (entity1 entity2 col1 col2 : N)
    (theCamera thePlayer : N) (m : t)
    (eL eR colL colR locL locR mvL mvR : N)
    (c1 c2 cL cR : CollisionComponent) (lL lR : LocationComponent)
    (vL vR : MovementComponent) :
  wf m →
  (eL = entity1 ∧ colL = col1 ∧ cL = c1 ∧ eR = entity2 ∧ colR = col2 ∧ cR = c2)
  ∨ (eL = entity2 ∧ colL = col2 ∧ cL = c2 ∧ eR = entity1 ∧ colR = col1 ∧ cR = c1) →
  eL ≠ eR → eL ≠ thePlayer → eR ≠ thePlayer →
  owns m eL KCollision colL → deref KCollision m colL = Some cL →
  owns m eR KCollision colR → deref KCollision m colR = Some cR →
  isStatic cL = false → isStatic cR = false →
  owns m eL KLocation locL → deref KLocation m locL = Some lL →
  owns m eR KLocation locR → deref KLocation m locR = Some lR →
  owns m eL KMovement mvL → deref KMovement m mvL = Some vL →
  owns m eR KMovement mvR → deref KMovement m mvR = Some vR →
  width (currentBoundingBox cL) = width (currentBoundingBox cR) →
  height (currentBoundingBox cL) = height (currentBoundingBox cR) →
  (box_x cL <? box_x cR)%f32 = true →
  let overlap := CalculateOverlap (currentBoundingBox c1) (currentBoundingBox c2) in
  (horizontal overlap <? vertical overlap)%f32 = true →
  let half := (horizontal overlap / F32.of_int 2)%f32 in
  ∃ m',
    ResolveCollision entity1 entity2 col1 col2 overlap theCamera thePlayer m = Some m'
    ∧ deref KLocation m' locL
      = Some (mkLocation (mkPoint2D (px (position lL) - half)%f32 (py (position lL))))
    ∧ deref KLocation m' locR
      = Some (mkLocation (mkPoint2D (px (position lR) + half)%f32 (py (position lR))))
    ∧ deref KCollision m' colL
      = Some (mkCollision (collidedTop cL) (collidedBottom cL) (collidedLeft cL) true
                (wasStandingLast cL) (wasTouchingWallLast cL) (boundingBoxOffset cL)
                (mkRect (mkPoint2D (px (topLeft (currentBoundingBox cL)) - half)%f32
                                   (py (topLeft (currentBoundingBox cL))))
                   (width (currentBoundingBox cL)) (height (currentBoundingBox cL)))
                (previousBoundingBox cL) (isStatic cL) (boundingBoxInitialized cL))
    ∧ deref KCollision m' colR
      = Some (mkCollision (collidedTop cR) (collidedBottom cR) true (collidedRight cR)
                (wasStandingLast cR) (wasTouchingWallLast cR) (boundingBoxOffset cR)
                (mkRect (mkPoint2D (px (topLeft (currentBoundingBox cR)) + half)%f32
                                   (py (topLeft (currentBoundingBox cR))))
                   (width (currentBoundingBox cR)) (height (currentBoundingBox cR)))
                (previousBoundingBox cR) (isStatic cR) (boundingBoxInitialized cR))
    ∧ deref KMovement m' mvL
      = Some (mkMovement (mkPoint2D (px (velocity vR) * bounceDamping)%f32
                                    (py (velocity vL))) (maxSpeed vL))
    ∧ deref KMovement m' mvR
      = Some (mkMovement (mkPoint2D (px (velocity vL) * bounceDamping)%f32
                                    (py (velocity vR))) (maxSpeed vR))
    ∧ (horizontal overlap = F32.of_int 10 → half = F32.of_int 5)
    ∧ (px (velocity vL) = F32.of_int 100 → px (velocity vR) = F32.of_int (-100) →
       (px (velocity vR) * bounceDamping)%f32 = F32.of_int (-70)
       ∧ (px (velocity vL) * bounceDamping)%f32 = F32.of_int 70).
Proof.
  intros Hwf Hroles Hne HpL HpR HoCL HdCL HoCR HdCR HdynL HdynR
    HoLL HdLL HoLR HdLR HoML HdML HoMR HdMR Hw Hh Hleft overlap Haxis half.
  assert (Hcols : colL ≠ colR).
  { intros ->. apply Hne. by apply (wf_slot_inj _ Hwf eL eR KCollision colR). }
  assert (Hlocs : locL ≠ locR).
  { intros ->. apply Hne. by apply (wf_slot_inj _ Hwf eL eR KLocation locR). }
  assert (Hmvs : mvL ≠ mvR).
  { intros ->. apply Hne. by apply (wf_slot_inj _ Hwf eL eR KMovement mvR). }
  pose proof (owns_HasComponent _ _ _ _ Hwf HoLL) as HhLL.
  pose proof (owns_HasComponent _ _ _ _ Hwf HoLR) as HhLR.
  pose proof (owns_GetComponent _ _ _ _ Hwf HoLL) as HgLL.
  pose proof (owns_GetComponent _ _ _ _ Hwf HoLR) as HgLR.
  pose proof (owns_HasComponent _ _ _ _ Hwf HoML) as HhML.
  pose proof (owns_HasComponent _ _ _ _ Hwf HoMR) as HhMR.
  pose proof (owns_GetComponent _ _ _ _ Hwf HoML) as HgML.
  pose proof (owns_GetComponent _ _ _ _ Hwf HoMR) as HgMR.
  apply N.eqb_neq in HpL, HpR.
  assert (Hscenario :
    (horizontal overlap = F32.of_int 10 → half = F32.of_int 5)
    ∧ (px (velocity vL) = F32.of_int 100 → px (velocity vR) = F32.of_int (-100) →
       (px (velocity vR) * bounceDamping)%f32 = F32.of_int (-70)
       ∧ (px (velocity vL) * bounceDamping)%f32 = F32.of_int 70)).
  { split.
    - intros Hten. unfold half. by rewrite Hten, half_of_10.
    - intros -> ->. by rewrite damped_100, damped_minus_100. }
  destruct Hscenario as [Hten Hpm].
  unfold ResolveCollision.
  destruct Hroles as [(-> & -> & -> & -> & -> & ->)|(-> & -> & -> & -> & -> & ->)].
  - run. rewrite HdynL, HdynR. simpl. unfold resolve_dynamic_dynamic.
    rewrite HpL, HpR, Haxis. fold half. unfold orb_lazy, andb_lazy. run.
    rewrite Hleft. run.
    eexists. split; [reflexivity|].
    split_and!; [run_reads; simpl..|exact Hten|exact Hpm];
      unfold set_collidedRight, set_collidedLeft, set_box_x, set_currentBoundingBox;
      simpl; rewrite ?HdynL, ?HdynR; done.
  - run. rewrite HdynL, HdynR. simpl. unfold resolve_dynamic_dynamic.
    rewrite HpL, HpR, Haxis. fold half. unfold orb_lazy, andb_lazy. run.
    rewrite (ltb_asym _ _ Hleft). run.
    eexists. split; [reflexivity|].
    split_and!; [run_reads; simpl..|exact Hten|exact Hpm];
      unfold set_collidedRight, set_collidedLeft, set_box_x, set_currentBoundingBox;
      simpl; rewrite ?HdynL, ?HdynR; done.
Qed.

(** C4: the barrel and the keg, 10 into each other, part by 5 each and
    leave at 70. *)
Lemma barrel_meets_keg :
  let overlap := CalculateOverlap (mkRect (pt 100 200) 32 32) (mkRect (pt 122 200) 32 32) in
  ∃ m',
    ResolveCollision 6 7 4 5 overlap 2 1 world = Some m'
    ∧ (position <$> deref KLocation m' 4) = Some (pt 95 200)
    ∧ (position <$> deref KLocation m' 5) = Some (pt 127 200)
    ∧ (currentBoundingBox <$> deref KCollision m' 4) = Some (mkRect (pt 95 200) 32 32)
    ∧ (currentBoundingBox <$> deref KCollision m' 5) = Some (mkRect (pt 127 200) 32 32)
    ∧ (velocity <$> deref KMovement m' 3) = Some (pt (-70) 0)
    ∧ (velocity <$> deref KMovement m' 4) = Some (pt 70 0).
Proof.
  intros overlap.
  destruct (dynamic_pair_head_on 6 7 4 5 2 1 world 6 7 4 5 4 5 3 4
              (body 100 200 32 32 false) (body 122 200 32 32 false)
              (body 100 200 32 32 false) (body 122 200 32 32 false)
              (mkLocation (pt 100 200)) (mkLocation (pt 122 200))
              (mkMovement (pt 100 0) (F32.of_int 300))
              (mkMovement (pt (-100) 0) (F32.of_int 300)))
    as (m' & Hrun & HlL & HlR & HcL & HcR & HvL & HvR & _).
  - apply world_wf.
  - by left.
  - done.
  - done.
  - done.
  - owned.
  - by vm_compute.
  - owned.
  - by vm_compute.
  - done.
  - done.
  - owned.
  - by vm_compute.
  - owned.
  - by vm_compute.
  - owned.
  - by vm_compute.
  - owned.
  - by vm_compute.
  - done.
  - done.
  - by vm_compute.
  - by vm_compute.
  - exists m'. split; [done|]. rewrite HlL, HlR, HcL, HcR, HvL, HvR.
    split_and!; by vm_compute.
Defined.

(** ** C2: a dynamic body meeting the player *)

(** On the horizontal axis the code does what C2 says: the body that is not
    the player has its horizontal velocity negated and damped, and the
    player's velocity is not touched. *)
Lemma horizontal_bounce_off_player (entity1 entity2 col1 col2 : N) (overlap : Overlap)
    (theCamera thePlayer : N) (m : t)
    (eN colP colN locP locN mvP mvN : N)
    (cP cN : CollisionComponent) (lP lN : LocationComponent)
    (vP vN : MovementComponent) :
  wf m →
  (thePlayer = entity1 ∧ colP = col1 ∧ eN = entity2 ∧ colN = col2)
  ∨ (thePlayer = entity2 ∧ colP = col2 ∧ eN = entity1 ∧ colN = col1) →
  eN ≠ thePlayer →
  owns m thePlayer KCollision colP → deref KCollision m colP = Some cP →
  owns m eN KCollision colN → deref KCollision m colN = Some cN →
  isStatic cP = false → isStatic cN = false →
  owns m thePlayer KLocation locP → deref KLocation m locP = Some lP →
  owns m eN KLocation locN → deref KLocation m locN = Some lN →
  owns m thePlayer KMovement mvP → deref KMovement m mvP = Some vP →
  owns m eN KMovement mvN → deref KMovement m mvN = Some vN →
  (horizontal overlap <? vertical overlap)%f32 = true →
  ∃ m',
    ResolveCollision entity1 entity2 col1 col2 overlap theCamera thePlayer m = Some m'
    ∧ deref KMovement m' mvN
      = Some (set_vel_x (- px (velocity vN) * bounceDamping)%f32 vN)
    ∧ deref KMovement m' mvP = Some vP.
Proof.
  intros Hwf Hroles Hne HoCP HdCP HoCN HdCN HdynP HdynN
    HoLP HdLP HoLN HdLN HoMP HdMP HoMN HdMN Haxis.
  assert (Hcols : colP ≠ colN).
  { intros ->. apply Hne. by apply (wf_slot_inj _ Hwf eN thePlayer KCollision colN). }
  assert (Hlocs : locP ≠ locN).
  { intros ->. apply Hne. by apply (wf_slot_inj _ Hwf eN thePlayer KLocation locN). }
  assert (Hmvs : mvP ≠ mvN).
  { intros ->. apply Hne. by apply (wf_slot_inj _ Hwf eN thePlayer KMovement mvN). }
  pose proof (owns_HasComponent _ _ _ _ Hwf HoLP) as HhLP.
  pose proof (owns_HasComponent _ _ _ _ Hwf HoLN) as HhLN.
  pose proof (owns_GetComponent _ _ _ _ Hwf HoLP) as HgLP.
  pose proof (owns_GetComponent _ _ _ _ Hwf HoLN) as HgLN.
  pose proof (owns_HasComponent _ _ _ _ Hwf HoMP) as HhMP.
  pose proof (owns_HasComponent _ _ _ _ Hwf HoMN) as HhMN.
  pose proof (owns_GetComponent _ _ _ _ Hwf HoMP) as HgMP.
  pose proof (owns_GetComponent _ _ _ _ Hwf HoMN) as HgMN.
  apply N.eqb_neq in Hne.
  unfold ResolveCollision.
  destruct Hroles as [(-> & -> & -> & ->)|(-> & -> & -> & ->)].
  - run. rewrite HdynP, HdynN. simpl. unfold resolve_dynamic_dynamic.
    rewrite N.eqb_refl, Hne, Haxis. unfold orb_lazy, andb_lazy. run.
    destruct (box_x cP <? box_x cN)%f32; run;
      (eexists; split; [reflexivity|]; split_and!; run_reads; done).
  - run. rewrite HdynP, HdynN. simpl. unfold resolve_dynamic_dynamic.
    rewrite N.eqb_refl, Hne, Haxis. unfold orb_lazy, andb_lazy. run.
    destruct (box_x cN <? box_x cP)%f32; run;
      (eexists; split; [reflexivity|]; split_and!; run_reads; done).
Qed.

(** C2, on the vertical axis.  The crate world holds the player (entity 1)
    and a crate (entity 2) on the player's head: both are dynamic and have
    movement components, exactly one of them is the player, and of the
    penetrations (32 across, 4 down) the vertical one is the smaller.  One
    run of [CollisionSystem] pushes the two apart by 2 each and sets the
    facing contact flags, but the crate keeps its vertical velocity of 100:
    it is not replaced by the reflected and damped [-100 * 0.7f], which is
    what the horizontal branch does to the horizontal velocity. *)
Theorem vertical_pair_with_player_is_not_reflected :
  HasComponent KInput crate_world 1 = Some true
  ∧ HasComponent KInput crate_world 2 = Some false
  ∧ (velocity <$> (GetComponent KMovement crate_world 2 ≫= deref KMovement crate_world))
    = Some (pt 0 100)
  ∧ CalculateOverlap (mkRect (pt 0 (-28)) 32 32) (mkRect (pt 0 (-56)) 32 32)
    = mkOverlap (F32.of_int 32) (F32.of_int 4)
  ∧ ∃ m' player crate,
      CollisionSystem (crate_world, speakers) = Some (m', speakers)
      ∧ GetComponent KCollision m' 1 ≫= deref KCollision m' = Some player
      ∧ GetComponent KCollision m' 2 ≫= deref KCollision m' = Some crate
      ∧ currentBoundingBox player = mkRect (pt 0 (-26)) 32 32
      ∧ currentBoundingBox crate = mkRect (pt 0 (-58)) 32 32
      ∧ collidedTop player = true
      ∧ collidedBottom crate = true
      ∧ (velocity <$> (GetComponent KMovement m' 2 ≫= deref KMovement m'))
        = Some (pt 0 100)
      ∧ (velocity <$> (GetComponent KMovement m' 1 ≫= deref KMovement m'))
        = Some (pt 0 50)
      ∧ (F32.of_int 100 ≠ - F32.of_int 100 * bounceDamping)%f32.
Proof.
  split_and!; try by vm_compute.
  eexists _, _, _. split_and!; [by vm_compute..|].
  by vm_compute.
Qed.

(** * Further properties *)

(** ** Type packs *)

Section pack_facts.
Context {A : Type} `{!EqDecision A}.

Lemma packSize_length (args : list A) : packSize args = Z.of_nat (length args).
Proof. induction args as [|a args IH]; simpl packSize; [done|]. rewrite IH. simpl length. lia. Qed.

Lemma packIndexToType_lookup (i : Z) (args : list A) :
  _packIndexToType i args = if (0 <=? i)%Z then args !! Z.to_nat i else None.
Proof.
  revert i. induction args as [|a args IH]; intros i; simpl.
  - by destruct (0 <=? i)%Z.
  - destruct (Z.eqb_spec i 0) as [->|Hne]; [done|].
    destruct (Z.leb_spec 0 i) as [Hle|Hlt]; [|done].
    rewrite IH. rewrite (proj2 (Z.leb_le 0 (i - 1))) by lia.
    replace (Z.to_nat i) with (S (Z.to_nat (i - 1))) by lia. done.
Qed.

Lemma packTypeToIndex_acc (acc : Z) (q : A) (args : list A) :
  ((q ∉ args) ∧ (_packTypeToIndex acc q args = -1)%Z)
  ∨ ∃ i : nat, args !! i = Some q ∧ (∀ j, (j < i)%nat → args !! j ≠ Some q)
      ∧ (_packTypeToIndex acc q args = acc + Z.of_nat i)%Z.
Proof.
  revert acc. induction args as [|a args IH]; intros acc; simpl.
  - left. split; [apply not_elem_of_nil|done].
  - destruct (decide (q = a)) as [->|Hne].
    + right. exists 0%nat. split_and!; [done|intros j; lia|lia].
    + destruct (IH (acc + 1)%Z) as [[Hnot ->]|(i & Hi & Hfirst & ->)].
      * left. split; [|done]. by intros [?|?]%elem_of_cons.
      * right. exists (S i). split_and!; [done| |lia].
        intros [|j] Hj; simpl; [congruence|]. apply Hfirst. lia.
Qed.

(** X1. [Pack::contains<T>] holds exactly when [T] is one of the types of
    the pack.  [Pack::index<T>] is [-1] when it is not; otherwise it is a
    position inside the pack, and [Pack::type] at that position is [T]
    again. *)
Theorem Pack_index_then_type (q : A) (args : list A) :
  Pack_contains q args = bool_decide (q ∈ args)
  ∧ (Pack_index q args = -1
     ∨ (0 ≤ Pack_index q args < Pack_size args
        ∧ Pack_type (Pack_index q args) args = Some q))%Z.
Proof.
  unfold Pack_contains, Pack_index, Pack_type, Pack_size, packTypeToIndex.
  destruct (packTypeToIndex_acc 0 q args) as [[Hnot ->]|(i & Hi & _ & ->)].
  - split; [|by left]. by rewrite bool_decide_eq_false_2.
  - pose proof (lookup_lt_Some _ _ _ Hi) as Hlt. rewrite packSize_length.
    split.
    + rewrite bool_decide_eq_true_2 by by eapply list_elem_of_lookup_2.
      by destruct (Z.eqb_spec (0 + Z.of_nat i) (-1)); [lia|].
    + right. split; [lia|].
      rewrite (proj2 (Z.leb_le 0 _)), (proj2 (Z.ltb_lt _ (Z.of_nat (length args)))) by lia.
      simpl. rewrite packIndexToType_lookup, (proj2 (Z.leb_le 0 _)) by lia.
      by replace (Z.to_nat (0 + Z.of_nat i)) with i by lia.
Qed.

(** X2. In a pack that lists no type twice, [Pack::index] of the type
    found by [Pack::type] at position [i] is [i]. *)
Theorem Pack_type_then_index (i : Z) (q : A) (args : list A) :
  NoDup args → Pack_type i args = Some q → Pack_index q args = i.
Proof.
  intros Hnd. unfold Pack_type, Pack_index, Pack_size, packTypeToIndex.
  destruct (Z.leb_spec 0 i) as [Hle|]; [|done].
  destruct (Z.ltb_spec i (packSize args)); [|done]. simpl.
  rewrite packIndexToType_lookup, (proj2 (Z.leb_le 0 i)) by done. intros Hi.
  destruct (packTypeToIndex_acc 0 q args) as [[Hnot _]|(j & Hj & _ & ->)].
  - exfalso. apply Hnot. by eapply list_elem_of_lookup_2.
  - pose proof (NoDup_lookup _ _ _ _ Hnd Hi Hj). lia.
Qed.
End pack_facts.

Lemma Pack_type_then_index_witness :
  NoDup all_kinds ∧ Pack_type 2 all_kinds = Some KCollision
  ∧ Pack_index KCollision all_kinds = 2%Z.
Proof.
  assert (Hnd : NoDup all_kinds) by (apply (bool_decide_unpack _); exact I).
  assert (Hty : Pack_type 2 all_kinds = Some KCollision) by reflexivity.
  exact (conj Hnd (conj Hty (Pack_type_then_index 2 KCollision all_kinds Hnd Hty))).
Defined.

(** ** More on the component storage *)

Section storage_more.
Import ComponentStorage.
Context {T : Type} `{!ValueInit T}.
Implicit Types (s : t T) (id : N).

Lemma storage_get_Some s id x :
  get s id = Some x ↔ valid s id = true ∧ vec_at (mStorage s) id = Some x.
Proof.
  unfold get. destruct (valid s id); simpl; [|split; [done|by intros [? _]]].
  split; [done|by intros [_ ?]].
Qed.

Lemma storage_get_frame s s' id :
  valid s' id = valid s id → vec_at (mStorage s') id = vec_at (mStorage s) id →
  get s' id = get s id.
Proof. unfold get. by intros -> ->. Qed.

(** X3. On a well-formed storage [store] returns a slot that was not
    valid before.  Reading that slot afterwards gives the stored value,
    and no other slot changes its validity or its content. *)
Theorem store_then_get s value :
  wf s →
  ∃ id s', store value s = Some (id, s')
    ∧ valid s id = false
    ∧ get s' id = Some value
    ∧ (∀ j, j ≠ id → valid s' j = valid s j ∧ get s' j = get s j).
Proof.
  intros Hwf.
  destruct (storage_store_wf s value Hwf)
    as (id & s' & Hst & _ & Hfresh & Hv & _ & Hvalid & Hnew & Hrest).
  exists id, s'. split_and!; [done|done|by apply storage_get_Some|].
  intros j Hj. split; [by apply Hvalid|].
  apply storage_get_frame; [by apply Hvalid|by apply Hrest].
Qed.

Lemma storage_remove_slot s id s' :
  remove id s = Some s' →
  vec_at (mStorage s') id = Some value_init ∧ back (mFreeList s') = Some id
  ∧ valid s' id = false.
Proof.
  unfold remove. destruct (valid s id) eqn:Hv; simpl; [|done].
  destruct (vec_assign (mValid s) id false) as [vl|] eqn:Hvl; simpl; [|done].
  destruct (vec_assign (mStorage s) id value_init) as [st|] eqn:Hst; simpl; [|done].
  intros [= <-]. simpl.
  apply vec_assign_Some in Hvl as [Hlt1 ->]. apply vec_assign_Some in Hst as [Hlt2 ->].
  split_and!.
  - by apply vec_at_assign_eq.
  - apply back_push_back.
  - apply not_true_is_false. rewrite storage_valid_spec. simpl.
    by rewrite vec_at_assign_eq.
Qed.

(** X4. Removing a valid slot makes it unreadable and resets its content
    to the value-initialised component.  The next [store] reuses exactly
    that slot, and brings [size()] back to what it was before the
    removal. *)
Theorem remove_then_store_reuses_slot s id value :
  wf s → valid s id = true →
  ∃ s1 s2, remove id s = Some s1
    ∧ get s1 id = None
    ∧ vec_at (mStorage s1) id = Some value_init
    ∧ store value s1 = Some (id, s2)
    ∧ get s2 id = Some value
    ∧ size s2 = size s.
Proof.
  intros Hwf Hv.
  destruct (storage_remove_wf s id Hwf Hv) as (s1 & Hrm & Hwf1 & Hv1 & Hc1 & _).
  destruct (storage_remove_slot _ _ _ Hrm) as (Hinit & Hback & _).
  destruct (storage_store_wf s1 value Hwf1)
    as (id' & s2 & Hst & Hwf2 & _ & Hv2 & Hc2 & _ & Hnew & _).
  assert (id' = id) as ->.
  { unfold store in Hst. rewrite Hback in Hst. by simplify_option_eq. }
  exists s1, s2. split_and!; try done.
  - unfold get. by rewrite Hv1.
  - by apply storage_get_Some.
  - unfold size. rewrite (wf_count _ Hwf2), (wf_count _ Hwf). f_equal. lia.
Qed.

(** X5. On a well-formed storage [remove] fails its assertion exactly
    when the slot is not valid.  So a slot cannot be removed twice, and
    after a removal it cannot be read. *)
Theorem remove_fails_on_invalid_slot s id :
  wf s →
  (remove id s = None ↔ valid s id = false)
  ∧ (∀ s', remove id s = Some s' → remove id s' = None ∧ get s' id = None).
Proof.
  intros Hwf. split.
  - pose proof (storage_step_None s (Remove id) Hwf) as Hnone. simpl in Hnone.
    rewrite Hnone. split.
    + by intros (? & [= <-] & ?).
    + intros Hv. by exists id.
  - intros s' Hrm. destruct (storage_remove_slot _ _ _ Hrm) as (_ & _ & Hv).
    unfold remove, get. by rewrite Hv.
Qed.

Lemma storage_step_balanced s o s' :
  wf s → storage_balanced s → step s o = Some s' →
  storage_balanced s'
  ∧ (length (mStorage s') ≤ length (mStorage s) + (if is_store o then 1 else 0))%nat.
Proof.
  intros Hwf Hb. unfold storage_balanced in *. destruct o as [value|id]; simpl.
  - destruct (storage_store_wf s value Hwf) as (id & s1 & Hst & _ & _ & _ & Hc & _).
    rewrite Hst. intros [= <-]. rewrite Hc. unfold store in Hst.
    destruct (back (mFreeList s)) as [i|] eqn:Hback.
    + apply back_Some in Hback. simplify_option_eq.
      match goal with H : vec_assign (mStorage s) _ _ = Some _ |- _ =>
        apply vec_assign_Some in H as [_ ->] end.
      rewrite length_insert. rewrite Hback in Hb at 1.
      unfold push_back in Hb. rewrite length_app in Hb. simpl in Hb. lia.
    + simplify_eq/=. unfold push_back. rewrite length_app. simpl. lia.
  - intros Hrm. pose proof (storage_remove_Some_valid _ _ _ Hrm) as Hv.
    destruct (storage_remove_wf s id Hwf Hv) as (s1 & Hs1 & _ & _ & Hc & _).
    rewrite Hs1 in Hrm. injection Hrm as <-. unfold remove in Hs1. simplify_option_eq.
    match goal with H : vec_assign (mStorage s) _ _ = Some _ |- _ =>
      apply vec_assign_Some in H as [_ ->] end.
    rewrite length_insert. unfold push_back in *. rewrite length_app. simpl. lia.
Qed.

Lemma storage_run_balanced (ops : list (op T)) s s' :
  wf s → storage_balanced s → run ops s = Some s' →
  storage_balanced s' ∧ (length (mStorage s') ≤ length (mStorage s) + stores ops)%nat.
Proof.
  revert s. induction ops as [|o ops IH]; intros s Hwf Hb; simpl.
  - intros [= <-]. split; [done|lia].
  - destruct (step s o) as [s1|] eqn:Hstep; simpl; [|done]. intros Hrun.
    destruct (storage_step_wf _ _ _ Hwf Hstep) as [Hwf1 Hc].
    destruct (storage_step_balanced _ _ _ Hwf Hb Hstep) as [Hb1 Hl1].
    destruct (IH _ Hwf1 Hb1 Hrun) as [Hb' Hlen]. split; [done|].
    destruct (is_store o); lia.
Qed.

(** X6. After any run of [store] and [remove] calls on a fresh storage
    with fewer than [2^64] stores, the free list is not longer than the
    slot vector, and [size()] is the number of slots minus the length of
    the free list: every slot is either live or waiting on the free
    list. *)
Theorem size_is_capacity_minus_free (ops : list (op T)) s :
  run ops empty = Some s → N.of_nat (stores ops) ≤ SIZE_MAX →
  vec_size (mFreeList s) ≤ vec_size (mStorage s)
  ∧ size s = vec_size (mStorage s) - vec_size (mFreeList s).
Proof.
  intros Hrun Hbound.
  destruct (storage_run_wf _ _ _ storage_wf_empty Hrun) as [Hwf Hc].
  destruct (storage_run_balanced _ _ _ storage_wf_empty eq_refl Hrun) as [Hb Hlen].
  unfold storage_balanced in Hb. simpl in Hlen. unfold vec_size, size.
  rewrite (wf_count _ Hwf). unfold size_wrap.
  rewrite N.mod_small by lia. lia.
Qed.
End storage_more.

Lemma store_then_get_witness :
  ∃ id s',
    ComponentStorage.store (mkLocation (pt 9 9)) (registry KLocation (mRegistries world))
      = Some (id, s')
    ∧ ComponentStorage.valid (registry KLocation (mRegistries world)) id = false
    ∧ ComponentStorage.get s' id = Some (mkLocation (pt 9 9))
    ∧ (∀ j, j ≠ id →
         ComponentStorage.valid s' j
           = ComponentStorage.valid (registry KLocation (mRegistries world)) j
         ∧ ComponentStorage.get s' j
           = ComponentStorage.get (registry KLocation (mRegistries world)) j).
Proof.
  exact (store_then_get (registry KLocation (mRegistries world)) (mkLocation (pt 9 9))
           (wf_storage _ world_wf KLocation)).
Defined.

Lemma remove_then_store_reuses_slot_witness :
  ComponentStorage.valid (registry KLocation (mRegistries world)) 0 = true
  ∧ ∃ s1 s2,
      ComponentStorage.remove 0 (registry KLocation (mRegistries world)) = Some s1
      ∧ ComponentStorage.get s1 0 = None
      ∧ vec_at (ComponentStorage.mStorage s1) 0 = Some value_init
      ∧ ComponentStorage.store (mkLocation (pt 9 9)) s1 = Some (0, s2)
      ∧ ComponentStorage.get s2 0 = Some (mkLocation (pt 9 9))
      ∧ ComponentStorage.size s2
        = ComponentStorage.size (registry KLocation (mRegistries world)).
Proof.
  assert (Hv : ComponentStorage.valid (registry KLocation (mRegistries world)) 0 = true)
    by by vm_compute.
  split; [exact Hv|].
  exact (remove_then_store_reuses_slot (registry KLocation (mRegistries world)) 0
           (mkLocation (pt 9 9)) (wf_storage _ world_wf KLocation) Hv).
Defined.

Lemma remove_fails_on_invalid_slot_witness :
  (ComponentStorage.remove 7 (registry KLocation (mRegistries world)) = None
   ↔ ComponentStorage.valid (registry KLocation (mRegistries world)) 7 = false)
  ∧ (∀ s', ComponentStorage.remove 7 (registry KLocation (mRegistries world)) = Some s' →
       ComponentStorage.remove 7 s' = None ∧ ComponentStorage.get s' 7 = None).
Proof.
  exact (remove_fails_on_invalid_slot (registry KLocation (mRegistries world)) 7
           (wf_storage _ world_wf KLocation)).
Defined.

Lemma size_is_capacity_minus_free_witness :
  ∃ s,
    ComponentStorage.run
      [ComponentStorage.Store (mkLocation (pt 1 1));
       ComponentStorage.Store (mkLocation (pt 2 2));
       ComponentStorage.Remove 0] ComponentStorage.empty = Some s
    ∧ vec_size (ComponentStorage.mFreeList s) ≤ vec_size (ComponentStorage.mStorage s)
    ∧ ComponentStorage.size s
      = vec_size (ComponentStorage.mStorage s) - vec_size (ComponentStorage.mFreeList s).
Proof.
  eexists. split; [by vm_compute|].
  eapply (size_is_capacity_minus_free
            [ComponentStorage.Store (mkLocation (pt 1 1));
             ComponentStorage.Store (mkLocation (pt 2 2));
             ComponentStorage.Remove 0]).
  - by vm_compute.
  - by vm_compute.
Defined.

(** ** The interface of the registry *)

Transparent GetComponent HasComponent deref modify upd.

Lemma HasComponent_is_Some k m e b :
  HasComponent k m e = Some b ↔
  ValidEntity m e = true
  ∧ ∃ slot, table_at m e (COMP_TYPE_ID k) = Some slot
            ∧ b = bool_decide (slot ≠ INVALID_COMPONENT_INDEX).
Proof.
  unfold HasComponent. destruct (ValidEntity m e); simpl.
  - destruct (table_at m e (COMP_TYPE_ID k)) as [slot|]; simpl.
    + split.
      * intros [= <-]. split; [done|]. by exists slot.
      * by intros (_ & ? & [= <-] & ->).
    + split; [done|]. by intros (_ & ? & ? & _).
  - split; [done|]. by intros (? & _).
Qed.

Lemma HasComponent_true_owns k m e :
  HasComponent k m e = Some true ↔ ValidEntity m e = true ∧ ∃ slot, owns m e k slot.
Proof.
  rewrite HasComponent_is_Some. split.
  - intros (Hv & slot & Hat & Hb). split; [done|]. exists slot. split; [done|].
    symmetry in Hb. by apply bool_decide_eq_true in Hb.
  - intros (Hv & slot & Hat & Hne). split; [done|]. exists slot. split; [done|].
    by rewrite bool_decide_eq_true_2.
Qed.

Lemma HasComponent_false_cell k m e :
  HasComponent k m e = Some false ↔
  ValidEntity m e = true ∧ table_at m e (COMP_TYPE_ID k) = Some INVALID_COMPONENT_INDEX.
Proof.
  rewrite HasComponent_is_Some. split.
  - intros (Hv & slot & Hat & Hb). split; [done|].
    symmetry in Hb. apply bool_decide_eq_false in Hb. apply dec_stable in Hb. by subst.
  - intros (Hv & Hat). split; [done|]. exists INVALID_COMPONENT_INDEX. split; [done|].
    by rewrite bool_decide_eq_false_2 by (by intros ?).
Qed.

(** What a successful [AddComponent] did. *)
Lemma AddComponent_inv k e (c : comp_type k) m m' :
  AddComponent k e c m = Some m' →
  ValidEntity m e = true
  ∧ table_at m e (COMP_TYPE_ID k) = Some INVALID_COMPONENT_INDEX
  ∧ ∃ new s', ComponentStorage.store c (registry k (mRegistries m)) = Some (new, s')
      ∧ mRegistries m' = set_registry k s' (mRegistries m)
      ∧ mEntities m' = mEntities m ∧ mValid m' = mValid m ∧ mFreeList m' = mFreeList m
      ∧ (∀ e' c', table_at m' e' c' =
           if decide (e' = e ∧ c' = COMP_TYPE_ID k) then Some new else table_at m e' c').
Proof.
  unfold AddComponent.
  destruct (ValidEntity m e) eqn:Hv; simpl; [|done].
  destruct (table_at m e (COMP_TYPE_ID k)) as [compID|] eqn:Hat; simpl; [|done].
  case_bool_decide as Hinv; simpl; [|done]. subst compID.
  destruct (ComponentStorage.store c (registry k (mRegistries m))) as [[new s']|] eqn:Hst;
    simpl; [|done].
  set (m1 := set_mRegistries _ m).
  destruct (table_assign_spec m1 e (COMP_TYPE_ID k) new _ Hat)
    as (m'' & -> & Hents & Hregs & Hfree & Hvl & Hlen & Hrows & Htab).
  intros [= <-]. split_and!; [done|done|]. by exists new, s'.
Qed.

Lemma AddComponent_is_Some k e (c : comp_type k) m :
  wf m → HasComponent k m e = Some false → is_Some (AddComponent k e c m).
Proof.
  intros Hwf [Hv Hat]%HasComponent_false_cell. unfold AddComponent.
  rewrite Hv, Hat. cbn [mbind option_bind assert].
  rewrite bool_decide_eq_true_2 by done. cbn [mbind option_bind assert].
  destruct (storage_store_wf (registry k (mRegistries m)) c (wf_storage _ Hwf k))
    as (new & s' & -> & _). simpl.
  set (m1 := set_mRegistries _ m).
  destruct (table_assign_spec m1 e (COMP_TYPE_ID k) new _ Hat) as (m'' & -> & _). done.
Qed.

Lemma storage_store_id_le {T} `{!ValueInit T} (s : ComponentStorage.t T) v id s' :
  ComponentStorage.store v s = Some (id, s') → id ≤ vec_size (ComponentStorage.mStorage s).
Proof.
  unfold ComponentStorage.store. destruct (back (ComponentStorage.mFreeList s)) as [i|].
  - intros H. simplify_option_eq.
    match goal with H : vec_assign (ComponentStorage.mStorage s) _ _ = Some _ |- _ =>
      apply vec_assign_Some in H as [? _] end. lia.
  - intros [= <- <-]. lia.
Qed.

Lemma GetComponent_frame k m m' e :
  ValidEntity m' e = ValidEntity m e →
  table_at m' e (COMP_TYPE_ID k) = table_at m e (COMP_TYPE_ID k) →
  (∀ r, table_at m e (COMP_TYPE_ID k) = Some r →
     ComponentStorage.valid (registry k (mRegistries m')) r
     = ComponentStorage.valid (registry k (mRegistries m)) r) →
  GetComponent k m' e = GetComponent k m e.
Proof.
  intros Hv Ht Hr. unfold GetComponent. rewrite Hv, Ht.
  destruct (ValidEntity m e); simpl; [|done].
  destruct (table_at m e (COMP_TYPE_ID k)) as [r|]; simpl; [|done].
  by rewrite (Hr r).
Qed.

Lemma component_frame k m m' e :
  HasComponent k m' e = HasComponent k m e →
  GetComponent k m' e = GetComponent k m e →
  (∀ r, GetComponent k m e = Some r → deref k m' r = deref k m r) →
  component k m' e = component k m e.
Proof.
  intros Hh Hg Hd. unfold component. rewrite Hh, Hg.
  destruct (HasComponent k m e) as [[]|]; [|done|done].
  destruct (GetComponent k m e) as [r|] eqn:Hr; simpl; [|done]. by apply Hd.
Qed.

Lemma component_absent k m e : HasComponent k m e ≠ Some true → component k m e = None.
Proof. unfold component. by destruct (HasComponent k m e) as [[]|]. Qed.

(** In a well-formed registry the component of an entity is the content
    of the slot the entity owns. *)
Lemma component_Some k m e x :
  wf m →
  component k m e = Some x ↔ ∃ r, owns m e k r ∧ deref k m r = Some x.
Proof.
  intros Hwf. unfold component. split.
  - destruct (HasComponent k m e) as [[]|] eqn:Hh; [|done|done].
    apply HasComponent_true_owns in Hh as (Hv & r & Ho).
    rewrite (owns_GetComponent m e k r Hwf Ho). simpl. intros Hx. by exists r.
  - intros (r & Ho & Hx). rewrite (owns_HasComponent m e k r Hwf Ho).
    rewrite (owns_GetComponent m e k r Hwf Ho). done.
Qed.

Lemma HasComponent_frame k m m' e :
  ValidEntity m' e = ValidEntity m e →
  table_at m' e (COMP_TYPE_ID k) = table_at m e (COMP_TYPE_ID k) →
  HasComponent k m' e = HasComponent k m e.
Proof. intros Hv Ht. unfold HasComponent. by rewrite Hv, Ht. Qed.

Lemma AddComponent_adds k e (c : comp_type k) m :
  wf m → HasComponent k m e = Some false →
  vec_size (ComponentStorage.mStorage (registry k (mRegistries m))) < SIZE_MAX →
  ∃ m', AddComponent k e c m = Some m' ∧ wf m'
    ∧ HasComponent k m' e = Some true
    ∧ component k m' e = Some c
    ∧ (∀ e' k', e' ≠ e ∨ k' ≠ k →
         HasComponent k' m' e' = HasComponent k' m e'
         ∧ component k' m' e' = component k' m e').
Proof.
  intros Hwf Hhas Hfit.
  destruct (AddComponent_is_Some k e c m Hwf Hhas) as [m' Hadd].
  destruct (AddComponent_spec k e c m m' Hwf Hadd) as (Hwf' & (slot & Hslot & Hc) & Hold & _).
  destruct (AddComponent_inv k e c m m' Hadd)
    as (Hv & Hcell & new & s' & Hst & Hregs & Hents & Hvl & Hfl & Htab).
  assert (Hnew : new ≠ INVALID_COMPONENT_INDEX).
  { apply storage_store_id_le in Hst. unfold INVALID_COMPONENT_INDEX. lia. }
  assert (slot = new) as ->.
  { rewrite Htab, decide_True in Hslot by done. by simplify_eq. }
  assert (Hve : ∀ e', ValidEntity m' e' = ValidEntity m e').
  { intros e'. unfold ValidEntity. by rewrite Hvl. }
  destruct (storage_store_wf (registry k (mRegistries m)) c (wf_storage _ Hwf k))
    as (new' & s'' & Hst' & _ & Hfresh & Hv' & _ & Hvalid & _ & Hcontent).
  rewrite Hst in Hst'. symmetry in Hst'. simplify_eq.
  exists m'. split_and!; [done|done| | |].
  - apply HasComponent_true_owns. split; [by rewrite Hve|]. by exists new.
  - apply (component_Some k m' e c Hwf'). by exists new.
  - intros e' k' Hne.
    assert (Htab' : table_at m' e' (COMP_TYPE_ID k') = table_at m e' (COMP_TYPE_ID k')).
    { rewrite Htab. rewrite decide_False; [done|].
      intros [-> ->%COMP_TYPE_ID_inj]. by destruct Hne. }
    split; [by apply HasComponent_frame|].
    assert (Hregs' : ∀ r, r ≠ new ∨ k' ≠ k →
      ComponentStorage.valid (registry k' (mRegistries m')) r
      = ComponentStorage.valid (registry k' (mRegistries m)) r
      ∧ deref k' m' r = deref k' m r).
    { intros r Hr. unfold deref. rewrite Hregs. destruct (decide (k = k')) as [<-|Hk].
      - rewrite registry_set_eq. destruct Hr as [Hr|Hr]; [|done].
        split; [by apply Hvalid|by apply Hcontent].
      - by rewrite registry_set_ne. }
    assert (Hcellne : ∀ r, table_at m e' (COMP_TYPE_ID k') = Some r → r ≠ new ∨ k' ≠ k).
    { intros r Hr. destruct (decide (k' = k)) as [->|]; [|by right]. left. intros ->.
      pose proof (wf_slot_valid _ Hwf e' k new (conj Hr Hnew)). congruence. }
    apply component_frame.
    + by apply HasComponent_frame.
    + apply GetComponent_frame; [done|done|]. intros r Hr. by apply Hregs', Hcellne.
    + intros r (_ & Hr & _)%GetComponent_Some. by apply Hregs', Hcellne.
Qed.

(** X7. In a well-formed registry [AddComponent] fails an assertion in
    exactly two cases: the entity is not valid, or it already has a
    component of that type. *)
Theorem AddComponent_fails_iff k e (c : comp_type k) m :
  wf m →
  AddComponent k e c m = None ↔ ValidEntity m e = false ∨ HasComponent k m e = Some true.
Proof.
  intros Hwf. split.
  - intros Hnone. destruct (ValidEntity m e) eqn:Hv; [right|by left].
    destruct (table_at_is_Some m e k Hwf Hv) as [slot Hslot].
    rewrite (HasComponent_Some k m e slot Hv Hslot). f_equal.
    case_bool_decide as Hd; [done|]. subst slot.
    destruct (AddComponent_is_Some k e c m Hwf) as [m' Hm']; [|congruence].
    by apply HasComponent_false_cell.
  - intros [Hv|Hhas]; unfold AddComponent.
    + by rewrite Hv.
    + apply HasComponent_true_owns in Hhas as (Hv & slot & Hat & Hne).
      rewrite Hv, Hat. simpl. by rewrite bool_decide_eq_false_2.
Qed.

(** *** Removing a component *)

Lemma RemoveComponent_as_step k e m :
  ValidEntity m e = true →
  RemoveComponent k e m = RemoveEntity_step e m (COMP_TYPE_ID k).
Proof.
  intros Hv. unfold RemoveComponent, RemoveEntity_step, RemoveComponentByIndex.
  rewrite Hv, find_kind. cbn [negb].
  destruct (table_at m e (COMP_TYPE_ID k)) as [slot|]; simpl; [|done].
  destruct (decide (slot ≠ INVALID_COMPONENT_INDEX)); [|done].
  by destruct (ComponentStorage.remove slot (registry k (mRegistries m))).
Qed.

Lemma RemoveEntity_step_inv e k m m' :
  RemoveEntity_step e m (COMP_TYPE_ID k) = Some m' →
  ∃ slot, table_at m e (COMP_TYPE_ID k) = Some slot
    ∧ mEntities m' = mEntities m ∧ mValid m' = mValid m ∧ mFreeList m' = mFreeList m
    ∧ (∀ k', k' ≠ k → registry k' (mRegistries m') = registry k' (mRegistries m))
    ∧ (if decide (slot ≠ INVALID_COMPONENT_INDEX)
       then ComponentStorage.remove slot (registry k (mRegistries m))
            = Some (registry k (mRegistries m'))
       else m' = m)
    ∧ (∀ e' c', table_at m' e' c' =
         if decide (e' = e ∧ c' = COMP_TYPE_ID k) then Some INVALID_COMPONENT_INDEX
         else table_at m e' c').
Proof.
  unfold RemoveEntity_step, RemoveComponentByIndex. rewrite find_kind.
  destruct (table_at m e (COMP_TYPE_ID k)) as [slot|] eqn:Hat; simpl; [|done].
  destruct (decide (slot ≠ INVALID_COMPONENT_INDEX)) as [Hne|Heq%dec_stable].
  - destruct (ComponentStorage.remove slot (registry k (mRegistries m))) as [s'|] eqn:Hrm;
      simpl; [|done].
    set (m1 := set_mRegistries _ m).
    destruct (table_assign_spec m1 e (COMP_TYPE_ID k) INVALID_COMPONENT_INDEX slot Hat)
      as (m'' & -> & Hents & Hregs & Hfree & Hvl & Hlen & Hrows & Htab).
    intros [= <-]. exists slot. rewrite decide_True by done. split_and!; try done.
    + intros k' Hk. rewrite Hregs. unfold m1. simpl. by rewrite registry_set_ne.
    + rewrite Hregs. unfold m1. simpl. by rewrite registry_set_eq.
  - intros [= <-]. exists slot. rewrite decide_False by (by intros ?).
    split_and!; try done.
    intros e' c'. case_decide as Hd; [|done]. destruct Hd as [-> ->]. by rewrite Hat, Heq.
Qed.

Lemma storage_remove_inv {T} `{!ValueInit T} (s s' : ComponentStorage.t T) id :
  ComponentStorage.remove id s = Some s' →
  ComponentStorage.valid s id = true
  ∧ (∀ j, j ≠ id → ComponentStorage.valid s' j = ComponentStorage.valid s j
                   ∧ vec_at (ComponentStorage.mStorage s') j
                     = vec_at (ComponentStorage.mStorage s) j).
Proof.
  intros Hrm. pose proof (storage_remove_Some_valid _ _ _ Hrm) as Hv. split; [done|].
  unfold ComponentStorage.remove in Hrm. rewrite Hv in Hrm. simpl in Hrm.
  destruct (vec_assign (ComponentStorage.mValid s) id false) as [vl|] eqn:Hvl;
    simpl in Hrm; [|done].
  destruct (vec_assign (ComponentStorage.mStorage s) id value_init) as [st|] eqn:Hst;
    simpl in Hrm; [|done].
  injection Hrm as <-.
  apply vec_assign_Some in Hvl as [_ ->]. apply vec_assign_Some in Hst as [_ ->].
  intros j Hj. split.
  - apply eq_true_iff_eq. rewrite !storage_valid_spec. simpl.
    by rewrite vec_at_assign_ne.
  - simpl. by rewrite vec_at_assign_ne.
Qed.

(** After one step of the component loop on entity [e] and type [k],
    what every other (entity, type) pair sees is unchanged. *)
Lemma RemoveEntity_step_others e k m m' :
  wf m → RemoveEntity_step e m (COMP_TYPE_ID k) = Some m' →
  ∀ e' k', e' ≠ e ∨ k' ≠ k →
    HasComponent k' m' e' = HasComponent k' m e'
    ∧ component k' m' e' = component k' m e'.
Proof.
  intros Hwf Hstep e' k' Hne.
  destruct (RemoveEntity_step_inv _ _ _ _ Hstep)
    as (slot & Hat & Hents & Hvl & Hfl & Hother & Hreg & Htab).
  assert (Hve : ValidEntity m' e' = ValidEntity m e').
  { unfold ValidEntity. by rewrite Hvl. }
  assert (Htab' : table_at m' e' (COMP_TYPE_ID k') = table_at m e' (COMP_TYPE_ID k')).
  { rewrite Htab. rewrite decide_False; [done|].
    intros [-> ->%COMP_TYPE_ID_inj]. by destruct Hne. }
  split; [by apply HasComponent_frame|].
  destruct (decide (slot ≠ INVALID_COMPONENT_INDEX)) as [Hslot|]; [|by subst].
  assert (Hregs' : ∀ r, table_at m e' (COMP_TYPE_ID k') = Some r →
      ComponentStorage.valid (registry k' (mRegistries m')) r
      = ComponentStorage.valid (registry k' (mRegistries m)) r
      ∧ deref k' m' r = deref k' m r).
  { intros r Hr. unfold deref. destruct (decide (k' = k)) as [->|Hk].
    - apply storage_remove_inv in Hreg as [_ Hreg]. apply Hreg. intros ->.
      destruct Hne as [Hne|]; [|done]. apply Hne.
      by apply (wf_slot_inj _ Hwf e' e k slot).
    - by rewrite Hother. }
  apply component_frame.
  - by apply HasComponent_frame.
  - apply GetComponent_frame; [done|done|]. intros r Hr. by apply Hregs'.
  - intros r (_ & Hr & _)%GetComponent_Some. by apply Hregs'.
Qed.

Lemma storage_remove_length {T} `{!ValueInit T} (s s' : ComponentStorage.t T) id :
  ComponentStorage.remove id s = Some s' →
  length (ComponentStorage.mStorage s') = length (ComponentStorage.mStorage s).
Proof.
  unfold ComponentStorage.remove. intros H. simplify_option_eq.
  match goal with H : vec_assign (ComponentStorage.mStorage s) _ _ = Some _ |- _ =>
    apply vec_assign_Some in H as [_ ->] end.
  by rewrite length_insert.
Qed.

Lemma RemoveComponent_removes k e m :
  wf m → HasComponent k m e = Some true →
  ∃ m', RemoveComponent k e m = Some m' ∧ wf m'
    ∧ HasComponent k m' e = Some false
    ∧ component k m' e = None
    ∧ (∀ e' k', e' ≠ e ∨ k' ≠ k →
         HasComponent k' m' e' = HasComponent k' m e'
         ∧ component k' m' e' = component k' m e')
    ∧ (∃ slot, owns m e k slot
         ∧ ComponentStorage.remove slot (registry k (mRegistries m))
           = Some (registry k (mRegistries m')))
    ∧ (∀ k', k' ≠ k → registry k' (mRegistries m') = registry k' (mRegistries m)).
Proof.
  intros Hwf Hhas. pose proof Hhas as (Hv & slot0 & Howns)%HasComponent_true_owns.
  rewrite (RemoveComponent_as_step k e m Hv).
  destruct (RemoveEntity_step_spec m e k Hwf Hv) as (m' & Hstep & Hwf' & Hfr & Hcell & _).
  destruct (RemoveEntity_step_inv _ _ _ _ Hstep)
    as (slot & Hat & _ & _ & _ & Hother & Hreg & _).
  assert (slot = slot0) as -> by (destruct Howns; congruence).
  rewrite decide_True in Hreg by by destruct Howns.
  assert (Hv' : ValidEntity m' e = true).
  { unfold ValidEntity in *. by rewrite (frame_valid _ _ _ Hfr). }
  exists m'. split_and!; [done|done| | | | |done].
  - by apply HasComponent_false_cell.
  - apply component_absent. by rewrite (proj2 (HasComponent_false_cell k m' e)).
  - by apply RemoveEntity_step_others.
  - by exists slot0.
Qed.

(** X8. Removing a component that an entity has succeeds and keeps the
    registry well-formed.  Afterwards [HasComponent] is false for it and
    the component cannot be obtained, while every other component of
    every entity is present and reads as before. *)
Theorem RemoveComponent_then_HasComponent k e m :
  wf m → HasComponent k m e = Some true →
  ∃ m', RemoveComponent k e m = Some m' ∧ wf m'
    ∧ HasComponent k m' e = Some false
    ∧ component k m' e = None
    ∧ (∀ e' k', e' ≠ e ∨ k' ≠ k →
         HasComponent k' m' e' = HasComponent k' m e'
         ∧ component k' m' e' = component k' m e').
Proof.
  intros Hwf Hhas.
  destruct (RemoveComponent_removes k e m Hwf Hhas) as (m' & ? & ? & ? & ? & ? & _).
  by exists m'.
Qed.

(** X9. [RemoveComponent] on an entity that is not valid, or that does
    not have the component, returns without changing the registry. *)
Theorem RemoveComponent_absent_is_noop k e m :
  wf m → HasComponent k m e ≠ Some true → RemoveComponent k e m = Some m.
Proof.
  intros Hwf Hnot. unfold RemoveComponent.
  destruct (ValidEntity m e) eqn:Hv; [|done]. cbn [negb].
  destruct (table_at_is_Some m e k Hwf Hv) as [slot Hslot]. rewrite Hslot. simpl.
  destruct (decide (slot ≠ INVALID_COMPONENT_INDEX)) as [Hne|]; [|done].
  destruct Hnot. apply HasComponent_true_owns. split; [done|]. by exists slot.
Qed.

Lemma storage_store_length {T} `{!ValueInit T} (s s' : ComponentStorage.t T) v id :
  ComponentStorage.store v s = Some (id, s') →
  (length (ComponentStorage.mStorage s') ≤ S (length (ComponentStorage.mStorage s)))%nat.
Proof.
  unfold ComponentStorage.store. destruct (back (ComponentStorage.mFreeList s)) as [i|].
  - intros H. simplify_option_eq.
    match goal with H : vec_assign (ComponentStorage.mStorage s) _ _ = Some _ |- _ =>
      apply vec_assign_Some in H as [_ ->] end.
    rewrite length_insert. lia.
  - intros [= <- <-]. simpl. unfold push_back. rewrite length_app. simpl. lia.
Qed.

(** X10. Adding a component to an entity that lacks it and removing it
    again restores what the interface shows: for every entity and type,
    [HasComponent], the component read, and the [size()] of the storage
    are as before the two calls. *)
Theorem AddComponent_then_RemoveComponent k e (c : comp_type k) m :
  wf m → storage_fits k m → HasComponent k m e = Some false →
  ∃ m1 m2, AddComponent k e c m = Some m1 ∧ RemoveComponent k e m1 = Some m2
    ∧ wf m2
    ∧ (∀ e' k', HasComponent k' m2 e' = HasComponent k' m e'
                ∧ component k' m2 e' = component k' m e'
                ∧ ComponentStorage.size (registry k' (mRegistries m2))
                  = ComponentStorage.size (registry k' (mRegistries m))).
Proof.
  intros Hwf Hfit Hhas.
  destruct (AddComponent_is_Some k e c m Hwf Hhas) as [m1 Hadd].
  destruct (AddComponent_spec k e c m m1 Hwf Hadd) as (Hwf1 & (slot & Hslot & Hc) & Hold & _).
  destruct (AddComponent_inv k e c m m1 Hadd)
    as (Hv & Hcell & new & s' & Hst & Hregs & Hents & Hvl & Hfl & Htab).
  assert (Hnew : new ≠ INVALID_COMPONENT_INDEX).
  { apply storage_store_id_le in Hst. unfold INVALID_COMPONENT_INDEX, storage_fits in *. lia. }
  assert (slot = new) as ->.
  { rewrite Htab, decide_True in Hslot by done. by simplify_eq. }
  assert (Hhas1 : HasComponent k m1 e = Some true).
  { apply HasComponent_true_owns. split; [|by exists new].
    unfold ValidEntity in *. by rewrite Hvl. }
  assert (Hreg1 : registry k (mRegistries m1) = s').
  { by rewrite Hregs, registry_set_eq. }
  destruct (RemoveComponent_removes k e m1 Hwf1 Hhas1)
    as (m2 & Hrm & Hwf2 & Hhas2 & Hcomp2 & Hfr2 & (slot' & Ho' & Hreg2) & Hreg2').
  assert (slot' = new) as -> by (destruct Ho'; congruence).
  exists m1, m2. split_and!; [done|done|done|].
  destruct (AddComponent_adds k e c m Hwf Hhas Hfit)
    as (m1' & Hadd' & _ & _ & _ & Hfr1).
  rewrite Hadd in Hadd'. injection Hadd' as <-.
  intros e' k'. destruct (decide (e' = e ∧ k' = k)) as [[-> ->]|Hne].
  - split_and!.
    + by rewrite Hhas2, Hhas.
    + rewrite Hcomp2. symmetry. apply component_absent. by rewrite Hhas.
    + unfold ComponentStorage.size.
      rewrite (ComponentStorage.wf_count _ (wf_storage _ Hwf2 k)),
              (ComponentStorage.wf_count _ (wf_storage _ Hwf k)). f_equal. f_equal.
      destruct (storage_store_wf (registry k (mRegistries m)) c (wf_storage _ Hwf k))
        as (new' & s'' & Hst' & Hwfs & _ & Hvs & Hcs & _).
      rewrite Hst in Hst'. injection Hst' as <- <-.
      destruct (storage_remove_wf s' new Hwfs Hvs) as (s2 & Hs2 & _ & _ & Hc2 & _).
      rewrite Hreg1, Hs2 in Hreg2. injection Hreg2 as ->. lia.
  - assert (Hne' : e' ≠ e ∨ k' ≠ k).
    { destruct (decide (e' = e)) as [->|]; [|by left]. right. intros ->. by apply Hne. }
    destruct (Hfr1 e' k' Hne') as [Hh1 Hc1]. destruct (Hfr2 e' k' Hne') as [Hh2 Hc2].
    split_and!; [congruence|congruence|].
    destruct (decide (k' = k)) as [->|Hk].
    + unfold ComponentStorage.size.
      rewrite (ComponentStorage.wf_count _ (wf_storage _ Hwf2 k)),
              (ComponentStorage.wf_count _ (wf_storage _ Hwf k)). f_equal. f_equal.
      destruct (storage_store_wf (registry k (mRegistries m)) c (wf_storage _ Hwf k))
        as (new' & s'' & Hst' & Hwfs & _ & Hvs & Hcs & _).
      rewrite Hst in Hst'. injection Hst' as <- <-.
      destruct (storage_remove_wf s' new Hwfs Hvs) as (s2 & Hs2 & _ & _ & Hcnt2 & _).
      rewrite Hreg1, Hs2 in Hreg2. injection Hreg2 as ->. lia.
    + rewrite Hreg2' by done. by rewrite Hregs, registry_set_ne.
Qed.

(** X11. Adding a component to a valid entity that lacks it succeeds and
    keeps the registry well-formed.  Afterwards [HasComponent] is true and
    [GetComponent] gives the component that was added, while every other
    component of every entity is present and reads as before. *)
Theorem AddComponent_then_GetComponent k e (c : comp_type k) m :
  wf m → storage_fits k m → HasComponent k m e = Some false →
  ∃ m', AddComponent k e c m = Some m' ∧ wf m'
    ∧ HasComponent k m' e = Some true
    ∧ component k m' e = Some c
    ∧ (∀ e' k', e' ≠ e ∨ k' ≠ k →
         HasComponent k' m' e' = HasComponent k' m e'
         ∧ component k' m' e' = component k' m e').
Proof. intros Hwf Hfit Hhas. by apply AddComponent_adds. Qed.

(** *** Creating and destroying entities *)

Lemma CreateEntity_entities name m a m' :
  wf m → CreateEntity name m = Some (a, m') →
  ∀ e, e ≠ a → vec_at (mEntities m') e = vec_at (mEntities m) e.
Proof.
  intros Hwf. unfold CreateEntity. destruct (back (mFreeList m)) as [ret|].
  - intros H. simplify_option_eq.
    match goal with H : vec_assign (mEntities m) _ _ = Some _ |- _ =>
      apply vec_assign_Some in H as [_ ->] end.
    intros e He. simpl. by rewrite vec_at_assign_ne.
  - intros [= <- <-] e He. simpl. apply vec_at_push_back_ne.
    unfold vec_size in *. by rewrite (wf_entities_length _ Hwf), <- (wf_table_length _ Hwf).
Qed.

Lemma GetEntityName_frame m m' e :
  ValidEntity m' e = ValidEntity m e → vec_at (mEntities m') e = vec_at (mEntities m) e →
  GetEntityName m' e = GetEntityName m e.
Proof. unfold GetEntityName. by intros -> ->. Qed.

(** X12. [CreateEntity] on a well-formed registry returns an identifier
    that was not valid before and is valid afterwards.  The new entity has
    the given name and no component of any type, and the existing entities
    keep their validity, names and components. *)
Theorem CreateEntity_fresh name m :
  wf m →
  ∃ a m', CreateEntity name m = Some (a, m') ∧ wf m'
    ∧ ValidEntity m a = false ∧ ValidEntity m' a = true
    ∧ GetEntityName m' a = Some name
    ∧ (∀ k, HasComponent k m' a = Some false)
    ∧ (∀ e, e ≠ a →
         ValidEntity m' e = ValidEntity m e
         ∧ GetEntityName m' e = GetEntityName m e
         ∧ ∀ k, HasComponent k m' e = HasComponent k m e
                ∧ component k m' e = component k m e).
Proof.
  intros Hwf.
  destruct (CreateEntity_spec name m Hwf)
    as (a & m' & Hcr & Hwf' & Hold & Hnew & _ & _ & Hent & Hrow & Hvalid & Hregs & Htab).
  exists a, m'. split_and!; try done.
  - unfold GetEntityName. by rewrite Hnew, Hent.
  - intros k. by apply HasComponent_false_cell.
  - intros e He. split_and!; [by apply Hvalid| |].
    + apply GetEntityName_frame; [by apply Hvalid|].
      by apply (CreateEntity_entities name m a m').
    + intros k. split; [apply HasComponent_frame; [by apply Hvalid|by apply Htab]|].
      apply component_frame.
      * apply HasComponent_frame; [by apply Hvalid|by apply Htab].
      * apply GetComponent_frame; [by apply Hvalid|by apply Htab|]. intros r _.
        by rewrite Hregs.
      * intros r _. unfold deref. by rewrite Hregs.
Qed.

(** The storages after the component loop of [RemoveEntity]. *)
Lemma RemoveEntity_loop_regs m e (ks : list CompKind) m' :
  wf m → ValidEntity m e = true → NoDup ks →
  for_each (λ m' k, RemoveEntity_step e m' (COMP_TYPE_ID k)) ks m = Some m' →
  (∀ k, k ∉ ks → registry k (mRegistries m') = registry k (mRegistries m))
  ∧ (∀ k slot, k ∈ ks → table_at m e (COMP_TYPE_ID k) = Some slot →
       if decide (slot ≠ INVALID_COMPONENT_INDEX)
       then ComponentStorage.remove slot (registry k (mRegistries m))
            = Some (registry k (mRegistries m'))
       else registry k (mRegistries m') = registry k (mRegistries m)).
Proof.
  intros Hwf Hv Hnd. revert m Hwf Hv. induction Hnd as [|k0 ks Hnotin Hnd IH];
    intros m Hwf Hv; simpl.
  - intros [= <-]. split; [done|]. by intros k slot ?%elem_of_nil.
  - destruct (RemoveEntity_step_spec m e k0 Hwf Hv)
      as (m1 & Hstep & Hwf1 & Hfr1 & Hk & Hother). rewrite Hstep. simpl.
    assert (Hv1 : ValidEntity m1 e = true).
    { unfold ValidEntity in *. by rewrite (frame_valid _ _ _ Hfr1). }
    intros Hloop. destruct (IH m1 Hwf1 Hv1 Hloop) as [Hout Hin].
    destruct (RemoveEntity_step_inv _ _ _ _ Hstep)
      as (slot0 & Hat0 & _ & _ & _ & Hregs0 & Hreg0 & _).
    split.
    + intros k [Hne Hk']%not_elem_of_cons. rewrite Hout by done. by apply Hregs0.
    + intros k slot [->|Hk']%elem_of_cons Hat.
      * rewrite Hout by done. rewrite Hat in Hat0. injection Hat0 as <-.
        destruct (decide (slot ≠ INVALID_COMPONENT_INDEX)); [done|by subst].
      * assert (k ≠ k0) as Hne by (by intros ->).
        specialize (Hin k slot Hk'). rewrite (Hother k Hne) in Hin.
        rewrite (Hregs0 k Hne) in Hin. by apply Hin.
Qed.

Lemma NoDup_all_kinds : NoDup all_kinds.
Proof. apply (bool_decide_unpack _). by vm_compute. Qed.

Lemma RemoveEntity_regs m e m' :
  wf m → ValidEntity m e = true → RemoveEntity e m = Some m' →
  ∀ k slot, table_at m e (COMP_TYPE_ID k) = Some slot →
    if decide (slot ≠ INVALID_COMPONENT_INDEX)
    then ComponentStorage.remove slot (registry k (mRegistries m))
         = Some (registry k (mRegistries m'))
    else registry k (mRegistries m') = registry k (mRegistries m).
Proof.
  intros Hwf Hv. unfold RemoveEntity, for_range.
  rewrite Hv, kinds_range, for_each_fmap. cbn [negb].
  destruct (for_each _ all_kinds m) as [m1|] eqn:Hloop; simpl; [|done].
  destruct (vec_assign (mEntities m1) e _) as [es|]; simpl; [|done].
  destruct (vec_assign (mValid m1) e false) as [vl|]; simpl; [|done].
  intros [= <-] k slot Hat. simpl.
  destruct (RemoveEntity_loop_regs m e all_kinds m1 Hwf Hv NoDup_all_kinds Hloop) as [_ Hin].
  apply (Hin k slot (elem_of_all_kinds k) Hat).
Qed.

(** X13. Destroying a valid entity succeeds and keeps the registry
    well-formed.  The identifier is then invalid: it has no name, and
    [HasComponent], [GetComponent] and [AddComponent] all fail their
    assertion on it.  Every slot the entity owned was removed from the
    storage of its type, and the storages of the types it did not have
    are untouched. *)
Theorem RemoveEntity_releases_components m e :
  wf m → ValidEntity m e = true →
  ∃ m', RemoveEntity e m = Some m' ∧ wf m'
    ∧ ValidEntity m' e = false
    ∧ GetEntityName m' e = None
    ∧ (∀ k, HasComponent k m' e = None ∧ GetComponent k m' e = None
            ∧ ∀ c, AddComponent k e c m' = None)
    ∧ (∀ k slot, owns m e k slot →
         ComponentStorage.remove slot (registry k (mRegistries m))
         = Some (registry k (mRegistries m'))
         ∧ ComponentStorage.valid (registry k (mRegistries m')) slot = false)
    ∧ (∀ k, HasComponent k m e = Some false →
         registry k (mRegistries m') = registry k (mRegistries m)).
Proof.
  intros Hwf Hv. destruct (RemoveEntity_spec m e Hwf Hv) as (m' & Hrm & Hwf' & Hdead & _).
  pose proof (RemoveEntity_regs m e m' Hwf Hv Hrm) as Hregs.
  exists m'. split_and!; [done|done|done| | | |].
  - unfold GetEntityName. by rewrite Hdead.
  - intros k. unfold HasComponent, GetComponent, AddComponent. by rewrite Hdead.
  - intros k slot [Hat Hne]. specialize (Hregs k slot Hat).
    rewrite decide_True in Hregs by done. split; [done|].
    by destruct (storage_remove_slot _ _ _ Hregs) as (_ & _ & ?).
  - intros k [_ Hat]%HasComponent_false_cell. specialize (Hregs k _ Hat).
    by rewrite decide_False in Hregs by (by intros ?).
Qed.

(** X14. Destroying an entity changes nothing for any other entity:
    its validity, its name, and the presence and content of each of its
    components are as before. *)
Theorem RemoveEntity_keeps_others m e m' :
  wf m → RemoveEntity e m = Some m' →
  ∀ e', e' ≠ e →
    ValidEntity m' e' = ValidEntity m e'
    ∧ GetEntityName m' e' = GetEntityName m e'
    ∧ ∀ k, HasComponent k m' e' = HasComponent k m e'
           ∧ component k m' e' = component k m e'.
Proof.
  intros Hwf Hrm e' Hne. destruct (ValidEntity m e) eqn:Hv; cycle 1.
  { unfold RemoveEntity in Hrm. rewrite Hv in Hrm. by simplify_eq/=. }
  destruct (RemoveEntity_spec m e Hwf Hv)
    as (m'' & Hrm' & Hwf' & Hdead & _ & Hvalid & Hents & Htab & Hderef).
  rewrite Hrm in Hrm'. injection Hrm' as <-.
  pose proof (RemoveEntity_regs m e m' Hwf Hv Hrm) as Hregs.
  split_and!; [by apply Hvalid| |].
  - apply GetEntityName_frame; [by apply Hvalid|by apply Hents].
  - intros k. split; [apply HasComponent_frame; [by apply Hvalid|by apply Htab]|].
    destruct (table_at_is_Some m e k Hwf Hv) as [slot Hslot].
    specialize (Hregs k slot Hslot).
    assert (Hr : ∀ r, table_at m e' (COMP_TYPE_ID k) = Some r →
      ComponentStorage.valid (registry k (mRegistries m')) r
      = ComponentStorage.valid (registry k (mRegistries m)) r
      ∧ deref k m' r = deref k m r).
    { intros r Hr. unfold deref.
      destruct (decide (slot ≠ INVALID_COMPONENT_INDEX)) as [Hs|]; [|by rewrite Hregs].
      apply storage_remove_inv in Hregs as [_ Hregs]. apply Hregs. intros ->.
      apply Hne. by apply (wf_slot_inj _ Hwf e' e k slot). }
    apply component_frame.
    + apply HasComponent_frame; [by apply Hvalid|by apply Htab].
    + apply GetComponent_frame; [by apply Hvalid|by apply Htab|].
      intros r Hat. by apply Hr.
    + intros r (_ & Hat & _)%GetComponent_Some. by apply Hr.
Qed.


Lemma COMP_TYPE_ID_is_Pack_index (k : CompKind) :
  Pack_index k all_kinds = Z.of_N (COMP_TYPE_ID k)
  ∧ Pack_size all_kinds = Z.of_N NUM_COMPONENTS.
Proof. by destruct k. Qed.

(** The ground of [world] (entity 3) has a location and no movement; the
    star is entity 4. *)
Lemma AddComponent_fails_iff_witness :
  AddComponent KLocation 3 (mkLocation (pt 9 9)) world = None
  ↔ ValidEntity world 3 = false ∨ HasComponent KLocation world 3 = Some true.
Proof. exact (AddComponent_fails_iff KLocation 3 (mkLocation (pt 9 9)) world world_wf). Defined.

Lemma RemoveComponent_then_HasComponent_witness :
  HasComponent KLocation world 3 = Some true
  ∧ ∃ m', RemoveComponent KLocation 3 world = Some m' ∧ wf m'
      ∧ HasComponent KLocation m' 3 = Some false
      ∧ component KLocation m' 3 = None
      ∧ (∀ e' k', e' ≠ 3 ∨ k' ≠ KLocation →
           HasComponent k' m' e' = HasComponent k' world e'
           ∧ component k' m' e' = component k' world e').
Proof.
  assert (Hhas : HasComponent KLocation world 3 = Some true) by by vm_compute.
  exact (conj Hhas (RemoveComponent_then_HasComponent KLocation 3 world world_wf Hhas)).
Defined.

Lemma RemoveComponent_absent_is_noop_witness :
  HasComponent KMovement world 3 ≠ Some true
  ∧ RemoveComponent KMovement 3 world = Some world.
Proof.
  assert (Hnot : HasComponent KMovement world 3 ≠ Some true) by by vm_compute.
  exact (conj Hnot (RemoveComponent_absent_is_noop KMovement 3 world world_wf Hnot)).
Defined.

Lemma AddComponent_then_RemoveComponent_witness :
  storage_fits KMovement world ∧ HasComponent KMovement world 3 = Some false
  ∧ ∃ m1 m2,
      AddComponent KMovement 3 (mkMovement (pt 1 2) (F32.of_int 300)) world = Some m1
      ∧ RemoveComponent KMovement 3 m1 = Some m2
      ∧ wf m2
      ∧ (∀ e' k', HasComponent k' m2 e' = HasComponent k' world e'
                  ∧ component k' m2 e' = component k' world e'
                  ∧ ComponentStorage.size (registry k' (mRegistries m2))
                    = ComponentStorage.size (registry k' (mRegistries world))).
Proof.
  assert (Hfit : storage_fits KMovement world) by by vm_compute.
  assert (Hhas : HasComponent KMovement world 3 = Some false) by by vm_compute.
  exact (conj Hfit (conj Hhas
           (AddComponent_then_RemoveComponent KMovement 3
              (mkMovement (pt 1 2) (F32.of_int 300)) world world_wf Hfit Hhas))).
Defined.

Lemma AddComponent_then_GetComponent_witness :
  storage_fits KMovement world ∧ HasComponent KMovement world 3 = Some false
  ∧ ∃ m',
      AddComponent KMovement 3 (mkMovement (pt 1 2) (F32.of_int 300)) world = Some m'
      ∧ wf m'
      ∧ HasComponent KMovement m' 3 = Some true
      ∧ component KMovement m' 3 = Some (mkMovement (pt 1 2) (F32.of_int 300))
      ∧ (∀ e' k', e' ≠ 3 ∨ k' ≠ KMovement →
           HasComponent k' m' e' = HasComponent k' world e'
           ∧ component k' m' e' = component k' world e').
Proof.
  assert (Hfit : storage_fits KMovement world) by by vm_compute.
  assert (Hhas : HasComponent KMovement world 3 = Some false) by by vm_compute.
  exact (conj Hfit (conj Hhas
           (AddComponent_then_GetComponent KMovement 3
              (mkMovement (pt 1 2) (F32.of_int 300)) world world_wf Hfit Hhas))).
Defined.

Lemma CreateEntity_fresh_witness :
  ∃ a m', CreateEntity "cloud" world = Some (a, m') ∧ wf m'
    ∧ ValidEntity world a = false ∧ ValidEntity m' a = true
    ∧ GetEntityName m' a = Some "cloud"%string
    ∧ (∀ k, HasComponent k m' a = Some false)
    ∧ (∀ e, e ≠ a →
         ValidEntity m' e = ValidEntity world e
         ∧ GetEntityName m' e = GetEntityName world e
         ∧ ∀ k, HasComponent k m' e = HasComponent k world e
                ∧ component k m' e = component k world e).
Proof. exact (CreateEntity_fresh "cloud" world world_wf). Defined.

Lemma RemoveEntity_releases_components_witness :
  ValidEntity world 4 = true
  ∧ ∃ m', RemoveEntity 4 world = Some m' ∧ wf m'
      ∧ ValidEntity m' 4 = false
      ∧ GetEntityName m' 4 = None
      ∧ (∀ k, HasComponent k m' 4 = None ∧ GetComponent k m' 4 = None
              ∧ ∀ c, AddComponent k 4 c m' = None)
      ∧ (∀ k slot, owns world 4 k slot →
           ComponentStorage.remove slot (registry k (mRegistries world))
           = Some (registry k (mRegistries m'))
           ∧ ComponentStorage.valid (registry k (mRegistries m')) slot = false)
      ∧ (∀ k, HasComponent k world 4 = Some false →
           registry k (mRegistries m') = registry k (mRegistries world)).
Proof.
  assert (Hv : ValidEntity world 4 = true) by by vm_compute.
  exact (conj Hv (RemoveEntity_releases_components world 4 world_wf Hv)).
Defined.

Lemma RemoveEntity_keeps_others_witness :
  ∃ m', RemoveEntity 4 world = Some m'
    ∧ ∀ e', e' ≠ 4 →
        ValidEntity m' e' = ValidEntity world e'
        ∧ GetEntityName m' e' = GetEntityName world e'
        ∧ ∀ k, HasComponent k m' e' = HasComponent k world e'
               ∧ component k m' e' = component k world e'.
Proof.
  assert (Hrm : RemoveEntity 4 world = Some (default world (RemoveEntity 4 world)))
    by by vm_compute.
  exact (ex_intro _ _ (conj Hrm (RemoveEntity_keeps_others world 4 _ world_wf Hrm))).
Defined.

(** ** Sequences of calls *)

Lemma modify_inv k r f m m' : modify k r f m = Some m' → m' = upd k r f m.
Proof.
  unfold modify. destruct (deref k m r) as [x|] eqn:Hx; simpl; [|done].
  intros Ha. pose proof (modify_Some k r f m x Hx) as Hm. unfold modify in Hm.
  rewrite Hx in Hm. simpl in Hm. congruence.
Qed.

Lemma call_wf m c m' : wf m → call m c = Some m' → wf m'.
Proof.
  intros Hwf. destruct c as [name|e|k e comp|k e|k e f]; simpl.
  - destruct (CreateEntity name m) as [[a m1]|] eqn:Hc; simpl; [|done].
    intros [= <-]. by eapply CreateEntity_wf.
  - by apply RemoveEntity_wf.
  - intros Hadd. by eapply AddComponent_spec.
  - intros Hrm. destruct (ValidEntity m e) eqn:Hv.
    + rewrite (RemoveComponent_as_step k e m Hv) in Hrm.
      destruct (RemoveEntity_step_spec m e k Hwf Hv) as (m1 & Hs & Hwf1 & _). congruence.
    + unfold RemoveComponent in Hrm. rewrite Hv in Hrm. by simplify_eq/=.
  - destruct (GetComponent k m e) as [r|]; simpl; [|done].
    intros ->%modify_inv. by apply wf_upd.
Qed.

Lemma calls_wf (cs : list Call) (m : t) :
  calls cs empty = Some m → wf m.
Proof.
  unfold calls. generalize wf_empty. generalize empty.
  induction cs as [|c cs IH]; intros m0 Hwf; simpl.
  - by intros [= <-].
  - destruct (call m0 c) as [m1|] eqn:Hc; simpl; [|done].
    apply IH. by eapply call_wf.
Qed.

(** *** Counting the holders of a component type *)

Lemma filter_length_ext {A} (P Q : A → Prop) `{!∀ x, Decision (P x)} `{!∀ x, Decision (Q x)}
    (l : list A) :
  (∀ x, x ∈ l → P x ↔ Q x) → length (filter P l) = length (filter Q l).
Proof.
  induction l as [|x l IH]; intros Hext; [done|].
  rewrite !filter_cons. assert (P x ↔ Q x) as Hx by (apply Hext; left).
  assert (length (filter P l) = length (filter Q l)) as Hl.
  { apply IH. intros y Hy. apply Hext. by right. }
  destruct (decide (P x)), (decide (Q x)); simpl; tauto || lia.
Qed.

Lemma filter_length_flip {A} (P Q : A → Prop) `{!∀ x, Decision (P x)}
    `{!∀ x, Decision (Q x)} (l : list A) (a : A) :
  NoDup l → a ∈ l → (∀ x, x ≠ a → P x ↔ Q x) → ¬ P a → Q a →
  length (filter Q l) = S (length (filter P l)).
Proof.
  intros Hnd Ha Hext HP HQ. induction Hnd as [|x l Hx Hnd IH]; [by apply elem_of_nil in Ha|].
  rewrite !filter_cons. apply elem_of_cons in Ha as [<-|Ha].
  - rewrite decide_True, decide_False by done. simpl. f_equal.
    apply filter_length_ext. intros y Hy. symmetry. apply Hext. by intros ->.
  - assert (x ≠ a) as Hne by (by intros ->). specialize (IH Ha).
    pose proof (Hext x Hne). destruct (decide (P x)), (decide (Q x)); simpl; tauto || lia.
Qed.

Lemma filter_none {A} (P : A → Prop) `{!∀ x, Decision (P x)} (l : list A) :
  (∀ x, x ∈ l → ¬ P x) → filter P l = [].
Proof.
  induction l as [|x l IH]; intros Hnone; [done|].
  rewrite filter_cons, decide_False by (apply Hnone; left).
  apply IH. intros y Hy. apply Hnone. by right.
Qed.

Lemma NoDup_entity_ids m : NoDup (entity_ids m).
Proof.
  unfold entity_ids. apply NoDup_fmap_2; [|apply NoDup_seq].
  intros x y. lia.
Qed.

Lemma elem_of_entity_ids m e : e ∈ entity_ids m ↔ e < vec_size (mValid m).
Proof.
  unfold entity_ids, vec_size. rewrite list_elem_of_fmap. split.
  - intros (i & -> & Hi%elem_of_seq). lia.
  - intros He. exists (N.to_nat e). split; [lia|]. apply elem_of_seq. lia.
Qed.

Lemma holds_in_ids k m e : HasComponent k m e = Some true → e ∈ entity_ids m.
Proof.
  intros [Hv _]%HasComponent_true_owns. apply elem_of_entity_ids.
  apply ValidEntity_spec in Hv. by eapply vec_at_lt.
Qed.

(** The number of holders depends only on the answers of [HasComponent]. *)
Lemma holders_same k m m' :
  (∀ e, HasComponent k m' e = Some true ↔ HasComponent k m e = Some true) →
  length (holders k m') = length (holders k m).
Proof.
  intros Hext. unfold holders.
  assert (∀ (n n' : nat) (P : N → Prop) `{!∀ x, Decision (P x)},
    (n ≤ n')%nat → (∀ e, P e → e < N.of_nat n) →
    length (filter P (N.of_nat <$> seq 0 n')) = length (filter P (N.of_nat <$> seq 0 n)))
    as Hgrow.
  { intros n n' P ? Hle Hin. replace n' with (n + (n' - n))%nat by lia.
    rewrite seq_app, fmap_app, filter_app, length_app.
    rewrite (filter_none P (N.of_nat <$> seq (0 + n) (n' - n))); [simpl; lia|].
    intros x (i & -> & Hi%elem_of_seq)%list_elem_of_fmap HP. apply Hin in HP. lia. }
  unfold entity_ids.
  destruct (decide (length (mValid m) ≤ length (mValid m'))%nat) as [Hle|Hgt].
  - rewrite (Hgrow (length (mValid m)) (length (mValid m')) _ _ Hle).
    + apply filter_length_ext. intros x _. apply Hext.
    + intros e He%Hext%holds_in_ids%elem_of_entity_ids. done.
  - symmetry. rewrite (Hgrow (length (mValid m')) (length (mValid m)) _ _); [|lia|].
    + apply filter_length_ext. intros x _. symmetry. apply Hext.
    + intros e He%Hext%holds_in_ids%elem_of_entity_ids. done.
Qed.

Lemma holders_gain k m m' e :
  length (mValid m') = length (mValid m) →
  (∀ e', e' ≠ e → HasComponent k m' e' = HasComponent k m e') →
  HasComponent k m e ≠ Some true → HasComponent k m' e = Some true →
  length (holders k m') = S (length (holders k m)).
Proof.
  intros Hvl Hother Hbefore Hafter. unfold holders, entity_ids. rewrite Hvl.
  apply (filter_length_flip _ _ _ e).
  - apply (NoDup_entity_ids m).
  - apply holds_in_ids in Hafter. unfold entity_ids in Hafter. by rewrite Hvl in Hafter.
  - intros x Hx. by rewrite Hother.
  - done.
  - done.
Qed.

(** Every call changes the number of valid slots of a storage and the
    number of holders of its component type by the same amount, and
    grows the storage by one slot at most. *)
Lemma call_counts m c m' k :
  wf m → N.of_nat (length (ComponentStorage.mStorage (registry k (mRegistries m)))) < SIZE_MAX → call m c = Some m' →
  (ComponentStorage.count_valid (registry k (mRegistries m')) + length (holders k m) = ComponentStorage.count_valid (registry k (mRegistries m)) + length (holders k m'))%nat
  ∧ (length (ComponentStorage.mStorage (registry k (mRegistries m'))) ≤ S (length (ComponentStorage.mStorage (registry k (mRegistries m)))))%nat.
Proof.
  intros Hwf Hfit. destruct c as [name|e|k0 e comp|k0 e|k0 e f]; simpl.
  - destruct (CreateEntity_spec name m Hwf)
      as (a & m1 & -> & Hwf1 & Hold & Hnew & _ & _ & Hent & Hrow & Hvalid & Hregs & Htab).
    simpl. intros [= <-]. rewrite Hregs. split; [|lia].
    rewrite (holders_same k m m1); [lia|]. intros e'.
    destruct (decide (e' = a)) as [->|Hne].
    + rewrite (proj2 (HasComponent_false_cell k m1 a)) by done.
      unfold HasComponent. by rewrite Hold.
    + by rewrite (HasComponent_frame k m m1 e' (Hvalid e' Hne) (Htab e' _ Hne)).
  - intros Hrm. destruct (ValidEntity m e) eqn:Hv; cycle 1.
    { unfold RemoveEntity in Hrm. rewrite Hv in Hrm. simplify_eq/=. lia. }
    destruct (RemoveEntity_spec m e Hwf Hv)
      as (m'' & Hrm' & Hwf' & Hdead & _ & Hvalid & Hents & Htab & Hderef).
    rewrite Hrm in Hrm'. injection Hrm' as <-.
    destruct (table_at_is_Some m e k Hwf Hv) as [slot Hslot].
    pose proof (RemoveEntity_regs m e m' Hwf Hv Hrm k slot Hslot) as Hreg.
    assert (Hgone : HasComponent k m' e ≠ Some true).
    { unfold HasComponent. by rewrite Hdead. }
    assert (Hothers : ∀ e', e' ≠ e → HasComponent k m e' = HasComponent k m' e').
    { intros e' Hne. symmetry. apply HasComponent_frame; [by apply Hvalid|by apply Htab]. }
    destruct (decide (slot ≠ INVALID_COMPONENT_INDEX)) as [Hs|Hs%dec_stable].
    + pose proof (storage_remove_length _ _ _ Hreg) as Hlen.
      destruct (storage_remove_wf _ slot (wf_storage _ Hwf k)) as (s1 & Hs1 & _ & _ & Hc & _).
      { by apply (wf_slot_valid _ Hwf e k slot). }
      rewrite Hs1 in Hreg. injection Hreg as ->.
      rewrite (holders_gain k m' m e); [lia| |done|done|].
      * rewrite <- (wf_entities_length _ Hwf), <- (wf_entities_length _ Hwf').
        unfold RemoveEntity in Hrm. rewrite Hv in Hrm. cbn [negb] in Hrm.
        destruct (for_range _ _ _) as [m1|] eqn:Hloop; simpl in Hrm; [|done].
        destruct (vec_assign (mEntities m1) e _) as [es|] eqn:Hes; simpl in Hrm; [|done].
        destruct (vec_assign (mValid m1) e false) as [vl|] eqn:Hvl'; simpl in Hrm; [|done].
        injection Hrm as <-. simpl.
        apply vec_assign_Some in Hes as [_ ->]. rewrite length_insert.
        unfold for_range in Hloop. rewrite kinds_range, for_each_fmap in Hloop.
        destruct (RemoveEntity_loop_spec m e all_kinds Hwf Hv) as (m1' & Hl' & _ & Hfr & _).
        rewrite Hloop in Hl'. injection Hl' as <-. by rewrite (frame_entities _ _ _ Hfr).
      * apply HasComponent_true_owns. split; [done|]. by exists slot.
    + rewrite Hreg. split; [|lia]. rewrite (holders_same k m m'); [lia|].
      intros e'. destruct (decide (e' = e)) as [->|Hne]; [|by rewrite Hothers].
      split; [done|]. intros [_ (r & Hr & Hne)]%HasComponent_true_owns. congruence.
  - intros Hadd.
    destruct (AddComponent_inv k0 e comp m m' Hadd)
      as (Hv & Hcell & new & s' & Hst & Hregs & Hents & Hvl & Hfl & Htab).
    assert (Hve : ∀ e', ValidEntity m' e' = ValidEntity m e').
    { intros e'. unfold ValidEntity. by rewrite Hvl. }
    destruct (decide (k = k0)) as [->|Hk].
    + rewrite Hregs, registry_set_eq.
      destruct (storage_store_wf _ comp (wf_storage _ Hwf k0))
        as (new' & s'' & Hst' & _ & _ & _ & Hc & _).
      rewrite Hst in Hst'. injection Hst' as <- <-.
      pose proof (storage_store_length _ _ _ _ Hst) as Hlen.
      split; [|done]. rewrite (holders_gain k0 m m' e); [lia|by rewrite Hvl| | |].
      * intros e' Hne. apply HasComponent_frame; [done|].
        rewrite Htab. by rewrite decide_False by (by intros [-> _]).
      * intros [_ (r & Hr & Hne)]%HasComponent_true_owns. congruence.
      * apply HasComponent_true_owns. split; [by rewrite Hve|]. exists new. split.
        -- rewrite Htab. by rewrite decide_True.
        -- apply storage_store_id_le in Hst. unfold INVALID_COMPONENT_INDEX, vec_size in *. lia.
    + rewrite Hregs, registry_set_ne by done. split; [|lia].
      rewrite (holders_same k m m'); [lia|]. intros e'.
      rewrite (HasComponent_frame k m m' e'); [done|done|].
      rewrite Htab. rewrite decide_False; [done|]. by intros [_ ?%COMP_TYPE_ID_inj].
  - intros Hrm. destruct (decide (HasComponent k0 m e = Some true)) as [Hhas|Hnot]; cycle 1.
    { destruct (ValidEntity m e) eqn:Hv.
      - rewrite (RemoveComponent_as_step k0 e m Hv) in Hrm.
        destruct (RemoveEntity_step_inv _ _ _ _ Hrm) as (slot & Hat & _ & _ & _ & _ & Hreg & _).
        destruct (decide (slot ≠ INVALID_COMPONENT_INDEX)) as [Hs|]; [|subst; lia].
        destruct Hnot. apply HasComponent_true_owns. split; [done|]. by exists slot.
      - unfold RemoveComponent in Hrm. rewrite Hv in Hrm. simplify_eq/=. lia. }
    pose proof Hhas as (Hv & _)%HasComponent_true_owns.
    rewrite (RemoveComponent_as_step k0 e m Hv) in Hrm.
    destruct (RemoveEntity_step_inv _ _ _ _ Hrm)
      as (slot & Hat & Hents & Hvl & _ & Hother & Hreg & Htab).
    assert (Hs : slot ≠ INVALID_COMPONENT_INDEX).
    { apply HasComponent_true_owns in Hhas as (_ & r & Hr & Hne). congruence. }
    rewrite decide_True in Hreg by done.
    assert (Hve : ∀ e', ValidEntity m' e' = ValidEntity m e').
    { intros e'. unfold ValidEntity. by rewrite Hvl. }
    destruct (decide (k = k0)) as [->|Hk].
    + pose proof (storage_remove_length _ _ _ Hreg) as Hlen.
      destruct (storage_remove_wf _ slot (wf_storage _ Hwf k0)) as (s1 & Hs1 & _ & _ & Hc & _).
      { by apply (wf_slot_valid _ Hwf e k0 slot). }
      rewrite Hs1 in Hreg. injection Hreg as ->.
      rewrite (holders_gain k0 m' m e); [lia|by rewrite Hvl| | |done].
      * intros e' Hne. symmetry. apply HasComponent_frame; [done|].
        rewrite Htab. by rewrite decide_False by (by intros [-> _]).
      * intros [_ (r & Hr & Hne)]%HasComponent_true_owns.
        rewrite Htab, decide_True in Hr by done. congruence.
    + rewrite Hother by done. split; [|lia].
      rewrite (holders_same k m m'); [lia|]. intros e'.
      rewrite (HasComponent_frame k m m' e'); [done|done|].
      rewrite Htab. rewrite decide_False; [done|]. by intros [_ ?%COMP_TYPE_ID_inj].
  - destruct (GetComponent k0 m e) as [r|]; simpl; [|done].
    intros ->%modify_inv. split.
    + rewrite (holders_same k m (upd k0 r f m)); [|done].
      unfold upd. simpl. destruct (decide (k0 = k)) as [->|Hk].
      * rewrite registry_set_eq. unfold ComponentStorage.count_valid. simpl. lia.
      * rewrite registry_set_ne by done. lia.
    + unfold upd. simpl. destruct (decide (k0 = k)) as [->|Hk].
      * rewrite registry_set_eq. simpl. rewrite length_alter. lia.
      * rewrite registry_set_ne by done. lia.
Qed.

Lemma calls_counts cs m m' k :
  wf m → N.of_nat (length (ComponentStorage.mStorage (registry k (mRegistries m))) + length cs) ≤ SIZE_MAX → calls cs m = Some m' →
  (ComponentStorage.count_valid (registry k (mRegistries m')) + length (holders k m) = ComponentStorage.count_valid (registry k (mRegistries m)) + length (holders k m'))%nat
  ∧ (length (ComponentStorage.mStorage (registry k (mRegistries m'))) ≤ length (ComponentStorage.mStorage (registry k (mRegistries m))) + length cs)%nat.
Proof.
  unfold calls. revert m. induction cs as [|c cs IH]; intros m Hwf Hfit; simpl.
  - intros [= <-]. lia.
  - destruct (call m c) as [m1|] eqn:Hc; simpl; [|done]. intros Hrest.
    simpl in Hfit.
    destruct (call_counts m c m1 k Hwf) as [Hcnt Hcap]; [lia|done|].
    destruct (IH m1) as [Hcnt' Hcap']; [by eapply call_wf|lia|done|]. lia.
Qed.

(** X16. After any sequence of interface calls on an empty registry
    (fewer than [2^64] of them), the [size()] of the storage of a
    component type is the number of entities for which [HasComponent] of
    that type is true: destroying entities and removing components leaks
    no slot. *)
Theorem storage_size_is_number_of_holders (cs : list Call) (m : t) (k : CompKind) :
  calls cs empty = Some m → N.of_nat (length cs) ≤ SIZE_MAX →
  ComponentStorage.size (registry k (mRegistries m)) = N.of_nat (length (holders k m)).
Proof.
  intros Hcalls Hfit.
  destruct (calls_counts cs empty m k wf_empty) as [Hcnt Hcap]; [by destruct k|done|].
  pose proof (calls_wf cs m Hcalls) as Hwf.
  unfold ComponentStorage.size. rewrite (ComponentStorage.wf_count _ (wf_storage _ Hwf k)).
  assert (ComponentStorage.count_valid (registry k (mRegistries empty)) = 0%nat) as Hc0 by by destruct k.
  assert (length (holders k empty) = 0%nat) as Hh0 by by destruct k.
  assert (length (ComponentStorage.mStorage (registry k (mRegistries empty))) = 0%nat) as Hcap0 by by destruct k.
  assert (ComponentStorage.count_valid (registry k (mRegistries m)) ≤ length (ComponentStorage.mStorage (registry k (mRegistries m))))%nat as Hle.
  { unfold ComponentStorage.count_valid.
    rewrite (ComponentStorage.wf_length _ (wf_storage _ Hwf k)).
    generalize (ComponentStorage.mValid (registry k (mRegistries m))).
    induction l as [|[] l IH]; simpl; lia. }
  unfold size_wrap. rewrite N.mod_small by lia. lia.
Qed.


(** X15. Every registry obtained from the empty one by calls of the
    interface ([CreateEntity], [RemoveEntity], [AddComponent],
    [RemoveComponent] and writes through [GetComponent]) that all pass
    their assertions is well-formed. *)
Theorem reachable_registry_is_well_formed (cs : list Call) (m : t) :
  calls cs empty = Some m → wf m.
Proof. apply calls_wf. Qed.

Lemma reachable_registry_is_well_formed_witness :
  ∃ m, calls session empty = Some m ∧ wf m.
Proof.
  assert (Hrun : calls session empty = Some (default empty (calls session empty)))
    by by vm_compute.
  exact (ex_intro _ _ (conj Hrun (reachable_registry_is_well_formed session _ Hrun))).
Defined.

Lemma storage_size_is_number_of_holders_witness :
  ∃ m, calls session empty = Some m
    ∧ holders KLocation m = [1; 2]
    ∧ ComponentStorage.size (registry KLocation (mRegistries m))
      = N.of_nat (length (holders KLocation m)).
Proof.
  assert (Hrun : calls session empty = Some (default empty (calls session empty)))
    by by vm_compute.
  assert (Hfit : N.of_nat (length session) ≤ SIZE_MAX) by by vm_compute.
  assert (Hh : holders KLocation (default empty (calls session empty)) = [1; 2])
    by by vm_compute.
  exact (ex_intro _ _ (conj Hrun (conj Hh
           (storage_size_is_number_of_holders session _ KLocation Hrun Hfit)))).
Defined.

Opaque GetComponent HasComponent deref modify upd.

(** ** Systems that write one component type *)

Lemma same_shape_refl m : same_shape m m.
Proof. by split. Qed.

Lemma same_shape_trans m1 m2 m3 : same_shape m1 m2 → same_shape m2 m3 → same_shape m1 m3.
Proof.
  intros [He1 Hv1 Hf1 Ht1 Hs1] [He2 Hv2 Hf2 Ht2 Hs2]. split; try congruence.
  intros k. destruct (Hs1 k) as (?&?&?&?), (Hs2 k) as (?&?&?&?).
  split_and!; congruence.
Qed.

Lemma writes_only_refl ks m : writes_only ks m m.
Proof. split; [apply same_shape_refl|done]. Qed.

Lemma writes_only_trans ks m1 m2 m3 :
  writes_only ks m1 m2 → writes_only ks m2 m3 → writes_only ks m1 m3.
Proof.
  intros [Hs1 Hr1] [Hs2 Hr2]. split; [by eapply same_shape_trans|].
  intros k Hk. by rewrite Hr2, Hr1.
Qed.

Lemma writes_only_mono ks ks' m m' : ks ⊆ ks' → writes_only ks m m' → writes_only ks' m m'.
Proof. intros Hsub [Hs Hr]. split; [done|]. intros k Hk. apply Hr. set_solver. Qed.

Transparent upd.
Lemma writes_only_upd k r f m : writes_only [k] m (upd k r f m).
Proof.
  split.
  - split; try done. intros k'. unfold upd. simpl. destruct (decide (k = k')) as [<-|Hk].
    + rewrite registry_set_eq. simpl. by rewrite length_alter.
    + by rewrite registry_set_ne.
  - intros k' Hk'. unfold upd. simpl. rewrite registry_set_ne; [done|]. set_solver.
Qed.

Lemma upd_upd k r f g m : upd k r g (upd k r f m) = upd k r (g ∘ f) m.
Proof.
  unfold upd. simpl. rewrite !registry_set_eq. simpl.
  rewrite list_alter_alter_eq.
  by destruct k, (mRegistries m).
Qed.
Opaque upd.

Lemma same_shape_ValidEntity m m' e : same_shape m m' → ValidEntity m' e = ValidEntity m e.
Proof. intros Hs. unfold ValidEntity. by rewrite (shape_valid _ _ Hs). Qed.

Lemma same_shape_table_at m m' e c : same_shape m m' → table_at m' e c = table_at m e c.
Proof. intros Hs. unfold table_at. by rewrite (shape_table _ _ Hs). Qed.

Lemma same_shape_owns m m' e k r : same_shape m m' → owns m' e k r ↔ owns m e k r.
Proof. intros Hs. unfold owns. by rewrite (same_shape_table_at _ _ _ _ Hs). Qed.

Transparent HasComponent GetComponent deref.
Lemma same_shape_HasComponent m m' k e :
  same_shape m m' → HasComponent k m' e = HasComponent k m e.
Proof.
  intros Hs. unfold HasComponent.
  by rewrite (same_shape_ValidEntity _ _ _ Hs), (same_shape_table_at _ _ _ _ Hs).
Qed.

Lemma same_shape_GetComponent m m' k e :
  same_shape m m' → GetComponent k m' e = GetComponent k m e.
Proof.
  intros Hs. unfold GetComponent, ComponentStorage.valid.
  rewrite (same_shape_ValidEntity _ _ _ Hs), (same_shape_table_at _ _ _ _ Hs).
  by destruct (shape_slots _ _ Hs k) as (-> & _).
Qed.

Lemma same_shape_GetEntityName m m' e :
  same_shape m m' → GetEntityName m' e = GetEntityName m e.
Proof.
  intros Hs. unfold GetEntityName.
  by rewrite (same_shape_ValidEntity _ _ _ Hs), (shape_entities _ _ Hs).
Qed.

Lemma writes_only_component ks m m' k e :
  writes_only ks m m' → k ∉ ks → component k m' e = component k m e.
Proof.
  intros [Hs Hr] Hk. unfold component, deref.
  rewrite (same_shape_GetComponent _ _ _ _ Hs), (same_shape_HasComponent _ _ _ _ Hs).
  by rewrite (Hr k Hk).
Qed.
Opaque HasComponent GetComponent deref.

(** *** Loops over the entities *)

Transparent upd.
Transparent deref.
Lemma upd_noop k r f m x : deref k m r = Some x → f x = x → upd k r f m = m.
Proof.
  unfold deref, upd. intros Hx%vec_at_Some Hf.
  replace (alter f (N.to_nat r) (ComponentStorage.mStorage (registry k (mRegistries m))))
    with (ComponentStorage.mStorage (registry k (mRegistries m))).
  - destruct m as [es regs tb fl vl]. unfold set_mRegistries. simpl. f_equal.
    destruct k, regs as [[] [] [] [] [] [] []]; reflexivity.
  - symmetry. apply list_eq. intros i. destruct (decide (i = N.to_nat r)) as [->|Hne].
    + rewrite list_lookup_alter_eq, Hx. simpl. by rewrite Hf.
    + by rewrite list_lookup_alter_ne.
Qed.
Opaque deref.
Opaque upd.

Section entity_loop.
Variable K : CompKind.
Variable step : t → Entity → option t.
Variable F : t → N → option (N * (comp_type K → comp_type K)).

Hypothesis step_skip : ∀ m ent, id ent = 0 → step m ent = Some m.
Hypothesis step_spec : ∀ m ent,
  wf m → ValidEntity m (id ent) = true → id ent ≠ 0 →
  step m ent = Some (match F m (id ent) with
                     | Some (r, f) => upd K r f m
                     | None => m
                     end).
Hypothesis F_owns : ∀ m e r f, wf m → F m e = Some (r, f) → owns m e K r.
Hypothesis F_stable : ∀ m r f e, F (upd K r f m) e = F m e.

Lemma entity_loop_from (n : nat) (l : list Entity) (m : t) :
  wf m →
  (∀ i ent, l !! i = Some ent →
     id ent = 0 ∨ (id ent = N.of_nat (n + i) ∧ ValidEntity m (id ent) = true)) →
  ∃ m', for_each step l m = Some m' ∧ wf m' ∧ writes_only [K] m m'
    ∧ (∀ e r f, e ≠ 0 → e ∈ (id <$> l) → F m e = Some (r, f) →
         deref K m' r = f <$> deref K m r)
    ∧ (∀ r, deref K m' r = deref K m r
            ∨ ∃ e f, e ≠ 0 ∧ e ∈ (id <$> l) ∧ F m e = Some (r, f)
                     ∧ deref K m' r = f <$> deref K m r).
Proof using step_skip step_spec F_owns F_stable.
  revert n m. induction l as [|ent l IH]; intros n m Hwf Hpos; simpl.
  - exists m. split_and!; [done|done|apply writes_only_refl| |by left].
    by intros e r f _ ?%elem_of_nil.
  - assert (Htail : ∀ m1, same_shape m m1 → ∀ i ent', l !! i = Some ent' →
        id ent' = 0 ∨ (id ent' = N.of_nat (S n + i) ∧ ValidEntity m1 (id ent') = true)).
    { intros m1 Hs i ent' Hi. destruct (Hpos (S i) ent' Hi) as [?|[Hid Hv]]; [by left|].
      right. split; [rewrite Hid; f_equal; lia|].
      by rewrite (same_shape_ValidEntity _ _ _ Hs). }
    assert (Hnotin : ∀ e, e ≠ 0 → e ∈ (id <$> l) → e ≠ N.of_nat n).
    { intros e He (ent' & -> & (i & Hi)%list_elem_of_lookup_1)%list_elem_of_fmap.
      destruct (Hpos (S i) ent' Hi) as [?|[Hid _]]; [done|]. rewrite Hid. lia. }
    destruct (Hpos 0%nat ent eq_refl) as [Hzero|[Hid Hv]].
    + rewrite (step_skip m ent Hzero). simpl.
      destruct (IH (S n) m Hwf (Htail m (same_shape_refl m)))
        as (m' & Hloop & Hwf' & Hw & Hin & Hout).
      exists m'. split_and!; [done|done|done| |].
      * intros e r f He [->|Hel]%elem_of_cons; [done|]. by apply Hin.
      * intros r. destruct (Hout r) as [?|(e & f & ? & ? & ? & ?)]; [by left|].
        right. exists e, f. split_and!; [done|by right|done|done].
    + assert (Hnz : id ent ≠ 0 ∨ id ent = 0) by (destruct (decide (id ent = 0)); auto).
      destruct Hnz as [Hnz|Hzero]; cycle 1.
      { rewrite (step_skip m ent Hzero). simpl.
        destruct (IH (S n) m Hwf (Htail m (same_shape_refl m)))
          as (m' & Hloop & Hwf' & Hw & Hin & Hout).
        exists m'. split_and!; [done|done|done| |].
        * intros e r f He [->|Hel]%elem_of_cons; [done|]. by apply Hin.
        * intros r. destruct (Hout r) as [?|(e & f & ? & ? & ? & ?)]; [by left|].
          right. exists e, f. split_and!; [done|by right|done|done]. }
      rewrite (step_spec m ent Hwf Hv Hnz). simpl.
      replace (n + 0)%nat with n in Hid by lia.
      destruct (F m (id ent)) as [[r0 f0]|] eqn:HF.
      * pose proof (F_owns m _ _ _ Hwf HF) as Ho0.
        set (m1 := upd K r0 f0 m).
        assert (Hw1 : writes_only [K] m m1) by apply writes_only_upd.
        destruct (IH (S n) m1 (wf_upd _ _ _ _ Hwf) (Htail m1 (proj1 Hw1)))
          as (m' & Hloop & Hwf' & Hw & Hin & Hout).
        exists m'. split_and!; [done|done|by eapply writes_only_trans| |].
        -- intros e r f He [->|Hel]%elem_of_cons HFe.
           ++ rewrite HF in HFe. injection HFe as <- <-.
              destruct (Hout r0) as [->|(e & f & He' & Hel & HFe & _)];
                [apply deref_upd_eq|].
              unfold m1 in HFe. rewrite F_stable in HFe.
              pose proof (F_owns m _ _ _ Hwf HFe) as Ho.
              pose proof (wf_slot_inj _ Hwf _ _ _ _ Ho Ho0) as ->.
              by destruct (Hnotin (id ent)).
           ++ rewrite (Hin e r f He Hel) by (by unfold m1; rewrite F_stable).
              f_equal. unfold m1. apply deref_upd_ne. intros ->.
              pose proof (F_owns m _ _ _ Hwf HFe) as Ho.
              pose proof (wf_slot_inj _ Hwf _ _ _ _ Ho Ho0) as ->.
              by apply (Hnotin (id ent)).
        -- intros r. destruct (Hout r) as [Hsame|(e & f & He & Hel & HFe & Hd)].
           ++ destruct (decide (r = r0)) as [->|Hne].
              ** right. exists (id ent), f0. split_and!; [done|by left|done|].
                 rewrite Hsame. apply deref_upd_eq.
              ** left. rewrite Hsame. unfold m1. by apply deref_upd_ne.
           ++ unfold m1 in HFe. rewrite F_stable in HFe.
              right. exists e, f. split_and!; [done|by right|done|].
              rewrite Hd. f_equal. unfold m1. apply deref_upd_ne. intros ->.
              pose proof (F_owns m _ _ _ Hwf HFe) as Ho.
              pose proof (wf_slot_inj _ Hwf _ _ _ _ Ho Ho0) as ->.
              by apply (Hnotin (id ent)).
      * destruct (IH (S n) m Hwf (Htail m (same_shape_refl m)))
          as (m' & Hloop & Hwf' & Hw & Hin & Hout).
        exists m'. split_and!; [done|done|done| |].
        -- intros e r f He [->|Hel]%elem_of_cons HFe; [congruence|]. by apply (Hin e).
        -- intros r. destruct (Hout r) as [?|(e & f & ? & ? & ? & ?)]; [by left|].
           right. exists e, f. split_and!; [done|by right|done|done].
Qed.

(** The loop over all the entities of a well-formed registry. *)
Lemma entity_loop (m : t) :
  wf m →
  ∃ m', for_each step (mEntities m) m = Some m' ∧ wf m' ∧ writes_only [K] m m'
    ∧ (∀ e r f, e ≠ 0 → F m e = Some (r, f) → deref K m' r = f <$> deref K m r)
    ∧ (∀ r, (∀ e f, e ≠ 0 → F m e ≠ Some (r, f)) → deref K m' r = deref K m r)
    ∧ (∀ r, deref K m' r = deref K m r
            ∨ ∃ e f, e ≠ 0 ∧ F m e = Some (r, f) ∧ deref K m' r = f <$> deref K m r).
Proof using step_skip step_spec F_owns F_stable.
  intros Hwf.
  destruct (entity_loop_from 0 (mEntities m) m Hwf)
    as (m' & Hloop & Hwf' & Hw & Hin & Hout).
  { intros i ent Hi.
    assert (Hat : vec_at (mEntities m) (N.of_nat i) = Some ent).
    { apply vec_at_Some. by rewrite Nat2N.id. }
    pose proof (wf_entity_id _ Hwf _ _ Hat) as Hid.
    destruct (ValidEntity m (N.of_nat i)) eqn:Hv; [right|by left].
    rewrite Hid. by split. }
  exists m'. split_and!; [done|done|done| | |]; cycle 1.
  { intros r Hr. destruct (Hout r) as [?|(e & f & He & _ & HF & _)]; [done|].
    by destruct (Hr e f He). }
  { intros r. destruct (Hout r) as [?|(e & f & He & _ & HF & Hd)]; [by left|].
    right. by exists e, f. }
  - intros e r f He HF. apply (Hin e); [done| |done].
    pose proof (owns_valid_entity m e K r Hwf (F_owns m e r f Hwf HF)) as Hv.
    apply ValidEntity_spec in Hv.
    assert (Hlt : (N.to_nat e < length (mEntities m))%nat).
    { apply vec_at_lt in Hv. unfold vec_size in Hv.
      rewrite (wf_entities_length _ Hwf). lia. }
    destruct (lookup_lt_is_Some_2 _ _ Hlt) as [ent Hent].
    apply list_elem_of_fmap. exists ent. split; [|by eapply list_elem_of_lookup_2].
    assert (Hat : vec_at (mEntities m) e = Some ent) by by apply vec_at_Some.
    rewrite (wf_entity_id _ Hwf _ _ Hat).
    by rewrite (proj2 (ValidEntity_spec m e) Hv).
Qed.
End entity_loop.

(** *** MovementSystem *)

Lemma HasComponent_total k m e :
  wf m → ValidEntity m e = true →
  (HasComponent k m e = Some true ∧ ∃ r x, owns m e k r ∧ GetComponent k m e = Some r
                                        ∧ deref k m r = Some x)
  ∨ HasComponent k m e = Some false.
Proof.
  intros Hwf Hv. destruct (table_at_is_Some m e k Hwf Hv) as [slot Hslot].
  rewrite (HasComponent_Some k m e slot Hv Hslot). case_bool_decide as Hne; [left|by right].
  split; [done|]. assert (Ho : owns m e k slot) by done.
  destruct (owns_deref m e k slot Hwf Ho) as [x Hx].
  exists slot, x. split_and!; [done|by apply owns_GetComponent|done].
Qed.

Lemma eqb_false_of_ne (a b : N) : a ≠ b → (a =? b) = false.
Proof. by intros ?%N.eqb_neq. Qed.

Lemma movement_step_spec deltaTime m ent :
  wf m → ValidEntity m (id ent) = true → id ent ≠ 0 →
  movement_step deltaTime m ent
  = Some (match movement_effect deltaTime m (id ent) with
          | Some (r, f) => upd KLocation r f m
          | None => m
          end).
Proof.
  intros Hwf Hv Hnz. unfold movement_step, movement_effect.
  rewrite (eqb_false_of_ne _ _ Hnz). simpl.
  destruct (HasComponent_total KLocation m (id ent) Hwf Hv)
    as [(-> & loc & l & Hol & Hgl & Hl)| ->]; simpl; [|done].
  destruct (HasComponent_total KMovement m (id ent) Hwf Hv)
    as [(-> & r & mv & Hor & Hgr & Hmv)| ->]; simpl; [|done].
  rewrite Hgl, Hgr. simpl. rewrite Hmv. simpl.
  rewrite (modify_Some _ _ _ _ l Hl). simpl.
  rewrite deref_upd_other by done. rewrite Hmv. simpl.
  erewrite modify_Some; [|by rewrite deref_upd_eq, Hl].
  rewrite upd_upd. reflexivity.
Qed.

Lemma movement_step_skip deltaTime m ent : id ent = 0 → movement_step deltaTime m ent = Some m.
Proof. intros Hz. unfold movement_step. by rewrite Hz. Qed.

Lemma movement_effect_owns deltaTime m e r f :
  wf m → movement_effect deltaTime m e = Some (r, f) → owns m e KLocation r.
Proof.
  intros Hwf. unfold movement_effect.
  destruct (HasComponent KLocation m e) as [[]|] eqn:Hh; [|done|done].
  destruct (HasComponent KMovement m e) as [[]|]; [|done|done].
  apply HasComponent_true_owns in Hh as (_ & r' & Ho).
  rewrite (owns_GetComponent m e _ r' Hwf Ho). simpl. intros H. by simplify_option_eq.
Qed.

Lemma movement_effect_stable deltaTime m r f e :
  movement_effect deltaTime (upd KLocation r f m) e = movement_effect deltaTime m e.
Proof.
  unfold movement_effect. rewrite !HasComponent_upd, !GetComponent_upd.
  destruct (HasComponent KLocation m e) as [[]|]; [|done|done].
  destruct (HasComponent KMovement m e) as [[]|]; [|done|done].
  destruct (GetComponent KLocation m e); simpl; [|done].
  destruct (GetComponent KMovement m e); simpl; [|done].
  by rewrite deref_upd_other.
Qed.

(** X17. On a well-formed registry [MovementSystem] runs to completion,
    keeps the registry well-formed and writes nothing but location
    components.  Every entity other than entity 0 that has a location and
    a movement component is displaced by its velocity times the time
    step, on each axis; every other location is unchanged. *)
Theorem MovementSystem_moves_by_velocity deltaTime m :
  wf m →
  ∃ m', MovementSystem deltaTime m = Some m' ∧ wf m'
    ∧ writes_only [KLocation] m m'
    ∧ (∀ e l, component KLocation m e = Some l →
         component KLocation m' e
         = Some (match component KMovement m e with
                 | Some mv => if e =? 0 then l else moved deltaTime mv l
                 | None => l
                 end)).
Proof.
  intros Hwf. unfold MovementSystem.
  destruct (entity_loop KLocation (movement_step deltaTime) (movement_effect deltaTime)
              (movement_step_skip deltaTime) (movement_step_spec deltaTime)
              (movement_effect_owns deltaTime) (movement_effect_stable deltaTime) m Hwf)
    as (m' & Hloop & Hwf' & Hw & Hin & Hout & _).
  exists m'. split_and!; [done|done|done|].
  intros e l (loc & Hol & Hl)%component_Some; [|done].
  assert (Hol' : owns m' e KLocation loc) by by apply (same_shape_owns m m'), Hol; apply Hw.
  apply component_Some; [done|]. exists loc. split; [done|].
  destruct (component KMovement m e) as [mv|] eqn:Hmv.
  - apply component_Some in Hmv as (r & Hor & Hmv); [|done].
    destruct (N.eqb_spec e 0) as [->|Hnz].
    + rewrite Hout; [done|]. intros e f He HF.
      pose proof (movement_effect_owns _ _ _ _ _ Hwf HF) as Ho.
      by pose proof (wf_slot_inj _ Hwf _ _ _ _ Ho Hol).
    + rewrite (Hin e loc (moved deltaTime mv) Hnz); [by rewrite Hl|].
      unfold movement_effect.
      rewrite (owns_HasComponent m e _ _ Hwf Hol), (owns_HasComponent m e _ _ Hwf Hor).
      rewrite (owns_GetComponent m e _ _ Hwf Hol), (owns_GetComponent m e _ _ Hwf Hor).
      simpl. by rewrite Hmv.
  - rewrite Hout; [done|]. intros e' f He' HF.
    pose proof (movement_effect_owns _ _ _ _ _ Hwf HF) as Ho.
    pose proof (wf_slot_inj _ Hwf _ _ _ _ Ho Hol) as ->.
    unfold movement_effect in HF.
    destruct (HasComponent KLocation m e) as [[]|]; [|done|done].
    destruct (HasComponent KMovement m e) as [[]|] eqn:Hh; [|done|done].
    apply HasComponent_true_owns in Hh as (_ & r & Hor).
    destruct (owns_deref m e _ r Hwf Hor) as [mv Hd].
    assert (component KMovement m e = Some mv) as Hc; [|congruence].
    apply component_Some; [done|]. by exists r.
Qed.

(** *** GravitySystem *)

Transparent upd.
Transparent deref.
Lemma upd_ext_at k r f g m x :
  deref k m r = Some x → f x = g x → upd k r f m = upd k r g m.
Proof.
  unfold deref, upd. intros Hx%vec_at_Some Hfg. do 3 f_equal.
  apply list_alter_ext; [|done]. intros y Hy. congruence.
Qed.
Opaque deref.
Opaque upd.

Opaque GRAVITY WALL_SLIDE_GRAVITY_MULTIPLIER.

Section gravity.
Variables (ScancodeCount ScanA ScanD : N).
Hypothesis ScanA_in_range : ScanA < ScancodeCount.
Hypothesis ScanD_in_range : ScanD < ScancodeCount.

Lemma bitset_test_in_range bits pos :
  pos < ScancodeCount → bitset_test ScancodeCount bits pos = Some (N.testbit bits pos).
Proof. intros H%N.ltb_lt. unfold bitset_test. by rewrite H. Qed.

Lemma component_of_owns k m e r x :
  wf m → owns m e k r → deref k m r = Some x → component k m e = Some x.
Proof. intros Hwf Ho Hx. apply component_Some; [done|]. by exists r. Qed.

Lemma gravity_step_spec deltaTime m ent :
  wf m → ValidEntity m (id ent) = true → id ent ≠ 0 →
  gravity_step ScancodeCount ScanA ScanD deltaTime m ent
  = Some (match gravity_effect ScanA ScanD deltaTime m (id ent) with
          | Some (r, f) => upd KMovement r f m
          | None => m
          end).
Proof using ScanA_in_range ScanD_in_range.
  intros Hwf Hv Hnz. unfold gravity_step, gravity_effect.
  rewrite (eqb_false_of_ne _ _ Hnz). simpl.
  destruct (HasComponent_total KMovement m (id ent) Hwf Hv)
    as [(-> & r & mv & Hor & Hgr & Hmv)| ->]; simpl; [|done].
  rewrite Hgr. simpl.
  destruct (HasComponent_total KCollision m (id ent) Hwf Hv)
    as [(-> & col & c & Hoc & Hgc & Hc)| Hnc]; simpl.
  - rewrite Hgc. simpl. rewrite Hc, Hmv. simpl.
    rewrite (component_of_owns _ _ _ _ _ Hwf Hoc Hc).
    destruct (collidedBottom c) eqn:Hground; simpl.
    { f_equal. symmetry. apply (upd_noop _ _ _ _ mv Hmv). simpl. by rewrite Hground. }
    destruct (py (velocity mv) >? F32.of_int 0)%f32 eqn:Hfall; simpl.
    + destruct (HasComponent_total KInput m (id ent) Hwf Hv)
        as [(-> & inp & i & Hoi & Hgi & Hi)| Hni]; simpl.
      * rewrite Hgi. simpl. rewrite Hi. simpl.
        rewrite (component_of_owns _ _ _ _ _ Hwf Hoi Hi).
        rewrite !bitset_test_in_range by done.
        destruct (collidedLeft c) eqn:Hl, (collidedRight c) eqn:Hr,
          (N.testbit (keydown i) ScanA) eqn:Ha, (N.testbit (keydown i) ScanD) eqn:Hd;
          simpl; rewrite (modify_Some _ _ _ _ mv Hmv); f_equal;
          apply (upd_ext_at _ _ _ _ _ mv Hmv); simpl;
          unfold wall_sliding; by rewrite Hground, Hfall, Hl, Hr, Ha, Hd.
      * rewrite Hni. simpl. rewrite (component_absent KInput) by congruence.
        rewrite (modify_Some _ _ _ _ mv Hmv). f_equal.
        apply (upd_ext_at _ _ _ _ _ mv Hmv). simpl.
        unfold wall_sliding. by rewrite Hground, Hfall.
    + rewrite (modify_Some _ _ _ _ mv Hmv). f_equal.
      apply (upd_ext_at _ _ _ _ _ mv Hmv). simpl.
      unfold wall_sliding. by rewrite Hground, Hfall.
  - rewrite Hnc. simpl. rewrite (component_absent KCollision) by congruence.
    rewrite (modify_Some _ _ _ _ mv Hmv). f_equal.
Qed.

Lemma gravity_step_skip deltaTime m ent :
  id ent = 0 → gravity_step ScancodeCount ScanA ScanD deltaTime m ent = Some m.
Proof. intros Hz. unfold gravity_step. by rewrite Hz. Qed.

Lemma gravity_effect_owns deltaTime m e r f :
  wf m → gravity_effect ScanA ScanD deltaTime m e = Some (r, f) → owns m e KMovement r.
Proof.
  intros Hwf. unfold gravity_effect.
  destruct (HasComponent KMovement m e) as [[]|] eqn:Hh; [|done|done].
  apply HasComponent_true_owns in Hh as (_ & r' & Ho).
  rewrite (owns_GetComponent m e _ r' Hwf Ho). simpl. by intros [= <- <-].
Qed.

Lemma component_upd_other k k' r f m e :
  k ≠ k' → component k' (upd k r f m) e = component k' m e.
Proof.
  intros Hne. unfold component. rewrite HasComponent_upd, GetComponent_upd.
  destruct (HasComponent k' m e) as [[]|]; [|done|done].
  destruct (GetComponent k' m e); simpl; [|done]. by apply deref_upd_other.
Qed.

Lemma gravity_effect_stable deltaTime m r f e :
  gravity_effect ScanA ScanD deltaTime (upd KMovement r f m) e
  = gravity_effect ScanA ScanD deltaTime m e.
Proof.
  unfold gravity_effect. rewrite HasComponent_upd, GetComponent_upd.
  by rewrite !component_upd_other by done.
Qed.

(** X18. With the two scancodes inside the key bitset, [GravitySystem]
    runs to completion on a well-formed registry, keeps it well-formed and
    writes nothing but movement components.  An entity other than entity
    0 standing on something keeps its velocity; otherwise its vertical
    velocity grows by gravity times the time step, and the pull is scaled
    by the wall-slide multiplier when it falls along a wall that its input
    pushes it into.  An entity without a collision component always
    falls. *)
Theorem GravitySystem_accelerates_airborne deltaTime m :
  wf m →
  ∃ m', GravitySystem ScancodeCount ScanA ScanD deltaTime m = Some m' ∧ wf m'
    ∧ writes_only [KMovement] m m'
    ∧ (∀ e mv, component KMovement m e = Some mv →
         component KMovement m' e
         = Some (if e =? 0 then mv
                 else after_gravity ScanA ScanD deltaTime
                        (component KCollision m e) (component KInput m e) mv)).
Proof using ScanA_in_range ScanD_in_range.
  intros Hwf. unfold GravitySystem.
  destruct (entity_loop KMovement (gravity_step ScancodeCount ScanA ScanD deltaTime)
              (gravity_effect ScanA ScanD deltaTime)
              (gravity_step_skip deltaTime) (gravity_step_spec deltaTime)
              (gravity_effect_owns deltaTime) (gravity_effect_stable deltaTime) m Hwf)
    as (m' & Hloop & Hwf' & Hw & Hin & Hout & _).
  exists m'. split_and!; [done|done|done|].
  intros e mv (r & Hor & Hmv)%component_Some; [|done].
  assert (Hor' : owns m' e KMovement r) by by apply (same_shape_owns m m'), Hor; apply Hw.
  apply component_Some; [done|]. exists r. split; [done|].
  destruct (N.eqb_spec e 0) as [->|Hnz].
  - rewrite Hout; [done|]. intros e f He HF.
    pose proof (gravity_effect_owns _ _ _ _ _ Hwf HF) as Ho.
    by pose proof (wf_slot_inj _ Hwf _ _ _ _ Ho Hor).
  - erewrite (Hin e r _ Hnz); [by rewrite Hmv|].
    unfold gravity_effect.
    rewrite (owns_HasComponent m e _ _ Hwf Hor), (owns_GetComponent m e _ _ Hwf Hor). done.
Qed.
End gravity.

(** *** CollisionSystemUpdate *)

Lemma collision_update_step_spec m ent :
  wf m → ValidEntity m (id ent) = true → id ent ≠ 0 →
  collision_update_step m ent
  = Some (match collision_update_effect m (id ent) with
          | Some (r, f) => upd KCollision r f m
          | None => m
          end).
Proof.
  intros Hwf Hv Hnz. unfold collision_update_step, collision_update_effect.
  rewrite (eqb_false_of_ne _ _ Hnz). simpl.
  destruct (HasComponent_total KCollision m (id ent) Hwf Hv)
    as [(-> & r & c & Hor & Hgr & Hc)| ->]; simpl; [|done].
  rewrite Hgr. simpl. rewrite Hc. simpl.
  destruct (negb (isStatic c) || negb (boundingBoxInitialized c)) eqn:Hcond.
  - rewrite (modify_Some _ _ _ _ c Hc). f_equal.
    apply (upd_ext_at _ _ _ _ _ c Hc). unfold remember_box. by rewrite Hcond.
  - f_equal. symmetry. apply (upd_noop _ _ _ _ c Hc). unfold remember_box. by rewrite Hcond.
Qed.

Lemma collision_update_step_skip m ent : id ent = 0 → collision_update_step m ent = Some m.
Proof. intros Hz. unfold collision_update_step. by rewrite Hz. Qed.

Lemma collision_update_effect_owns m e r f :
  wf m → collision_update_effect m e = Some (r, f) → owns m e KCollision r.
Proof.
  intros Hwf. unfold collision_update_effect.
  destruct (HasComponent KCollision m e) as [[]|] eqn:Hh; [|done|done].
  apply HasComponent_true_owns in Hh as (_ & r' & Ho).
  rewrite (owns_GetComponent m e _ r' Hwf Ho). simpl. by intros [= <- <-].
Qed.

Lemma collision_update_effect_stable m r f e :
  collision_update_effect (upd KCollision r f m) e = collision_update_effect m e.
Proof. unfold collision_update_effect. by rewrite HasComponent_upd, GetComponent_upd. Qed.

Lemma remember_box_idemp c : remember_box (remember_box c) = remember_box c.
Proof. unfold remember_box. by destruct c as [? ? ? ? ? ? ? ? ? [] []]. Qed.

Lemma CollisionSystemUpdate_loop m :
  wf m →
  ∃ m', CollisionSystemUpdate m = Some m' ∧ wf m'
    ∧ writes_only [KCollision] m m'
    ∧ (∀ e r, e ≠ 0 → owns m e KCollision r →
         deref KCollision m' r = remember_box <$> deref KCollision m r)
    ∧ (∀ r, deref KCollision m' r = deref KCollision m r
            ∨ ∃ e, e ≠ 0 ∧ owns m e KCollision r).
Proof.
  intros Hwf. unfold CollisionSystemUpdate.
  destruct (entity_loop KCollision collision_update_step collision_update_effect
              collision_update_step_skip collision_update_step_spec
              collision_update_effect_owns collision_update_effect_stable m Hwf)
    as (m' & Hloop & Hwf' & Hw & Hin & _ & Hout).
  exists m'. split_and!; [done|done|done| |].
  - intros e r Hnz Ho. apply (Hin e r remember_box Hnz).
    unfold collision_update_effect.
    by rewrite (owns_HasComponent m e _ _ Hwf Ho), (owns_GetComponent m e _ _ Hwf Ho).
  - intros r. destruct (Hout r) as [?|(e & f & He & HF & _)]; [by left|].
    right. exists e. split; [done|]. by eapply collision_update_effect_owns.
Qed.

(** Two registries of the same shape with the same contents are equal. *)
Transparent deref.
Lemma same_shape_eq m m' :
  same_shape m m' → (∀ k r, deref k m' r = deref k m r) → m' = m.
Proof.
  intros [He Hv Hf Ht Hs] Hd.
  assert (Hreg : ∀ k, registry k (mRegistries m') = registry k (mRegistries m)).
  { intros k. destruct (Hs k) as (Hvl & Hfl & Hc & Hlen). specialize (Hd k).
    unfold deref in Hd.
    destruct (registry k (mRegistries m')) as [st' vl' fl' c'],
             (registry k (mRegistries m)) as [st vl fl c]. simpl in *. subst.
    f_equal. apply list_eq. intros i. specialize (Hd (N.of_nat i)).
    unfold vec_at, vec_size in Hd. rewrite Hlen, Nat2N.id in Hd.
    destruct (N.ltb_spec (N.of_nat i) (N.of_nat (length st))); [done|].
    rewrite !lookup_ge_None_2; [done|lia|lia]. }
  destruct m as [es regs tb fl vl], m' as [es' regs' tb' fl' vl']. simpl in *. subst.
  f_equal. destruct regs, regs'.
  pose proof (Hreg KLocation). pose proof (Hreg KMovement). pose proof (Hreg KCollision).
  pose proof (Hreg KSprite). pose proof (Hreg KInput). pose proof (Hreg KCameraShake).
  pose proof (Hreg KScore). simpl in *. by subst.
Qed.

Lemma writes_only_deref ks m m' k r :
  writes_only ks m m' → k ∉ ks → deref k m' r = deref k m r.
Proof. intros [_ Hr] Hk. unfold deref. by rewrite Hr. Qed.
Opaque deref.

(** X19. On a well-formed registry [CollisionSystemUpdate] runs to
    completion, keeps the registry well-formed and writes nothing but
    collision components.  For every entity other than entity 0 the
    previous box becomes the current box, unless the body is static and
    its box is initialised; and running the system a second time changes
    nothing. *)
Theorem CollisionSystemUpdate_records_boxes m :
  wf m →
  ∃ m', CollisionSystemUpdate m = Some m' ∧ wf m'
    ∧ writes_only [KCollision] m m'
    ∧ (∀ e c, component KCollision m e = Some c →
         component KCollision m' e = Some (if e =? 0 then c else remember_box c))
    ∧ CollisionSystemUpdate m' = Some m'.
Proof.
  intros Hwf.
  destruct (CollisionSystemUpdate_loop m Hwf) as (m' & Hrun & Hwf' & Hw & Hin & Hout).
  exists m'. split_and!; [done|done|done| |].
  - intros e c (r & Hor & Hc)%component_Some; [|done].
    assert (Hor' : owns m' e KCollision r) by by apply (same_shape_owns m m'), Hor; apply Hw.
    apply component_Some; [done|]. exists r. split; [done|].
    destruct (N.eqb_spec e 0) as [->|Hnz].
    + destruct (Hout r) as [->|(e' & Hnz & Ho')]; [done|].
      by pose proof (wf_slot_inj _ Hwf _ _ _ _ Ho' Hor).
    + by rewrite (Hin e r Hnz Hor), Hc.
  - destruct (CollisionSystemUpdate_loop m' Hwf') as (m'' & Hrun' & Hwf'' & Hw' & Hin' & Hout').
    rewrite Hrun'. f_equal. apply same_shape_eq; [apply Hw'|].
    intros k r. destruct (decide (k = KCollision)) as [->|Hk].
    + destruct (Hout' r) as [?|(e & Hnz & Ho')]; [done|].
      assert (Ho : owns m e KCollision r) by by apply (same_shape_owns m m'); [apply Hw|].
      rewrite (Hin' e r Hnz Ho'), (Hin e r Hnz Ho).
      destruct (deref KCollision m r) as [c|]; simpl; [|done].
      by rewrite remember_box_idemp.
    + apply (writes_only_deref [KCollision]); [done|]. by intros ?%list_elem_of_singleton.
Qed.


Lemma MovementSystem_moves_by_velocity_witness :
  ∃ m', MovementSystem (F32.of_int 1) world = Some m' ∧ wf m'
    ∧ writes_only [KLocation] world m'
    ∧ (∀ e l, component KLocation world e = Some l →
         component KLocation m' e
         = Some (match component KMovement world e with
                 | Some mv => if e =? 0 then l else moved (F32.of_int 1) mv l
                 | None => l
                 end)).
Proof. exact (MovementSystem_moves_by_velocity (F32.of_int 1) world world_wf). Defined.

(** A keyboard with 146 scancodes, where [A] is 0 and [D] is 3. *)
Lemma GravitySystem_accelerates_airborne_witness :
  ∃ m', GravitySystem 146 0 3 (F32.of_int 1) world = Some m' ∧ wf m'
    ∧ writes_only [KMovement] world m'
    ∧ (∀ e mv, component KMovement world e = Some mv →
         component KMovement m' e
         = Some (if e =? 0 then mv
                 else after_gravity 0 3 (F32.of_int 1)
                        (component KCollision world e) (component KInput world e) mv)).
Proof.
  assert (HA : 0 < 146) by by vm_compute.
  assert (HD : 3 < 146) by by vm_compute.
  exact (GravitySystem_accelerates_airborne 146 0 3 HA HD (F32.of_int 1) world world_wf).
Defined.

Lemma CollisionSystemUpdate_records_boxes_witness :
  ∃ m', CollisionSystemUpdate world = Some m' ∧ wf m'
    ∧ writes_only [KCollision] world m'
    ∧ (∀ e c, component KCollision world e = Some c →
         component KCollision m' e = Some (if e =? 0 then c else remember_box c))
    ∧ CollisionSystemUpdate m' = Some m'.
Proof. exact (CollisionSystemUpdate_records_boxes world world_wf). Defined.

(** ** What the collision code leaves alone *)

Lemma writes_only_upd_in ks k r f m0 m :
  k ∈ ks → writes_only ks m0 m → writes_only ks m0 (upd k r f m).
Proof.
  intros Hk Hw. eapply writes_only_trans; [done|].
  apply (writes_only_mono [k]); [|apply writes_only_upd].
  by intros ? ->%list_elem_of_singleton.
Qed.

Lemma writes_only_modify ks k r f m0 m m' :
  k ∈ ks → writes_only ks m0 m → modify k r f m = Some m' → writes_only ks m0 m'.
Proof. intros Hk Hw ->%modify_inv. by apply writes_only_upd_in. Qed.

Ltac kind_in := apply (bool_decide_unpack _); exact I.

(** Splits the hypothesis that a piece of the resolution code returned a
    registry into the reads and writes it made. *)
Ltac step_through :=
  repeat match goal with
  | H : Some _ = Some _ |- _ => injection H as <-
  | H : None = Some _ |- _ => discriminate H
  | H : mbind _ ?x = Some _ |- _ =>
      let Hx := fresh "Hread" in
      destruct x eqn:Hx; simpl in H; [|discriminate H]
  | H : (if ?b then _ else _) = Some _ |- _ => destruct b eqn:?
  | H : (let '(_, _) := ?p in _) = Some _ |- _ => destruct p
  | H : orb_lazy _ _ = Some _ |- _ => clear H
  | H : andb_lazy _ _ = Some _ |- _ => clear H
  | H : HasComponent _ _ _ = Some _ |- _ => clear H
  | H : GetComponent _ _ _ = Some _ |- _ => clear H
  | H : deref _ _ _ = Some _ |- _ => clear H
  | H : fmap _ _ = Some _ |- _ => clear H
  | H : assert _ = Some _ |- _ => clear H
  | Hw : writes_only ?ks ?m0 ?m, H : modify ?k _ _ ?m = Some _ |- _ =>
      apply (writes_only_modify ks k _ _ m0 m _ ltac:(kind_in) Hw) in H; clear Hw
  end.

Lemma trigger_shake_writes theCamera isHorizontal m0 m m' :
  writes_only resolution_kinds m0 m →
  trigger_shake theCamera isHorizontal m = Some m' → writes_only resolution_kinds m0 m'.
Proof. intros Hw H. unfold trigger_shake in H. step_through. done. Qed.

Ltac step_through' :=
  repeat first [ progress step_through
    | match goal with
      | Hw : writes_only _ ?m0 ?m, H : trigger_shake _ _ ?m = Some _ |- _ =>
          apply (trigger_shake_writes _ _ m0 m _ Hw) in H; clear Hw
      end ].

Lemma resolve_static_horizontal_writes e1 e2 c1 c2 ov cam pl m0 m m' :
  writes_only resolution_kinds m0 m →
  resolve_static_horizontal e1 e2 c1 c2 ov cam pl m = Some m' →
  writes_only resolution_kinds m0 m'.
Proof. intros Hw H. unfold resolve_static_horizontal in H. step_through'; done. Qed.

Lemma resolve_static_vertical_writes e1 e2 c1 c2 ov cam pl m0 m m' :
  writes_only resolution_kinds m0 m →
  resolve_static_vertical e1 e2 c1 c2 ov cam pl m = Some m' →
  writes_only resolution_kinds m0 m'.
Proof. intros Hw H. unfold resolve_static_vertical in H. step_through'; done. Qed.

Lemma resolve_dynamic_dynamic_writes e1 e2 c1 c2 ov pl m0 m m' :
  writes_only resolution_kinds m0 m →
  resolve_dynamic_dynamic e1 e2 c1 c2 ov pl m = Some m' →
  writes_only resolution_kinds m0 m'.
Proof. intros Hw H. unfold resolve_dynamic_dynamic in H. step_through'; done. Qed.

Lemma ResolveCollision_writes e1 e2 c1 c2 ov cam pl m0 m m' :
  writes_only resolution_kinds m0 m →
  ResolveCollision e1 e2 c1 c2 ov cam pl m = Some m' →
  writes_only resolution_kinds m0 m'.
Proof.
  intros Hw H. unfold ResolveCollision in H.
  repeat match goal with
  | H : mbind _ ?x = Some _ |- _ =>
      let Hx := fresh "Hread" in
      destruct x eqn:Hx; simpl in H; [|discriminate H]
  end.
  repeat match goal with
  | H : (if ?b then _ else _) = Some _ |- _ => destruct b eqn:?
  end;
  match goal with
  | H : resolve_dynamic_dynamic _ _ _ _ _ _ _ = Some _ |- _ =>
      exact (resolve_dynamic_dynamic_writes _ _ _ _ _ _ _ _ _ Hw H)
  | H : resolve_static_horizontal _ _ _ _ _ _ _ _ = Some _ |- _ =>
      exact (resolve_static_horizontal_writes _ _ _ _ _ _ _ _ _ _ Hw H)
  | H : resolve_static_vertical _ _ _ _ _ _ _ _ = Some _ |- _ =>
      exact (resolve_static_vertical_writes _ _ _ _ _ _ _ _ _ _ Hw H)
  end.
Qed.

(** Well-formedness only depends on the shape of a registry. *)
Lemma same_shape_wf m m' : same_shape m m' → wf m → wf m'.
Proof.
  intros Hs Hwf. pose proof Hs as [He Hv Hf Ht Hsl]. split.
  - rewrite He, Hv. apply (wf_entities_length _ Hwf).
  - rewrite Ht, Hv. apply (wf_table_length _ Hwf).
  - rewrite Ht. apply (wf_row_length _ Hwf).
  - rewrite Hf. apply (wf_free_NoDup _ Hwf).
  - rewrite Hf, Hv. apply (wf_free_invalid _ Hwf).
  - intros e k. rewrite Hv, (same_shape_table_at _ _ _ _ Hs). apply (wf_dead_row _ Hwf).
  - intros e ent. rewrite He, (same_shape_ValidEntity _ _ _ Hs). apply (wf_entity_id _ Hwf).
  - intros e k r Ho%(same_shape_owns m m'); [|done].
    unfold ComponentStorage.valid. destruct (Hsl k) as (-> & _).
    by apply (wf_slot_valid _ Hwf e).
  - intros e1 e2 k r Ho1%(same_shape_owns m m') Ho2%(same_shape_owns m m'); try done.
    by apply (wf_slot_inj _ Hwf e1 e2 k r).
  - intros k. destruct (Hsl k) as (Hvl & Hfl & Hc & Hlen).
    destruct (wf_storage _ Hwf k) as [Hl Hn Hfr Hcnt]. split.
    + by rewrite Hlen, Hvl.
    + by rewrite Hfl.
    + by rewrite Hfl, Hvl.
    + unfold ComponentStorage.count_valid. by rewrite Hc, Hvl.
Qed.

(** X20. Whatever the pair and the overlap, a call of [ResolveCollision]
    that returns has only written into location, movement, collision and
    camera-shake components.  It creates and destroys no entity, renames
    none, adds and removes no component, keeps a well-formed registry
    well-formed, and leaves every sprite, input and score component as it
    was. *)
Theorem ResolveCollision_only_writes (entity1 entity2 col1 col2 : N) (overlap : Overlap)
    (theCamera thePlayer : N) (m m' : t) :
  ResolveCollision entity1 entity2 col1 col2 overlap theCamera thePlayer m = Some m' →
  writes_only [KLocation; KMovement; KCollision; KCameraShake] m m'
  ∧ (wf m → wf m')
  ∧ (∀ e, ValidEntity m' e = ValidEntity m e ∧ GetEntityName m' e = GetEntityName m e)
  ∧ (∀ e k, HasComponent k m' e = HasComponent k m e)
  ∧ (∀ e, component KSprite m' e = component KSprite m e
          ∧ component KInput m' e = component KInput m e
          ∧ component KScore m' e = component KScore m e).
Proof.
  intros Hres.
  pose proof (ResolveCollision_writes _ _ _ _ _ _ _ m m m'
                (writes_only_refl _ m) Hres) as Hw.
  pose proof Hw as [Hs _].
  split_and!; [done|by apply same_shape_wf| | |].
  - intros e. split; [by apply same_shape_ValidEntity|by apply same_shape_GetEntityName].
  - intros e k. by apply same_shape_HasComponent.
  - intros e. split_and!; apply (writes_only_component resolution_kinds); try done;
      apply (bool_decide_unpack _); exact I.
Qed.

(** *** CollisionSystem *)

Ltac step_through_pairs :=
  repeat first
    [ progress step_through
    | match goal with
      | H : Some (_, _) = Some _ |- _ => injection H as <- <-
      | H : Some (_, _) = Some (_, _) |- _ => injection H as <- <-
      | H : (let '(_, _) := ?p in _) = Some _ |- _ => destruct p
      end ].

Lemma gather_step_writes m0 g ent g' :
  writes_only [KCollision] m0 (g_manager g) → gather_step g ent = Some g' →
  writes_only [KCollision] m0 (g_manager g').
Proof.
  intros Hw H. unfold gather_step in H.
  destruct (id ent =? 0); [by simplify_eq|].
  step_through_pairs; simpl; try done.
Qed.

Transparent deref.
Lemma assign_inv k r x m m' : assign k r x m = Some m' → m' = upd k r (λ _, x) m.
Proof.
  intros Ha. destruct (deref k m r) as [y|] eqn:Hy.
  - rewrite (assign_Some k r x y m Hy) in Ha. congruence.
  - unfold assign in Ha. unfold deref, vec_at in Hy. unfold vec_assign in Ha.
    destruct (N.ltb_spec r (vec_size (ComponentStorage.mStorage (registry k (mRegistries m)))))
      as [Hlt|Hge]; [|done].
    apply lookup_ge_None in Hy. unfold vec_size in Hlt. lia.
Qed.
Opaque deref.

Lemma collision_inv_same_shape m0 sm0 m sm m' :
  same_shape m m' → collision_inv m0 sm0 (m, sm) → collision_inv m0 sm0 (m', sm).
Proof.
  intros Hs (Hwf & Hsnd & Hplayed & Hlive & Hdead). split_and!; simpl in *; try done.
  - by eapply same_shape_wf.
  - intros e. rewrite (same_shape_ValidEntity _ _ _ Hs), (same_shape_GetEntityName _ _ _ Hs).
    apply Hlive.
  - intros e. rewrite (same_shape_ValidEntity _ _ _ Hs). apply Hdead.
Qed.

Lemma GetEntityName_valid m e n : GetEntityName m e = Some n → ValidEntity m e = true.
Proof. unfold GetEntityName. by destruct (ValidEntity m e). Qed.

Lemma collision_inv_pickup m0 sm0 m sm star m' sm' :
  collision_inv m0 sm0 (m, sm) →
  GetEntityName m star = Some "star"%string →
  RemoveEntity star m = Some m' → PlaySound "sparkle" sm = Some sm' →
  collision_inv m0 sm0 (m', sm').
Proof.
  intros (Hwf & Hsnd & [n Hplayed] & Hlive & Hdead) Hname Hrm Hplay. simpl in *.
  pose proof (GetEntityName_valid _ _ _ Hname) as Hv.
  destruct (RemoveEntity_spec m star Hwf Hv)
    as (m'' & Hrm' & Hwf' & Hgone & _ & Hvalid & Hents & _).
  rewrite Hrm in Hrm'. injection Hrm' as <-.
  unfold PlaySound in Hplay. destruct (assert _); simpl in Hplay; [|done].
  injection Hplay as <-. split_and!; simpl; try done.
  - exists (S n). rewrite Hplayed. unfold push_back. rewrite <- app_assoc. f_equal.
    change [("sparkle"%string)] with (replicate 1 "sparkle"%string).
    rewrite <- replicate_add. f_equal. lia.
  - intros e He. destruct (decide (e = star)) as [->|Hne]; [congruence|].
    rewrite (Hvalid e Hne) in He. destruct (Hlive e He) as [Hv0 Hn0]. split; [done|].
    rewrite <- Hn0. apply GetEntityName_frame; [by apply Hvalid|by apply Hents].
  - intros e He0 He. destruct (decide (e = star)) as [->|Hne].
    + destruct (Hlive star Hv) as [_ Hn]. congruence.
    + rewrite (Hvalid e Hne) in He. by apply Hdead.
Qed.

Lemma pair_rest_inv m0 sm0 theCamera thePlayer entity1 entity2 collision1 collision2
    overlap star m sm st' :
  collision_inv m0 sm0 (m, sm) →
  (star ≠ 0 → GetEntityName m star = Some "star"%string) →
  (if negb (star =? 0) then
     m ← collect_star thePlayer star m;
     m ← RemoveEntity star m;
     sm ← PlaySound "sparkle" sm;
     Some (m, sm)
   else
     m ← ResolveCollision entity1 entity2 collision1 collision2 overlap
           theCamera thePlayer m;
     Some (m, sm)) = Some st' →
  collision_inv m0 sm0 st'.
Proof.
  intros Hinv Hname H. destruct (N.eqb_spec star 0) as [->|Hnz]; simpl in H.
  - destruct (ResolveCollision _ _ _ _ _ _ _ m) as [m1|] eqn:Hres; simpl in H; [|done].
    injection H as <-.
    apply (collision_inv_same_shape m0 sm0 m); [|done].
    exact (proj1 (ResolveCollision_writes _ _ _ _ _ _ _ m m m1 (writes_only_refl _ m) Hres)).
  - specialize (Hname Hnz). unfold collect_star in H.
    destruct (GetComponent KScore m thePlayer) as [scoreRef|]; simpl in H; [|done].
    destruct (GetComponent KSprite m star) as [sprite|]; simpl in H; [|done].
    destruct (deref KScore m scoreRef) as [sc|]; simpl in H; [|done].
    destruct (int_add (score sc) 10) as [newScore|]; simpl in H; [|done].
    destruct (assign KScore scoreRef _ m) as [m1|] eqn:Hm1; simpl in H; [|done].
    destruct (modify KSprite sprite _ m1) as [m2|] eqn:Hm2; simpl in H; [|done].
    destruct (RemoveEntity star m2) as [m3|] eqn:Hm3; simpl in H; [|done].
    destruct (PlaySound "sparkle" sm) as [sm1|] eqn:Hsm; simpl in H; [|done].
    injection H as <-.
    apply assign_inv in Hm1 as ->. apply modify_inv in Hm2 as ->.
    refine (collision_inv_pickup m0 sm0 _ sm star m3 sm1 _ _ Hm3 Hsm).
    + apply (collision_inv_same_shape m0 sm0 m); [|done].
      eapply same_shape_trans; apply writes_only_upd.
    + by autorewrite with reg.
Qed.

Lemma pair_step_inv m0 sm0 theCamera thePlayer entity1 entity2 st st' :
  collision_inv m0 sm0 st → pair_step theCamera thePlayer entity1 entity2 st = Some st' →
  collision_inv m0 sm0 st'.
Proof.
  destruct st as [m sm]. intros Hinv H. unfold pair_step in H.
  destruct (negb (ValidEntity m entity1) || negb (ValidEntity m entity2)); [by simplify_eq|].
  destruct (GetComponent KCollision m entity1) as [collision1|]; simpl in H; [|done].
  destruct (GetComponent KCollision m entity2) as [collision2|]; simpl in H; [|done].
  destruct (deref KCollision m collision1) as [c1|]; simpl in H; [|done].
  destruct (deref KCollision m collision2) as [c2|]; simpl in H; [|done].
  destruct (isStatic c1 && isStatic c2); [by simplify_eq|].
  destruct (negb (RectIntersect _ _)); [by simplify_eq|].
  destruct (entity1 =? thePlayer).
  - destruct (GetEntityName m entity2) as [n2|] eqn:Hn2; simpl in H; [|done].
    destruct (String.eqb n2 "star") eqn:Heq2; simpl in H.
    + apply String.eqb_eq in Heq2 as ->.
      eapply pair_rest_inv; [exact Hinv| |exact H]. done.
    + destruct (entity2 =? thePlayer).
      * destruct (GetEntityName m entity1) as [n1|] eqn:Hn1; simpl in H; [|done].
        destruct (String.eqb n1 "star") eqn:Heq1; simpl in H.
        -- apply String.eqb_eq in Heq1 as ->.
           eapply pair_rest_inv; [exact Hinv| |exact H]. done.
        -- eapply (pair_rest_inv _ _ _ _ _ _ _ _ _ 0); [exact Hinv| |exact H]. done.
      * simpl in H. eapply (pair_rest_inv _ _ _ _ _ _ _ _ _ 0); [exact Hinv| |exact H]. done.
  - simpl in H. destruct (entity2 =? thePlayer).
    + destruct (GetEntityName m entity1) as [n1|] eqn:Hn1; simpl in H; [|done].
      destruct (String.eqb n1 "star") eqn:Heq1; simpl in H.
      * apply String.eqb_eq in Heq1 as ->.
        eapply pair_rest_inv; [exact Hinv| |exact H]. done.
      * eapply (pair_rest_inv _ _ _ _ _ _ _ _ _ 0); [exact Hinv| |exact H]. done.
    + simpl in H. eapply (pair_rest_inv _ _ _ _ _ _ _ _ _ 0); [exact Hinv| |exact H]. done.
Qed.

Lemma for_each_invariant {S A} (P : S → Prop) (body : S → A → option S) l s s' :
  (∀ s x s', P s → body s x = Some s' → P s') →
  P s → for_each body l s = Some s' → P s'.
Proof.
  intros Hstep. revert s. induction l as [|x l IH]; intros s HP; simpl.
  - by intros [= <-].
  - destruct (body s x) as [s1|] eqn:Hb; simpl; [|done]. apply IH. by eapply Hstep.
Qed.

Lemma pair_loop_inv m0 sm0 theCamera thePlayer ents st st' :
  collision_inv m0 sm0 st → pair_loop theCamera thePlayer ents st = Some st' →
  collision_inv m0 sm0 st'.
Proof.
  revert st. induction ents as [|entity1 rest IH]; intros st Hinv; simpl.
  - by intros [= <-].
  - destruct (for_each _ rest st) as [st1|] eqn:Hinner; simpl; [|done].
    apply IH. eapply (for_each_invariant (collision_inv m0 sm0) _ rest st st1);
      [|exact Hinv|exact Hinner].
    intros s x s1 Hs Hstep. exact (pair_step_inv _ _ _ _ _ _ _ _ Hs Hstep).
Qed.

Lemma update_player_contacts_writes thePlayer m m' :
  update_player_contacts thePlayer m = Some m' → writes_only [KCollision] m m'.
Proof.
  intros H. unfold update_player_contacts in H.
  pose proof (writes_only_refl [KCollision] m) as Hw.
  step_through; done.
Qed.

(** X21. A run of [CollisionSystem] on a well-formed registry that
    returns leaves the registry well-formed.  It registers no sound and
    plays nothing but "sparkle"; it creates and renames no entity; and
    every entity it destroys is named "star". *)
Theorem CollisionSystem_preserves (m m' : t) (sm sm' : SoundManager) :
  wf m → CollisionSystem (m, sm) = Some (m', sm') →
  wf m'
  ∧ mSounds sm' = mSounds sm
  ∧ (∃ n, played sm' = played sm ++ replicate n "sparkle"%string)
  ∧ (∀ e, ValidEntity m' e = true →
       ValidEntity m e = true ∧ GetEntityName m' e = GetEntityName m e)
  ∧ (∀ e, ValidEntity m e = true → ValidEntity m' e = false →
       GetEntityName m e = Some "star"%string).
Proof.
  intros Hwf H. unfold CollisionSystem in H.
  destruct (for_each gather_step (mEntities m) _) as [g|] eqn:Hgather; simpl in H; [|done].
  destruct (pair_loop _ _ _ _) as [[m1 sm1]|] eqn:Hpairs; simpl in H; [|done].
  destruct (update_player_contacts _ m1) as [m2|] eqn:Hupd; simpl in H; [|done].
  injection H as <- <-.
  assert (Hg : writes_only [KCollision] m (g_manager g)).
  { eapply (for_each_invariant (λ g, writes_only [KCollision] m (g_manager g))
              _ _ (mkGathered m 0 0 []) g);
      [|apply (writes_only_refl _ m)|exact Hgather].
    intros g0 ent g1 Hw Hstep. exact (gather_step_writes _ _ _ _ Hw Hstep). }
  assert (Hinv0 : collision_inv m sm (m, sm)).
  { split_and!; simpl; [done|done| |by intros e He|by intros e ? ?; congruence].
    exists 0%nat. simpl. by rewrite app_nil_r. }
  apply (collision_inv_same_shape m sm m sm (g_manager g) (proj1 Hg)) in Hinv0.
  pose proof (pair_loop_inv _ _ _ _ _ _ _ Hinv0 Hpairs) as Hinv1.
  apply (collision_inv_same_shape m sm m1 sm1 m2) in Hinv1; [done|].
  exact (proj1 (update_player_contacts_writes _ _ _ Hupd)).
Qed.


(** The player of [world] (entity 1, collision slot 0) stands 4 deep in
    the ground (entity 3, collision slot 1); the camera is entity 2. *)
Lemma ResolveCollision_only_writes_witness :
  ∃ m',
    ResolveCollision 1 3 0 1
      (CalculateOverlap (mkRect (pt 0 (-28)) 32 32) (mkRect (pt 0 0) 32 32)) 2 1 world
    = Some m'
    ∧ writes_only [KLocation; KMovement; KCollision; KCameraShake] world m'
    ∧ wf m'
    ∧ (∀ e k, HasComponent k m' e = HasComponent k world e).
Proof.
  assert (Hres :
    ResolveCollision 1 3 0 1
      (CalculateOverlap (mkRect (pt 0 (-28)) 32 32) (mkRect (pt 0 0) 32 32)) 2 1 world
    = Some (default world
              (ResolveCollision 1 3 0 1
                 (CalculateOverlap (mkRect (pt 0 (-28)) 32 32) (mkRect (pt 0 0) 32 32))
                 2 1 world))) by by vm_compute.
  destruct (ResolveCollision_only_writes _ _ _ _ _ _ _ _ _ Hres) as (Hw & Hwf & _ & Hhas & _).
  exact (ex_intro _ _ (conj Hres (conj Hw (conj (Hwf world_wf) Hhas)))).
Defined.

Lemma CollisionSystem_preserves_witness :
  ∃ m' sm', CollisionSystem (world, speakers) = Some (m', sm')
    ∧ wf m'
    ∧ mSounds sm' = mSounds speakers
    ∧ (∃ n, played sm' = played speakers ++ replicate n "sparkle"%string)
    ∧ (∀ e, ValidEntity m' e = true →
         ValidEntity world e = true ∧ GetEntityName m' e = GetEntityName world e)
    ∧ (∀ e, ValidEntity world e = true → ValidEntity m' e = false →
         GetEntityName world e = Some "star"%string).
Proof.
  assert (Hrun : CollisionSystem (world, speakers)
                 = Some ((default (world, speakers) (CollisionSystem (world, speakers))).1,
                         (default (world, speakers) (CollisionSystem (world, speakers))).2))
    by by vm_compute.
  exact (ex_intro _ _ (ex_intro _ _ (conj Hrun
           (CollisionSystem_preserves world _ speakers _ world_wf Hrun)))).
Defined.

(** ** More geometry *)

Section f32_more.
Import F32.

Ltac pos_compare a b :=
  let H := fresh in
  pose proof (Pos.compare_spec a b) as H; unfold Pos.compare in H; destruct H.

Lemma SFcompare_trans a b c :
  SFcompare a b = Some Lt → SFcompare b c = Some Lt → SFcompare a c = Some Lt.
Proof.
  destruct a as [sa|sa| |sa ma ea], b as [sb|sb| |sb mb eb], c as [sc|sc| |sc mc ec];
    simpl; try done;
    try (by destruct sa); try (by destruct sb); try (by destruct sc);
    try (by destruct sa, sb); try (by destruct sb, sc); try (by destruct sa, sc);
    try (by destruct sa, sb, sc).
  destruct sa, sb, sc; simpl; try done;
    destruct (Z.compare_spec ea eb), (Z.compare_spec eb ec), (Z.compare_spec ea ec);
    try done; try lia; subst;
    pos_compare ma mb; pos_compare mb mc; pos_compare ma mc;
    simpl; try done; try lia.
Qed.

Lemma SFcompare_Eq_l a b c :
  SFcompare a b = Some Eq → SFcompare a c = SFcompare b c.
Proof.
  destruct a as [sa|sa| |sa ma ea], b as [sb|sb| |sb mb eb], c as [sc|sc| |sc mc ec];
    simpl; try done;
    try (by destruct sa); try (by destruct sb); try (by destruct sc);
    try (by destruct sa, sb); try (by destruct sb, sc); try (by destruct sa, sc);
    try (by destruct sa, sb, sc).
  destruct sa, sb, sc; simpl; try done;
    destruct (Z.compare_spec ea eb); try done; subst;
    pos_compare ma mb; try done; by subst.
Qed.

(** [a < b] and [b <= c] give [a <= c]. *)
Lemma f32_ltb_leb_trans a b c : ltb a b = true → leb b c = true → leb a c = true.
Proof.
  unfold ltb, leb, SFltb, SFleb.
  destruct (SFcompare a b) as [[]|] eqn:Hab; try done. intros _.
  destruct (SFcompare b c) as [[]|] eqn:Hbc; try done; intros _.
  - pose proof (SFcompare_antisym b c) as Hcb. rewrite Hbc in Hcb. simpl in Hcb.
    pose proof (SFcompare_antisym a b) as Hba. rewrite Hab in Hba. simpl in Hba.
    pose proof (SFcompare_Eq_l c b a Hcb) as Hca. rewrite Hba in Hca.
    pose proof (SFcompare_antisym c a) as Hac. rewrite Hca in Hac. simpl in Hac.
    by rewrite Hac.
  - by rewrite (SFcompare_trans a b c Hab Hbc).
Qed.

Lemma f32_mul_comm a b : mul a b = mul b a.
Proof.
  destruct a as [sa|sa| |sa ma ea], b as [sb|sb| |sb mb eb]; simpl;
    try done; try (by rewrite xorb_comm).
  unfold mul. simpl. by rewrite xorb_comm, Pos.mul_comm, Z.add_comm.
Qed.

Lemma f32_sub_diag a : zero_or_nan (sub a a) = true.
Proof.
  destruct a as [[]|[]| |s m e]; try done.
  unfold sub. simpl. by rewrite Z.sub_diag.
Qed.

Lemma f32_mul_zero_or_nan a b : zero_or_nan a = true → zero_or_nan (mul a b) = true.
Proof. by destruct a as [| | |], b as [| | |]. Qed.

Lemma f32_sub_zero_or_nan a b :
  zero_or_nan a = true → zero_or_nan b = true → zero_or_nan (sub a b) = true.
Proof. by destruct a as [[]| | |], b as [[]| | |]. Qed.

Lemma f32_div_nan a : div a S754_nan = S754_nan.
Proof. by destruct a. Qed.

Lemma f32_add_nan a b : is_nan a = true → add a b = S754_nan.
Proof. by destruct a. Qed.

Lemma f32_geb_nan_l a b : is_nan a = true → geb a b = false.
Proof. by destruct a, b. Qed.

Lemma f32_geb_nan_r a b : is_nan b = true → geb a b = false.
Proof. by destruct a, b. Qed.
End f32_more.

Lemma Crosses_zero_or_nan this other crossingPoint :
  zero_or_nan (Cross (point_sub (p2 this) (p1 this)) (point_sub (p2 other) (p1 other)))
  = true →
  Crosses this other crossingPoint = (false, crossingPoint).
Proof.
  unfold Crosses. cbv zeta. intros Hz.
  destruct (Cross (point_sub (p2 this) (p1 this)) (point_sub (p2 other) (p1 other)))
    as [s| | |] eqn:Hc; try done.
  rewrite f32_div_nan. done.
Qed.

(** X22. [Line::Crosses] answers false, and leaves [crossingPoint] as
    it was, when either line is degenerate (its two endpoints are the same
    point) and when a line is tested against itself, each operation being
    rounded on its own: the cross product of the two directions is then a
    zero or not a number. *)
Theorem Crosses_degenerate (l other : Line) (p crossingPoint : Point2D) :
  Crosses (mkLine p p) other crossingPoint = (false, crossingPoint)
  ∧ Crosses l (mkLine p p) crossingPoint = (false, crossingPoint)
  ∧ Crosses l l crossingPoint = (false, crossingPoint).
Proof.
  split_and!; apply Crosses_zero_or_nan; unfold Cross.
  - simpl. apply f32_sub_zero_or_nan; apply f32_mul_zero_or_nan, f32_sub_diag.
  - simpl. apply f32_sub_zero_or_nan;
      rewrite f32_mul_comm; apply f32_mul_zero_or_nan, f32_sub_diag.
  - rewrite (f32_mul_comm (py (point_sub (p2 l) (p1 l)))). apply f32_sub_diag.
Qed.

(** X23. [RectIntersect] does not depend on the order of the two
    rectangles.  A rectangle whose corner has not-a-number coordinates
    intersects every rectangle, since none of the four comparisons with
    it holds. *)
Theorem RectIntersect_symmetric_and_nan (r1 r2 : Rect) :
  RectIntersect r1 r2 = RectIntersect r2 r1
  ∧ (F32.is_nan (px (topLeft r1)) = true → F32.is_nan (py (topLeft r1)) = true →
     RectIntersect r1 r2 = true).
Proof.
  split.
  - unfold RectIntersect. cbv zeta.
    destruct (rect_left r1 >=? rect_right r2)%f32, (rect_left r2 >=? rect_right r1)%f32,
      (rect_top r1 >=? rect_bottom r2)%f32, (rect_top r2 >=? rect_bottom r1)%f32; done.
  - intros Hx Hy. unfold RectIntersect, rect_left, rect_top, rect_right, rect_bottom.
    cbv zeta.
    rewrite (f32_add_nan (px (topLeft r1))), (f32_add_nan (py (topLeft r1))) by done.
    rewrite (f32_geb_nan_l (px (topLeft r1))), (f32_geb_nan_l (py (topLeft r1))) by done.
    by rewrite !f32_geb_nan_r by done.
Qed.

Lemma RectIntersect_symmetric_and_nan_witness :
  RectIntersect (mkRect (mkPoint2D S754_nan S754_nan) 32 32) (mkRect (pt 500 500) 1 1)
  = true.
Proof.
  apply (RectIntersect_symmetric_and_nan
           (mkRect (mkPoint2D S754_nan S754_nan) 32 32) (mkRect (pt 500 500) 1 1)).
  - reflexivity.
  - reflexivity.
Defined.

(** X24. [IsInside] answers false for every point whose [y] is a number
    when the top edge of the rectangle compares less than or equal to its
    bottom edge, [top <= top + height]: the test asks for
    [top + height < p.y < top]. *)
Theorem IsInside_upright_rect (r : Rect) (p : Point2D) :
  (rect_top r <=? rect_bottom r)%f32 = true → F32.is_nan (py p) = false →
  IsInside r p = false.
Proof.
  intros Hup Hnan. unfold IsInside.
  destruct (_ || _); [done|].
  assert (F32.is_nan (rect_top r) = false) as Htop.
  { unfold F32.leb, SFleb in Hup. by destruct (rect_top r). }
  destruct (py p >=? rect_top r)%f32 eqn:Hge; [by rewrite orb_true_r|].
  apply not_geb_ltb in Hge; [|done|done].
  by rewrite (f32_ltb_leb_trans _ _ _ Hge Hup).
Qed.

Lemma IsInside_upright_rect_witness :
  IsInside (mkRect (pt 0 0) 10 10) (pt 5 5) = false.
Proof.
  apply IsInside_upright_rect.
  - by vm_compute.
  - by vm_compute.
Defined.

(** ** The score display *)

Lemma extract_digits_loop (l : list N) (acc : list Z) (v : Z) :
  for_each extract_digit l (acc, v)
  = Some (acc ++ ((λ j, Z.rem (Z.quot v (10 ^ Z.of_nat j)) 10) <$> seq 0 (length l)),
          Z.quot v (10 ^ Z.of_nat (length l))).
Proof.
  revert acc v. induction l as [|i l IH]; intros acc v.
  - simpl. by rewrite app_nil_r, Z.quot_1_r.
  - cbn [for_each extract_digit mbind option_bind fst snd]. rewrite IH.
    f_equal. f_equal.
    + unfold push_back. rewrite <- app_assoc. f_equal. cbn [length seq fmap list_fmap].
      rewrite Z.quot_1_r. simpl app. f_equal.
      rewrite <- fmap_S_seq, <- list_fmap_compose. apply list_fmap_ext. intros _ j _. simpl.
      rewrite Z.quot_quot by lia. do 2 f_equal.
      rewrite Nat2Z.inj_succ, Z.pow_succ_r by lia. done.
    + rewrite Z.quot_quot by lia. f_equal. cbn [length].
      rewrite Nat2Z.inj_succ, Z.pow_succ_r by lia. done.
Qed.

Lemma extracted_digits (n : nat) (v : Z) :
  (0 ≤ v)%Z →
  ∃ st, for_range (N.of_nat n) extract_digit ([], v) = Some st
    ∧ length (reverse st.1) = n
    ∧ ∀ i, (i < n)%nat →
        reverse st.1 !! i = Some ((v / 10 ^ Z.of_nat (n - 1 - i)) mod 10)%Z.
Proof.
  intros Hv. unfold for_range. rewrite extract_digits_loop. eexists. split; [done|].
  rewrite length_fmap, length_seq, Nat2N.id. simpl. split.
  - by rewrite length_reverse, length_fmap, length_seq.
  - intros i Hi. rewrite reverse_lookup by (rewrite length_fmap, length_seq; lia).
    rewrite length_fmap, length_seq, list_lookup_fmap, lookup_seq_lt by lia. simpl.
    replace (n - S i)%nat with (n - 1 - i)%nat by lia. f_equal.
    rewrite Z.quot_div_nonneg by lia. apply Z.rem_mod_nonneg; [|lia].
    apply Z.div_pos; lia.
Qed.

Lemma vec_at_of_nat {A} (v : list A) (i : nat) (x : A) :
  v !! i = Some x → vec_at v (N.of_nat i) = Some x.
Proof. intros H. apply vec_at_Some. by rewrite Nat2N.id. Qed.

Lemma vec_at_of_Z {A} (v : list A) (z : Z) (x : A) :
  v !! Z.to_nat z = Some x → vec_at v (Z.to_N z) = Some x.
Proof. intros H. apply vec_at_Some. by rewrite Z_N_nat. Qed.

Section score_display.
Variables (m : t) (p scoreRef : N) (sc : ScoreComponent) (digits : list Z).
Hypothesis Hwf : wf m.
Hypothesis Hscore : deref KScore m scoreRef = Some sc.
Hypothesis Hnodup : NoDup (displayEntities sc).
Hypothesis Hsprites : ∀ d, d ∈ displayEntities sc → HasComponent KSprite m d = Some true.
Hypothesis Hdigits : ∀ i dg, digits !! i = Some dg → (0 ≤ dg ≤ 9)%Z.
Hypothesis Hlen : length digits = length (displayEntities sc).
Hypothesis Harray : length (digitSprites sc) = 10%nat.

Lemma display_loop (idx : list nat) (m1 : t) :
  NoDup idx → (∀ i, i ∈ idx → (i < length (displayEntities sc))%nat) →
  writes_only [KSprite] m m1 →
  ∃ m2, for_each (display_step scoreRef digits) (N.of_nat <$> idx) m1 = Some m2
    ∧ writes_only [KSprite] m m2
    ∧ (∀ i d r, i ∈ idx → displayEntities sc !! i = Some d → owns m d KSprite r →
         ∃ dg v, digits !! i = Some dg ∧ digitSprites sc !! Z.to_nat dg = Some v
                 ∧ deref KSprite m2 r = set_spriteID v <$> deref KSprite m1 r)
    ∧ (∀ r, (∀ i d, i ∈ idx → displayEntities sc !! i = Some d → ¬ owns m d KSprite r) →
         deref KSprite m2 r = deref KSprite m1 r).
Proof using Hwf Hscore Hnodup Hsprites Hdigits Hlen Harray.
  intros Hnd. revert m1. induction Hnd as [|i idx Hnotin Hnd IH]; intros m1 Hin Hw.
  - exists m1. split_and!; [done|done| |done]. by intros i d r ?%elem_of_nil.
  - assert (Hi : (i < length (displayEntities sc))%nat) by (apply Hin; left).
    destruct (lookup_lt_is_Some_2 _ _ Hi) as [d Hd].
    pose proof (Hsprites d (list_elem_of_lookup_2 _ _ _ Hd)) as Hhas.
    apply HasComponent_true_owns in Hhas as (Hv & r & Ho).
    destruct (owns_deref m d _ r Hwf Ho) as [sp Hsp].
    assert (Hi' : (i < length digits)%nat) by lia.
    destruct (lookup_lt_is_Some_2 _ _ Hi') as [dg Hdg].
    pose proof (Hdigits i dg Hdg) as Hrange.
    assert (Hdgi : (Z.to_nat dg < length (digitSprites sc))%nat) by lia.
    destruct (lookup_lt_is_Some_2 _ _ Hdgi) as [v Hvv].
    pose proof Hw as [Hs Hreg].
    assert (Hwf1 : wf m1) by by eapply same_shape_wf.
    assert (Ho1 : owns m1 d KSprite r) by by apply (same_shape_owns m m1).
    assert (Hscore1 : deref KScore m1 scoreRef = Some sc).
    { rewrite (writes_only_deref [KSprite] m m1); [done|done|].
      by intros ?%list_elem_of_singleton. }
    destruct (owns_deref m1 d _ r Hwf1 Ho1) as [sp1 Hsp1].
    assert (Hstep : display_step scoreRef digits m1 (N.of_nat i)
                    = Some (upd KSprite r (set_spriteID v) m1)).
    { unfold display_step. rewrite Hscore1. simpl.
      rewrite (vec_at_of_nat _ _ _ Hd).
      simpl. rewrite (same_shape_ValidEntity _ _ _ Hs), Hv. simpl.
      rewrite (owns_HasComponent m1 d _ r Hwf1 Ho1). simpl.
      rewrite (owns_GetComponent m1 d _ r Hwf1 Ho1). simpl.
      rewrite (vec_at_of_nat _ _ _ Hdg).
      simpl. rewrite (proj2 (Z.leb_le 0 dg)), (proj2 (Z.leb_le dg 9)) by lia. simpl.
      rewrite (vec_at_of_Z _ _ _ Hvv).
      simpl. by apply modify_Some with (x := sp1). }
    cbn [fmap list_fmap for_each]. rewrite Hstep. simpl.
    destruct (IH (upd KSprite r (set_spriteID v) m1)) as (m2 & Hloop & Hw2 & Hin2 & Hout2).
    { intros j Hj. apply Hin. by right. }
    { by apply writes_only_upd_in; [left|]. }
    assert (Hother : ∀ j d' r', j ∈ idx → displayEntities sc !! j = Some d' →
              owns m d' KSprite r' → r' ≠ r).
    { intros j d' r' Hj Hd' Ho' ->.
      pose proof (wf_slot_inj _ Hwf _ _ _ _ Ho' Ho) as ->.
      pose proof (NoDup_lookup _ _ _ _ Hnodup Hd Hd') as ->. done. }
    exists m2. split_and!; [done|done| |].
    + intros j d' r' [->|Hj]%elem_of_cons Hd' Ho'.
      * rewrite Hd in Hd'. injection Hd' as <-.
        replace r' with r by (by apply (owns_functional m d KSprite)).
        exists dg, v. split_and!; [done|done|].
        rewrite Hout2; [apply (deref_upd_eq KSprite)|].
        intros j d' Hj Hd' Ho''. by apply (Hother j d' r Hj Hd' Ho'').
      * destruct (Hin2 j d' r' Hj Hd' Ho') as (dg' & v' & Hdg' & Hv' & Hderef).
        exists dg', v'. split_and!; [done|done|]. rewrite Hderef. f_equal.
        apply (deref_upd_ne KSprite). intros Heq.
        by apply (Hother j d' r' Hj Hd' Ho').
    + intros r' Hr'. rewrite Hout2.
      * apply (deref_upd_ne KSprite). intros Heq. subst r'.
        apply (Hr' i d); [by left|done|done].
      * intros j d' Hj Hd'. apply (Hr' j d'); [by right|done].
Qed.
End score_display.

Lemma ScoreSystem_loop_skip (l1 l2 : list Entity) (m : t) :
  (∀ ent, ent ∈ l1 → id ent = 0 ∨ HasComponent KScore m (id ent) = Some false) →
  ScoreSystem_loop (l1 ++ l2) m = ScoreSystem_loop l2 m.
Proof.
  induction l1 as [|ent l1 IH]; intros Hskip; [done|]. simpl.
  destruct (Hskip ent) as [Hz|Hno]; [by left| |].
  - rewrite Hz. simpl. apply IH. intros e He. apply Hskip. by right.
  - rewrite Hno. destruct (id ent =? 0); simpl; apply IH; intros e He; apply Hskip; by right.
Qed.

Lemma int_min_999 (s : Z) : int_min s 999 = Z.min s 999.
Proof. unfold int_min. destruct (Z.ltb_spec 999 s); lia. Qed.

(** X25. Let [p] be the first entity with a score component, other than
    entity 0, with a score that is not negative, ten digit sprites, and a
    display that is not empty, lists no entity twice and consists of
    entities with a sprite component.  Then [ScoreSystem] runs to
    completion, keeps the registry well-formed and writes nothing but
    sprite components: the [i]-th display entity gets the sprite of the
    [i]-th decimal digit of [min(score, 999)], most significant first and
    padded with zeros, and every other sprite component is unchanged. *)
Theorem ScoreSystem_shows_score (m : t) (p : N) (sc : ScoreComponent) :
  wf m → p ≠ 0 → component KScore m p = Some sc →
  (∀ e, e < p → HasComponent KScore m e ≠ Some true) →
  displayEntities sc ≠ [] → NoDup (displayEntities sc) →
  (∀ d, d ∈ displayEntities sc → HasComponent KSprite m d = Some true) →
  (0 ≤ score sc)%Z → length (digitSprites sc) = 10%nat →
  ∃ m', ScoreSystem m = Some m' ∧ wf m' ∧ writes_only [KSprite] m m'
    ∧ (∀ i d sp, displayEntities sc !! i = Some d → component KSprite m d = Some sp →
         ∃ v, digitSprites sc
                !! Z.to_nat (shown_digit (score sc) (length (displayEntities sc)) i)
              = Some v
              ∧ component KSprite m' d = Some (set_spriteID v sp))
    ∧ (∀ e, e ∉ displayEntities sc → component KSprite m' e = component KSprite m e).
Proof.
  intros Hwf Hp Hcomp Honly Hne Hnd Hsprites Hpos Harr.
  apply (component_Some KScore m p sc Hwf) in Hcomp as (r & Hor & Hsc).
  pose proof (owns_valid_entity m p _ r Hwf Hor) as Hv.
  assert (Hlt : (N.to_nat p < length (mEntities m))%nat).
  { apply ValidEntity_spec, vec_at_lt in Hv. unfold vec_size in Hv.
    rewrite (wf_entities_length _ Hwf). lia. }
  destruct (lookup_lt_is_Some_2 _ _ Hlt) as [ent Hent].
  assert (Hid : id ent = p).
  { rewrite (wf_entity_id _ Hwf p ent) by by apply vec_at_Some. by rewrite Hv. }
  unfold ScoreSystem. rewrite <- (take_drop_middle _ _ _ Hent).
  rewrite ScoreSystem_loop_skip; cycle 1.
  { intros e (i & Hi)%list_elem_of_lookup_1.
    pose proof (lookup_lt_Some _ _ _ Hi) as Hil. rewrite length_take in Hil.
    rewrite lookup_take_lt in Hi by lia.
    assert (Hat : vec_at (mEntities m) (N.of_nat i) = Some e).
    { apply vec_at_Some. by rewrite Nat2N.id. }
    pose proof (wf_entity_id _ Hwf _ _ Hat) as Hide.
    destruct (ValidEntity m (N.of_nat i)) eqn:Hvi; [right|by left]. rewrite Hide.
    destruct (HasComponent_total KScore m (N.of_nat i) Hwf Hvi) as [[Hh _]|Hh]; [|done].
    destruct (Honly (N.of_nat i)); [lia|done]. }
  cbn [ScoreSystem_loop]. rewrite Hid, (eqb_false_of_ne _ _ Hp).
  rewrite (owns_HasComponent m p _ r Hwf Hor). simpl.
  rewrite (owns_GetComponent m p _ r Hwf Hor). simpl. rewrite Hsc. simpl.
  rewrite bool_decide_eq_false_2 by done.
  set (n := length (displayEntities sc)).
  destruct (extracted_digits n (int_min (score sc) 999)) as (st & Hst & Hlen & Hdig).
  { rewrite int_min_999. lia. }
  unfold vec_size. fold n. rewrite Hst. simpl.
  assert (Hrange : ∀ i dg, reverse st.1 !! i = Some dg → (0 ≤ dg ≤ 9)%Z).
  { intros i dg Hi. pose proof (lookup_lt_Some _ _ _ Hi) as Hil. rewrite Hlen in Hil.
    rewrite (Hdig i Hil) in Hi. injection Hi as <-.
    pose proof (Z.mod_pos_bound (int_min (score sc) 999 / 10 ^ Z.of_nat (n - 1 - i)) 10).
    lia. }
  destruct (display_loop m r sc (reverse st.1) Hwf Hsc Hnd Hsprites Hrange Hlen Harr
              (seq 0 n) m (NoDup_seq 0 n)) as (m' & Hloop & Hw & Hin & Hout).
  { intros i Hi%elem_of_seq. unfold n in Hi. lia. }
  { apply writes_only_refl. }
  unfold for_range. rewrite Nat2N.id, Hloop.
  assert (Hwf' : wf m') by (eapply same_shape_wf; [apply Hw|done]).
  exists m'. split_and!; [done|done|done| |].
  - intros i d sp Hd Hcomp.
    apply (component_Some KSprite m d sp Hwf) in Hcomp as (rd & Hod & Hsp).
    pose proof (lookup_lt_Some _ _ _ Hd) as Hi. fold n in Hi.
    destruct (Hin i d rd) as (dg & v & Hdg & Hv' & Hderef); [apply elem_of_seq; lia|done|done|].
    rewrite (Hdig i Hi) in Hdg. injection Hdg as <-.
    exists v. split.
    + unfold shown_digit. fold n. by rewrite <- int_min_999.
    + apply (component_Some KSprite m' d _ Hwf'). exists rd. split.
      * by apply (same_shape_owns m m'); [apply Hw|].
      * by rewrite Hderef, Hsp.
  - intros e He. apply (component_frame KSprite).
    + apply same_shape_HasComponent, Hw.
    + apply same_shape_GetComponent, Hw.
    + intros re Hre. apply Hout. intros i d _ Hd Ho.
      apply GetComponent_Some in Hre as (_ & Hat & _).
      apply He. destruct Ho as [Hat' Hne'].
      assert (owns m e KSprite re) as Ho'' by (split; [exact Hat|exact Hne']).
      rewrite (wf_slot_inj _ Hwf e d KSprite re Ho'' (conj Hat' Hne')).
      by eapply list_elem_of_lookup_2.
Qed.


(** The player of [hud_world] has a score of 70 and three display
    entities: they show 0, 7 and 0. *)
Lemma ScoreSystem_shows_score_witness :
  ∃ m', ScoreSystem hud_world = Some m' ∧ wf m'
    ∧ spriteID <$> component KSprite m' 2 = Some 100
    ∧ spriteID <$> component KSprite m' 3 = Some 107
    ∧ spriteID <$> component KSprite m' 4 = Some 100.
Proof.
  assert (Hwf : wf hud_world).
  { apply (exec_wf hud_script empty); [apply wf_empty|by vm_compute]. }
  assert (Hfirst : ∀ e, e < 1 → HasComponent KScore hud_world e ≠ Some true).
  { intros e He. replace e with 0 by lia. by vm_compute. }
  assert (Hsprites : ∀ d, d ∈ [2; 3; 4] → HasComponent KSprite hud_world d = Some true).
  { apply Forall_forall. repeat constructor; by vm_compute. }
  destruct (ScoreSystem_shows_score hud_world 1
              (mkScore 70 [2; 3; 4] [100; 101; 102; 103; 104; 105; 106; 107; 108; 109])
              Hwf ltac:(lia) ltac:(by vm_compute) Hfirst ltac:(done)
              ltac:(apply (bool_decide_unpack _); exact I) Hsprites ltac:(simpl; lia)
              ltac:(reflexivity))
    as (m' & Hrun & Hwf' & _ & Hshown & _).
  exists m'. split_and!; [done|done| | |].
  - destruct (Hshown 0%nat 2 (mkSprite 100 (mkRect (pt 832 832) 64 64) false true))
      as (v & Hv & ->); [done|by vm_compute|].
    simpl in Hv. by injection Hv as <-.
  - destruct (Hshown 1%nat 3 (mkSprite 101 (mkRect (pt 832 768) 64 64) false true))
      as (v & Hv & ->); [done|by vm_compute|].
    simpl in Hv. by injection Hv as <-.
  - destruct (Hshown 2%nat 4 (mkSprite 102 (mkRect (pt 832 704) 64 64) false true))
      as (v & Hv & ->); [done|by vm_compute|].
    simpl in Hv. by injection Hv as <-.
Defined.

(** * The claims, continued *)

(** ** C10: the entity with identifier 0 *)

(** *** What keeps an entity as it is *)



(** *** Writes that spare entity 0 *)












Section resolution.
Variables (entity1 entity2 col1 col2 : N) (m0 : t).
Hypothesis Hwf : wf m0.
Hypothesis He1 : entity1 ≠ 0.
Hypothesis He2 : entity2 ≠ 0.
Hypothesis Hc1 : table_at m0 entity1 (COMP_TYPE_ID KCollision) = Some col1.
Hypothesis Hc2 : table_at m0 entity2 (COMP_TYPE_ID KCollision) = Some col2.




End resolution.

(** *** The collision system and entity 0 *)



















